(* ===== verification/_CoqProject ===== *)
-Q . S2P
Prelude.v
Expr.v
Registry.v
Translator.v
StableSort.v
Frame.v
FrameColumns.v
Merge.v
Strip.v
Table.v
PandasTable.v
Contract.v
Verbs.v
Program.v
