(* ===== verification/Prelude.v ===== *)
(** * A verification development of pdtransform's expression translation engine

    The program (src/pdtransform) builds column expressions symbolically
    and lowers them into a backend's values.  Its parts, leaves first:
    - the expression model: columns, literals, [FunctionCall] trees and the
      [SymbolicExpression] wrapper whose operator overloads build them
      (core/column.py and core/expressions/expressions.py, which are not
      among the sources, and core/expressions/lambda_getter.py);
    - the operator registry (core/expressions/operator_registry.py, not
      among the sources) and the window operators of core/ops/window.py;
    - the translator framework of core/expressions/translator.py:
      [TypedValue], [Translator.translate], [DelegatingTranslator] and the
      [bottom_up_replace] tree rewrite;
    - the pandas backend of eager/pandas_table.py: [PandasTableImpl] with
      its state, [__init__], [collect], [alias], the verbs [mutate],
      [join], [filter], [arrange], its [ExpressionTranslator] and
      [JoinTranslator], and the [str.strip] operator it registers;
    - the generic table layer (eager_table.py and table_impl.py, not
      among the sources), whose verbs bind display names to fresh column
      identities and call the backend's verbs.
    A verb translates expressions with the table's translator, which walks
    the tree bottom-up, resolves each call in the registry from the dtypes
    of its translated arguments and applies the backend's implementation;
    the verb then updates the table's frame and its identity-to-storage-key
    mapping.

    ** Files
    - [Prelude] (this file): Python exceptions ([exc]), the [result] monad
      of fallible code, the state-and-exception monad [stres] of in-place
      mutation (an exception keeps the assignments made before it), the
      monad law and support classes the generic proofs use, equivalence of
      results up to exception messages, string and list lemmas, the hint
      databases [pdt], [pdt_rw], [stres_rw] and the tactics [simpl_res],
      [run_st], [run_st_cases].
    - [Expr]: [column], [TypedValue], leaf objects [obj], call trees [expr]
      with a nested induction principle, [SymbolicExpression] overloads,
      [LambdaColumnGetter], printing of expressions.
    - [Registry]: signatures and their parser, template unification
      ([match_args], [match_signature]: a template binds at its first
      occurrence and must agree later; a variadic last parameter stands
      for one or more arguments, [params_for]), [register] and
      [get_implementation] (exactly one matching implementation, else
      [UnresolvedOperator], [NoMatchingSignature] or
      [AmbiguousSignature]), [Shift] and [RowNumber].
    - [Translator]: [bottom_up_replace] over any monad, a post-order stack
      machine as its reference evaluator, [translate], the
      [DelegatingTranslator] class (the three hooks as fields) with its
      law classes, static dtype inference [infer_dtype], and a small
      dtypes-only backend instance.
    - [StableSort]: the stable insertion sort standing for pandas'
      mergesort, with its correctness.
    - [Frame]: the pandas operations the backend calls, modelled from
      pandas' documented behaviour on a frame of named, typed columns of
      cells: [df[key]], [df[[keys]]], [rename], [assign], [loc] with a
      boolean mask and [sort_values]; each keeps frames well formed
      (distinct names, rows as wide as the header).
    - [FrameColumns]: the cells [df[key]] reads ([frame_column]) after
      [assign] (the assigned keys hold the last value given them, every
      other key keeps its cells) and after [loc] with a mask.
    - [Merge]: [merge] (key columns, the rows of each [how], the dtypes
      of columns that receive missing values, its errors), that it keeps
      frames well formed, and the merges by row positions: for each
      [how], the pairs of left and right positions a merge's rows come
      from ([inner_pairs], [left_pairs], [right_pairs], and for [outer]
      the left merge's pairs with the unmatched right positions, stably
      sorted by the join key, [outer_pairs]), and the cells each column
      of the merged frame reads at them ([merged_column]).
    - [Strip]: the backend's operator implementations ([PandasFn]) and the
      registered [str.strip] ([_str_strip]): pandas' [.str] accessor
      validation ([pd_infer_dtype], [str_accessor_ok]) and Python's
      [str.strip()] on code points 0-255.
    - [Table]: [uuid_to_str] and what the storage keys need of it
      ([uuid_str_sound]), the [PandasTableImpl] record (its fields are the
      attributes the code reads and writes), [__init__], [collect] and
      [alias], with the round trip of [__init__] and [collect] (lemmas on
      Python dict construction and on renaming and selecting columns) and
      the identities [__init__] draws from the counter.
    - [PandasTable]: the pandas [ExpressionTranslator] and
      [JoinTranslator], the verbs [mutate], [join], [filter], [arrange],
      each a [stres] program over the table, their theorems, and the
      invariants of the tables they build (every storage key ends in
      ['_' + uuid_to_str] of its identity; every frame is well formed).
    - [Contract]: the table contract of the spec (section 4.4) as an
      abstract table, a map from each column identity to its cells, with
      the contract's [filter], [arrange], [mutate] and inner, left,
      right and outer [join] on it, and the abstraction [abs] of a pandas table
      ([df[df_name_mapping[u]]] for each [u]).
    - [Verbs]: the table layer's verbs, modelled from the spec: a
      [session] is the current table with the identity counter;
      [verb_mutate] draws one identity per name ([fresh_bindings]), binds
      the names ([bind_name]) and runs the backend's [mutate];
      [verb_select], [verb_rename] and [verb_alias] change the names or
      start a new table; the backend verbs run on the session through
      [on_table].  [session_step] is what a program may do next with
      the table, and [session_wf] the invariant of the sessions it
      reaches.
    - [Program]: a program of several named tables sharing the counter:
      [create_table] ([x = PandasTableImpl(name, df)]), [on_named] (a
      verb of [Verbs] on the table of [x]) and [join_named] ([x.join(y,
      ...)]); [prog_step] is what the program may do next.

    ** Theorems
    - Translator (C1-C4, C24): [bottom_up_replace] equals the
      post-order stack machine in every lawful monad; an instrumented
      callback sees each node once, in post-order; [translate] wraps the
      callback's exception in one [ValueError] naming the whole
      expression; a delegating translator's dtypes are the statically
      inferred ones; progress: every expression that type-checks against
      the registry ([typable]) translates when the hooks do not raise (a
      lemma there shows that the base class's [_translate] makes every
      translation fail).
    - PandasTable (C5, C13, C15, C27-C34): the pandas translator's dtypes,
      and the dtypes [mutate] records; the key [mutate] generates
      determines its identity and display name, for a sound
      [uuid_to_str]; [filter], [arrange] and [join] on every branch,
      errors included; the join translator's accepted language; the
      partial update [mutate] makes before a translation fails; the
      dropped function kind.  Lemmas there: every frame a table holds
      stays well formed, and the storage-key invariant holds in every
      table the verbs build (by induction on [reachable]).
    - Contract (C6-C12): refinement.  [mutate], [filter], [arrange] and
      the [join]s of every [how] implement the contract's operations
      through [abs]: after [mutate] each named identity holds the cells
      of its translated expression and every other identity keeps its
      cells (for a sound [uuid_to_str]); after [filter] every identity's
      cells are masked by the translated condition; after [arrange] every
      identity's cells are permuted alike by the stable sort of the row
      positions; after a [join] of tables with disjoint identities each
      identity's cells follow the pairs of row positions whose key cells
      agree (for a left join, an unmatched left row is kept with the
      right table's identities missing, for a right join the reverse,
      and an outer join takes both kinds of unmatched rows, sorted by the
      key); a raise of [filter] or [arrange] leaves the abstract table
      unchanged.
    - Table (C14): [alias] keeps a table's data and display names:
      [collect] after [__init__] gives back a well-formed frame.
    - Program (C16): every table of every program reached by creating
      tables, running verbs and joining tables in any order keeps every
      storage key ending in its identity's string, the frame well formed
      and every identity below the program's counter, hence injective
      storage keys for a sound [uuid_to_str] (an invariant by induction
      on [rtc prog_step], each step reduced to a step of [session_step]).
    - Verbs (C17-C21): the same invariant for one table's session (a
      lemma there); [mutate] binds each name to a fresh identity holding
      data and leaves every older identity's data alone; two mutates of
      one name give two identities under two storage keys, the first
      keeping its data (spec, section 8); [rename] keeps identities;
      [alias] does not (a divergence from the spec); a table created from
      the session's counter owns none of the session table's identities,
      so joining it overwrites no storage key, and the session goes on
      with the invariant.
    - Strip (C22-C23): once registered, [str.strip] resolves on [object]
      to an implementation that honours the signature [object -> object]
      on every series the [.str] accessor accepts and raises
      [AttributeError] on the others; every string it returns is the
      argument's string with exactly its surrounding whitespace removed.
    - Registry (C25-C26): how [shift] of window.py resolves, for every
      argument dtype (a lemma there does the same for [row_number]).  The
      general laws of the registry are lemmas there: resolution succeeds
      exactly when one implementation matches and its errors name the
      failure; unification is sound and most general; registration keeps
      the registry well formed, makes its signature resolvable and leaves
      other resolutions alone.
    - Merge and Frame hold the pandas model's lemmas: the rows of every
      [how] by row positions, well-formedness of every operation, the
      stable sort.
    Each theorem with hypotheses has a witness that applies it at a
    concrete input.

    ** The storage-key hypothesis
    [uuid_to_str] lives in eager_table.py, outside the sources, and the
    spec gives no format for it, only that storage keys never collide.
    The keys the code builds are [f'..._' + uuid_to_str(u)]; they are
    collision-free when [uuid_to_str] is injective on 128-bit identities
    and writes no ['_'] ([uuid_str_sound]).  The theorems that conclude
    distinct keys (C6, C15-C18) take [uuid_str_sound] as a hypothesis,
    so they hold for any [uuid_to_str] with those properties; the
    development's [uuid_to_str] (32 hexadecimal digits) is a stand-in
    that has them ([uuid_to_str_sound]) and is what the witnesses run.

    ** Bounds
    Identities are [N] below [2 ^ 128] ([uuid.UUID]).  Fresh identities
    come from a counter that [reachable] requires to stay below [2 ^ 128]
    ([reachable], and [session_step], where [mutate] of [k] names needs
    [next + k <= 2 ^ 128]); [__init__] of a frame of [n] columns takes
    exactly the values [next] .. [next + n - 1] and returns [next + n]
    (a lemma of Table).  No definition uses fuel: every recursion is
    structural (on the expression tree, through [expr_ind'] for its
    nested lists, or on lists), so every function is total and a
    termination theorem would restate that the definitions are accepted;
    what is proved instead is progress (C24): translation of a
    well-typed expression returns a value.

    ** Not modelled
    - of the table layer (modelled from the spec in [Verbs]): the
      [col_expr] bookkeeping of new columns, and the lazy tables;
    - the format of [uuid_to_str] (see above);
    - the pandas index: a series assigned to a frame is aligned on the
      first positions (a shorter one filled with missing values), which
      agrees with pandas for series derived from the table's own frame;
    - floating-point cells: a column made nullable by a merge or an
      alignment gets the dtype [float64] but keeps its integer cells;
    - column-name suffixing in [merge]: overlapping names raise;
    - resolution of [LambdaColumn]s to columns (it happens in the table
      layer, outside the sources, before translation);
    - the SQL and other backends, which are not among the sources.

    ** Plan
    Next: the table layer's [col_expr]
    bookkeeping, which the backend's [join] reads to orient its
    condition. *)

From Stdlib Require Import FunctionalExtensionality.
From stdpp Require Export base list gmap strings.
From Stdlib Require Export Ascii ZArith.
From Stdlib Require String.

(** ** Python exceptions

    Every fallible operation of the modelled code raises a Python exception.
    An exception is its class, its message and the exception it was raised
    [from] ([__cause__]).  The classes are those the sources raise, plus the
    registry's resolution errors, which live outside [src/]. *)

Inductive exc_kind :=
  | Exception            (* raise Exception(...) / bare raise Exception *)
  | ValueError
  | KeyError             (* dict or DataFrame lookup of a missing key *)
  | IndexError
  | IndexingError        (* pandas.errors.IndexingError *)
  | TypeError
  | AssertionError       (* a failing assert statement *)
  | AttributeError
  | NotImplementedError
  | MergeError           (* pandas.errors.MergeError *)
  | UnresolvedOperator   (* registry: unknown operator name *)
  | NoMatchingSignature  (* registry: no signature matches *)
  | AmbiguousSignature   (* registry: several signatures match *)
  | DuplicateSignature   (* registry: the same signature registered twice *)
  | NameError.           (* a program variable that names no table *)

#[local] Unset Elimination Schemes.
Inductive exc := PyExc (kind : exc_kind) (msg : string) (cause : option exc).

#[local] Set Elimination Schemes.

Definition exc_class (e : exc) : exc_kind := let 'PyExc k _ _ := e in k.
Definition exc_msg (e : exc) : string := let 'PyExc _ m _ := e in m.
Definition exc_cause (e : exc) : option exc := let 'PyExc _ _ c := e in c.

#[export] Instance exc_kind_eq_dec : EqDecision exc_kind.
Proof. solve_decision. Defined.

(** ** The result monad: a Python call either returns or raises *)

Inductive result (A : Type) := Ok (a : A) | Err (e : exc).
Arguments Ok {A} a.
Arguments Err {A} e.

#[export] Instance result_ret : MRet result := λ A a, Ok a.
#[export] Instance result_bind : MBind result :=
  λ A B f m, match m with Ok a => f a | Err e => Err e end.
#[export] Instance result_fmap : FMap result :=
  λ A B f m, match m with Ok a => Ok (f a) | Err e => Err e end.

Declare Scope pdt_scope.
Delimit Scope pdt_scope with pdt.
Open Scope pdt_scope.

(** [raise! k msg] is [raise k(msg)]. *)
Notation "'raise!' k msg" := (Err (PyExc k msg None))
  (at level 10, k at next level, msg at next level) : pdt_scope.

(** The value of a successful result. *)
Definition result_to_option {A} (r : result A) : option A :=
  match r with Ok a => Some a | Err _ => None end.

Definition is_ok {A} (r : result A) : bool := if r is Ok _ then true else false.

(** ** State with exceptions: a method that mutates [self] in place

    A Python method that assigns attributes of [self] and may raise is a
    function from the object's state to its outcome and the state it leaves
    behind: an exception keeps every assignment made before it was raised. *)

Definition stres (S A : Type) := S → result A * S.

#[export] Instance stres_ret S : MRet (stres S) := λ A a s, (Ok a, s).
#[export] Instance stres_bind S : MBind (stres S) :=
  λ A B f m s, match m s with
               | (Ok a, s') => f a s'
               | (Err e, s') => (Err e, s')
               end.

Definition st_get {S} : stres S S := λ s, (Ok s, s).
Definition st_put {S} (s : S) : stres S unit := λ _, (Ok (), s).
Definition st_lift {S A} (r : result A) : stres S A := λ s, (r, s).

(** ** Monad laws, as a class over stdpp's [MRet]/[MBind] *)

Class MonadLaws (M : Type → Type) `{!MRet M, !MBind M} := {
  bind_ret_l {A B} (a : A) (f : A → M B) : mret a ≫= f = f a;
  bind_ret_r {A} (m : M A) : m ≫= mret = m;
  bind_assoc {A B C} (m : M A) (f : A → M B) (g : B → M C) :
    (m ≫= f) ≫= g = m ≫= (λ a, f a ≫= g)
}.

#[export] Instance result_laws : MonadLaws result.
Proof. split; intros; [done | by destruct m | by destruct m]. Qed.

#[export] Instance stres_laws S : MonadLaws (stres S).
Proof.
  split; intros; apply functional_extensionality; intros s;
    unfold mbind, stres_bind, mret, stres_ret; [done | |].
  - by destruct (m s) as [[] ?].
  - by destruct (m s) as [[] ?].
Qed.

(** ** Monads with a support

    [in_supp m a]: [a] is a value [m] can return.  A bind only depends on
    its continuation at the values in the support, which is what lets a
    generic proof use facts about those values (a traversal returns a list
    of the traversed list's length). *)

Class MonadSupport (M : Type → Type) `{!MRet M, !MBind M} := {
  in_supp {A} : M A → A → Prop;
  supp_ret {A} (a b : A) : in_supp (mret a) b → b = a;
  supp_bind {A B} (m : M A) (f : A → M B) b :
    in_supp (m ≫= f) b → ∃ a, in_supp m a ∧ in_supp (f a) b;
  bind_ext_supp {A B} (m : M A) (f g : A → M B) :
    (∀ a, in_supp m a → f a = g a) → m ≫= f = m ≫= g
}.

#[export] Instance result_support : MonadSupport result.
Proof.
  refine {| in_supp A m a := m = Ok a |}.
  - by intros A a b [= ->].
  - intros A B [a|e] f b; simpl; [eauto|done].
  - intros A B [a|e] f g H; simpl; [by apply H|done].
Defined.

#[export] Instance stres_support S : MonadSupport (stres S).
Proof.
  refine {| in_supp A m a := ∃ s s', m s = (Ok a, s') |}.
  - intros A a b (s & s' & [= -> _]). done.
  - intros A B m f b (s & s' & Hs). unfold mbind, stres_bind in Hs.
    destruct (m s) as [[a|e] s1] eqn:Hm; [|done]. exists a. split; eauto.
  - intros A B m f g H. apply functional_extensionality. intros s.
    unfold mbind, stres_bind. destruct (m s) as [[a|e] s1] eqn:Hm; [|done].
    rewrite (H a); eauto.
Defined.

Section monad_generic.
Context {M : Type → Type} `{!MRet M, !MBind M, !MonadLaws M, !MonadSupport M}.

Lemma bind_ext {A B} (m : M A) (f g : A → M B) :
  (∀ a, f a = g a) → m ≫= f = m ≫= g.
Proof. intros H. apply bind_ext_supp. eauto. Qed.

(** A traversal returns, for each element, a value of that element's
    call. *)
Lemma mapM_supp {A B} (f : A → M B) (l : list A) (rs : list B) :
  in_supp (mapM f l) rs → Forall2 (λ a b, in_supp (f a) b) l rs.
Proof.
  revert rs. induction l as [|a l IH]; intros rs Hs; simpl in Hs.
  - apply supp_ret in Hs as ->. constructor.
  - apply supp_bind in Hs as (b & Hb & Hs). apply supp_bind in Hs as (bs & Hbs & Hs).
    apply supp_ret in Hs as ->. constructor; [done|]. by apply IH.
Qed.
End monad_generic.

(** ** Generic lemmas on results *)

Lemma bind_Ok {A B} (m : result A) (f : A → result B) b :
  m ≫= f = Ok b ↔ ∃ a, m = Ok a ∧ f a = Ok b.
Proof. destruct m; simpl; split; naive_solver. Qed.

Lemma bind_Err {A B} (m : result A) (f : A → result B) e :
  m ≫= f = Err e ↔ m = Err e ∨ ∃ a, m = Ok a ∧ f a = Err e.
Proof. destruct m; simpl; split; naive_solver. Qed.

Lemma bind_Ok_l {A B} (a : A) (f : A → result B) : Ok a ≫= f = f a.
Proof. done. Qed.

Lemma bind_Err_l {A B} e (f : A → result B) : Err e ≫= f = Err e.
Proof. done. Qed.

(** [mapM] over results succeeds exactly when every call does. *)
Lemma mapM_result_Ok {A B} (f : A → result B) (l : list A) (l' : list B) :
  mapM f l = Ok l' ↔ Forall2 (λ a b, f a = Ok b) l l'.
Proof.
  revert l'; induction l as [|a l IH]; intros l'; simpl.
  - split; [intros [= <-]; constructor | by inversion 1].
  - split.
    + intros (b & Hb & (bs & Hbs & [= <-])%bind_Ok)%bind_Ok.
      constructor; [done | by apply IH].
    + inversion 1 as [|? b ? bs Hb Hbs]; subst.
      by rewrite Hb; simpl; rewrite (proj2 (IH bs) Hbs).
Qed.

(** A traversal whose every step succeeds succeeds. *)
Lemma mapM_result_total {A B} (f : A → result B) (l : list A) :
  Forall (λ a, ∃ b, f a = Ok b) l → ∃ l', mapM f l = Ok l'.
Proof.
  induction 1 as [|a l [b Hb] _ [l' IH]]; [by exists []|].
  exists (b :: l'). simpl. by rewrite Hb, IH.
Qed.

Lemma mapM_result_length {A B} (f : A → result B) l l' :
  mapM f l = Ok l' → length l' = length l.
Proof. intros ?%mapM_result_Ok. symmetry. by eapply Forall2_length. Qed.

Lemma mapM_result_Err {A B} (f : A → result B) (l : list A) e :
  mapM f l = Err e → ∃ a, a ∈ l ∧ f a = Err e.
Proof.
  induction l as [|a l IH]; simpl; [done|].
  destruct (f a) eqn:Ha; simpl; [|intros [= ->]; exists a; by split; [left|]].
  destruct (mapM f l); simpl; [done|]. intros [= ->].
  destruct IH as (b & ? & ?); [done|]. exists b. split; [by right|done].
Qed.

Create HintDb pdt discriminated.
Create Rewrite HintDb pdt_rw.
#[export] Hint Rewrite @bind_Ok_l @bind_Err_l : pdt_rw.

(** [simpl_res] splits the successful [≫=] steps of a hypothesis. *)
Ltac simpl_res :=
  repeat match goal with
  | H : Ok _ = Ok _ |- _ => injection H as H
  | H : Err _ = Ok _ |- _ => discriminate H
  | H : Ok _ = Err _ |- _ => discriminate H
  | H : _ ≫= _ = Ok _ |- _ =>
      let a := fresh "a" in let Ha := fresh "Ha" in
      apply bind_Ok in H as (a & Ha & H)
  end.

(** ** Strings: a fixed-width suffix determines itself *)

Lemma string_app_nil_l (s : string) : "" +:+ s = s.
Proof. reflexivity. Qed.

Lemma string_app_cons c (s1 s2 : string) :
  String.String c s1 +:+ s2 = String.String c (s1 +:+ s2).
Proof. reflexivity. Qed.

Lemma string_app_length (s1 s2 : string) :
  String.length (s1 +:+ s2) = String.length s1 + String.length s2.
Proof. induction s1; rewrite ?string_app_cons; simpl; auto. Qed.

Lemma string_app_assoc (s1 s2 s3 : string) : s1 +:+ s2 +:+ s3 = (s1 +:+ s2) +:+ s3.
Proof. induction s1 as [|c s1 IH]; [done|]. by rewrite !string_app_cons, IH. Qed.

Lemma string_app_inj_l (p s1 s2 : string) : p +:+ s1 = p +:+ s2 → s1 = s2.
Proof. induction p as [|c p IH]; [done|]. rewrite !string_app_cons. intros [= ?]. auto. Qed.

Lemma string_app_inj_tail (p1 p2 s1 s2 : string) :
  String.length s1 = String.length s2 →
  p1 +:+ s1 = p2 +:+ s2 → s1 = s2 ∧ p1 = p2.
Proof.
  revert p2. induction p1 as [|c p1 IH]; intros [|c' p2] Hlen Heq;
    rewrite ?string_app_nil_l, ?string_app_cons in Heq.
  - done.
  - rewrite Heq in Hlen. simpl in Hlen. rewrite string_app_length in Hlen. lia.
  - rewrite <-Heq in Hlen. simpl in Hlen. rewrite string_app_length in Hlen. lia.
  - injection Heq as -> Heq. destruct (IH p2 Hlen Heq) as [-> ->]. done.
Qed.

Lemma list_ascii_of_string_app (s1 s2 : string) :
  String.list_ascii_of_string (s1 +:+ s2) = String.list_ascii_of_string s1 ++ String.list_ascii_of_string s2.
Proof. induction s1 as [|c s1 IH]; [done|]. rewrite string_app_cons. simpl. by rewrite IH. Qed.

(** Two strings that end in a separator [c] followed by a [c]-free tail
    split there alike. *)
Lemma string_app_sep_tail (p1 p2 s1 s2 : string) (c : ascii) :
  c ∉ String.list_ascii_of_string s1 → c ∉ String.list_ascii_of_string s2 →
  p1 +:+ String c s1 = p2 +:+ String c s2 → p1 = p2 ∧ s1 = s2.
Proof.
  revert p2. induction p1 as [|x p1 IH]; intros [|y p2] H1 H2 Heq;
    rewrite ?string_app_nil_l, ?string_app_cons in Heq.
  - by injection Heq.
  - injection Heq as -> Heq. destruct H1. rewrite Heq, list_ascii_of_string_app.
    apply elem_of_app. right. apply list_elem_of_here.
  - injection Heq as -> Heq. destruct H2. rewrite <-Heq, list_ascii_of_string_app.
    apply elem_of_app. right. apply list_elem_of_here.
  - injection Heq as -> Heq. destruct (IH p2 H1 H2 Heq) as [-> ->]. done.
Qed.

#[export] Hint Resolve string_app_inj_tail : pdt.

(** ** Lists *)

Lemma NoDup_fst_map {A B C} (f : B → C) (l : list (A * B)) :
  NoDup l.*1 → NoDup (prod_map id f <$> l).*1.
Proof.
  intros H. rewrite <-list_fmap_compose.
  by replace (fst ∘ prod_map id f) with (@fst A B) by
      (apply functional_extensionality; by intros []).
Qed.

(** [omap] keeps exactly one element: the list splits around the single
    element [f] maps to [Some]. *)
Lemma omap_nil {A B} (f : A → option B) (l : list A) :
  omap f l = [] ↔ Forall (λ a, f a = None) l.
Proof.
  induction l as [|a l IH]; simpl; [split; auto|].
  rewrite Forall_cons. destruct (f a); split; naive_solver.
Qed.

Lemma omap_singleton {A B} (f : A → option B) (l : list A) (y : B) :
  omap f l = [y] ↔
  ∃ pre x post, l = pre ++ x :: post ∧ Forall (λ a, f a = None) pre ∧
                f x = Some y ∧ Forall (λ a, f a = None) post.
Proof.
  induction l as [|a l IH]; simpl.
  - split; [done|]. intros (pre & x & post & Hl & _). by destruct pre.
  - destruct (f a) as [b|] eqn:Hfa.
    + split.
      * intros [= -> Hrest%omap_nil]. by exists [], a, l.
      * intros ([|p pre] & x & post & [= -> ->] & Hpre & Hx & Hpost).
        -- rewrite Hx in Hfa. injection Hfa as ->. f_equal. by apply omap_nil.
        -- apply Forall_cons in Hpre as [Hp _]. congruence.
    + rewrite IH. split.
      * intros (pre & x & post & -> & ? & ? & ?).
        exists (a :: pre), x, post. split; [done|]. split; [by constructor|]. done.
      * intros ([|p pre] & x & post & [= -> ->] & Hpre & Hx & Hpost); [congruence|].
        apply Forall_cons in Hpre as [_ ?]. by exists pre, x, post.
Qed.

(** ** Results up to exception messages

    Two outcomes are equivalent when they return the same value, or raise
    exceptions of the same class: what a caller that catches by class can
    observe. *)
#[export] Instance result_equiv {A} : Equiv (result A) := λ r1 r2,
  match r1, r2 with
  | Ok a, Ok b => a = b
  | Err e1, Err e2 => exc_class e1 = exc_class e2
  | _, _ => False
  end.

#[export] Instance result_equiv_equivalence {A} : Equivalence (≡@{result A}).
Proof.
  split.
  - intros [a|e]; done.
  - intros [a|e] [b|e']; cbv [equiv result_equiv]; done.
  - intros [a|e] [b|e'] [c|e'']; cbv [equiv result_equiv]; try done; congruence.
Qed.

Lemma result_equiv_Ok {A} (r : result A) a : r ≡ Ok a ↔ r = Ok a.
Proof. destruct r; cbv [equiv result_equiv]; split; try done; congruence. Qed.

#[export] Instance result_bind_proper {A B} :
  Proper (pointwise_relation A (≡) ==> (≡) ==> (≡@{result B})) mbind.
Proof.
  intros f g Hfg [a|e] [b|e'] Hm; cbv [equiv result_equiv] in Hm; simpl; try done.
  subst. apply Hfg.
Qed.

#[export] Instance result_mapM_proper {A B} :
  Proper (pointwise_relation A (≡) ==> eq ==> (≡@{result (list B)})) mapM.
Proof.
  intros f g Hfg l ? <-. induction l as [|a l IH]; simpl; [done|].
  apply result_bind_proper; [|apply Hfg]. intros b.
  apply result_bind_proper; [|done]. by intros bs.
Qed.

Lemma mapM_equiv_Forall {A B} (f g : A → result B) (l : list A) :
  Forall (λ a, f a ≡ g a) l → mapM f l ≡ mapM g l.
Proof.
  induction 1 as [|a l Ha _ IH]; simpl; [done|].
  apply result_bind_proper; [|done]. intros b.
  apply result_bind_proper; [|done]. by intros bs.
Qed.

Lemma Forall_list_filter {A} (P : A → Prop) (f : A → bool) l :
  Forall P l → Forall P (List.filter f l).
Proof. induction 1; simpl; [done|]. case_match; auto. Qed.

(** Folds that keep the last element selected by a predicate. *)
Section foldl_select.
Context {A B : Type} (P : A → Prop) `{!∀ a, Decision (P a)} (g : A → B).

Definition select_step (acc : option B) (a : A) : option B :=
  if decide (P a) then Some (g a) else acc.

Lemma foldl_select_miss acc l : Forall (λ a, ¬ P a) l → foldl select_step acc l = acc.
Proof.
  revert acc. induction l as [|a l IH]; intros acc Hl; [done|]. apply Forall_cons in Hl as [Ha Hl].
  simpl. unfold select_step at 2. rewrite decide_False by done. by apply IH.
Qed.

(** The last element selected is the one after which none is. *)
Lemma foldl_select_last acc pre b post :
  P b → Forall (λ a, ¬ P a) post → foldl select_step acc (pre ++ b :: post) = Some (g b).
Proof.
  intros Hb Hpost. rewrite foldl_app. simpl. rewrite foldl_select_miss by done.
  unfold select_step at 1. by rewrite decide_True.
Qed.

Lemma foldl_select_none acc l : ¬ Exists P l → foldl select_step acc l = acc.
Proof. intros Hl. apply foldl_select_miss. by apply not_Exists_Forall. Qed.

Lemma foldl_select_hit acc1 acc2 l : Exists P l → foldl select_step acc1 l = foldl select_step acc2 l.
Proof.
  revert acc1 acc2. induction l as [|a l IH]; intros acc1 acc2 Hl; [by apply Exists_nil in Hl|].
  simpl. unfold select_step at 2 4. destruct (decide (P a)); [done|].
  apply Exists_cons in Hl as [?|Hl]; [done|]. by apply IH.
Qed.
Lemma foldl_select_Some acc l : Exists P l → is_Some (foldl select_step acc l).
Proof.
  revert acc. induction l as [|a l IH]; intros acc Hl; [by apply Exists_nil in Hl|]. simpl.
  apply Exists_cons in Hl as [Ha|Hl]; [|by apply IH].
  destruct (decide (Exists P l)) as [He|He]; [by apply IH|].
  rewrite foldl_select_miss by (by apply not_Exists_Forall). unfold select_step.
  rewrite decide_True by done. by eexists.
Qed.
End foldl_select.

Lemma Exists_fst_elem {A B} (v : A) (l : list (A * B)) : Exists (λ b, v = b.1) l ↔ v ∈ l.*1.
Proof.
  rewrite Exists_exists, list_elem_of_fmap. split.
  - intros (b & Hb & ->). exists b. split; [done|]. done.
  - intros (b & -> & Hb). exists b. split; [done|done].
Qed.

Lemma foldl_Forall2_ext {A B C} (R : A → B → Prop) (f1 : C → A → C) (f2 : C → B → C) acc l1 l2 :
  Forall2 R l1 l2 → (∀ acc a b, R a b → f1 acc a = f2 acc b) → foldl f1 acc l1 = foldl f2 acc l2.
Proof. intros Hl Hf. revert acc. induction Hl; intros acc; simpl; [done|]. erewrite Hf; eauto. Qed.

(** Inserting along a list: the key keeps the value of its last insertion. *)
Lemma lookup_foldl_insert {K A B} `{Countable K} (step : gmap K A → B → gmap K A)
    (f : B → K) (g : B → A) m l k :
  (∀ m b, step m b = <[f b := g b]> m) →
  foldl step m l !! k = foldl (select_step (λ b, k = f b) g) (m !! k) l.
Proof.
  intros Hstep. revert m. induction l as [|b l IH]; intros m; [done|]. simpl.
  rewrite IH, Hstep. f_equal. unfold select_step. case_decide as Hk.
  - subst k. by rewrite lookup_insert_eq.
  - by rewrite lookup_insert_ne by congruence.
Qed.

Lemma Forall2_in_l {A B} (R : A → B → Prop) l l' a :
  Forall2 R l l' → a ∈ l → ∃ b, R a b.
Proof.
  induction 1 as [|x y l l' Hxy _ IH]; [by intros ?%elem_of_nil|].
  intros [->|Ha]%elem_of_cons; eauto.
Qed.

(** ** Running [stres] computations *)

Lemma st_get_bind {S A} (f : S → stres S A) s : (st_get ≫= f) s = f s s.
Proof. done. Qed.

Lemma st_put_bind {S A} (s' : S) (m : unit → stres S A) s : (st_put s' ≫= m) s = m () s'.
Proof. done. Qed.

Lemma st_lift_bind {S A B} (r : result A) (f : A → stres S B) s :
  (st_lift r ≫= f) s = match r with Ok a => f a s | Err e => (Err e, s) end.
Proof. by destruct r. Qed.

Lemma st_lift_run {S A} (r : result A) (s : S) : st_lift r s = (r, s).
Proof. done. Qed.

Create Rewrite HintDb stres_rw.
#[export] Hint Rewrite @st_get_bind @st_put_bind @st_lift_bind @st_lift_run : stres_rw.

(** [run_st]: step through the [stres] binds of the goal. *)
Ltac run_st := repeat (autorewrite with stres_rw; simpl).

(** [run_st_cases]: step through every branch of a stateful program. *)
Ltac run_st_cases := run_st; repeat (case_match; run_st).
