(* ===== verification/Expr.v ===== *)
(** * The expression model

    Columns, the typed values a translation produces ([TypedValue] of
    [core/expressions/translator.py]), the Python objects that can sit at a
    leaf of an expression tree, function-call trees ([FunctionCall]), the
    operator overloads of [SymbolicExpression] that build them, and the
    [LambdaColumnGetter] of [core/expressions/lambda_getter.py].

    [Column], [FunctionCall] and [SymbolicExpression] are declared in
    [core/column.py] and [core/expressions/expressions.py], which are not part
    of the sources: they are modelled from the spec (section 3). *)

From S2P Require Import Prelude.

(** ** Columns *)

(** A column's identity: a [uuid.UUID], i.e. a 128-bit number. *)
Abbreviation uuid := N.

(** [Column(name, table, dtype)]: the table is a non-owning back-reference,
    modelled by the table's name. *)
Record column := Column {
  col_name : string;
  col_table : string;
  col_dtype : string;
  col_uuid : uuid
}.

#[export] Instance column_eq_dec : EqDecision column.
Proof. solve_decision. Defined.

(** ** Typed values *)

(** The function kind of a translated value: ['s'], ['a'] or ['w']. *)
Inductive ftype := FScalar | FAggregate | FWindow.

#[export] Instance ftype_eq_dec : EqDecision ftype.
Proof. solve_decision. Defined.

(** [@dataclass class TypedValue(Generic[T])] with [ftype: str = 's']. *)
Record TypedValue (T : Type) := mkTypedValue {
  tv_value : T;
  tv_dtype : string;
  tv_ftype : ftype
}.
Arguments mkTypedValue {T} _ _ _.
Arguments tv_value {T} _.
Arguments tv_dtype {T} _.
Arguments tv_ftype {T} _.

(** The constructor call [TypedValue(value, dtype)], with the default
    [ftype = 's']. *)
Definition TypedValue2 {T} (v : T) (dtype : string) : TypedValue T :=
  mkTypedValue v dtype FScalar.

(** [TypedValue.__iter__]: [value, dtype = tv] unpacks two fields. *)
Definition TypedValue_iter {T} (tv : TypedValue T) : T * string :=
  (tv_value tv, tv_dtype tv).

(** ** Leaves of an expression tree

    A leaf is any Python object that is not a [FunctionCall]: a bound
    [Column], an unbound [LambdaColumn], an [int], a [bool] (a subclass of
    [int] in Python), a [str], an already translated [TypedValue] over
    backend values [V], or an object of another type (a [float], [None],
    ...), recorded by its type name. *)
Inductive obj (V : Type) :=
  | OColumn (c : column)
  | OLambda (name : string)
  | OInt (z : Z)
  | OBool (b : bool)
  | OStr (s : string)
  | OTyped (tv : TypedValue V)
  | OOther (type_name : string).
Arguments OColumn {V} c.
Arguments OLambda {V} name.
Arguments OInt {V} z.
Arguments OBool {V} b.
Arguments OStr {V} s.
Arguments OTyped {V} tv.
Arguments OOther {V} type_name.

(** ** Function-call trees

    [FunctionCall(operator, *args, **kwargs)]: an operator name, the
    positional arguments in order and the named arguments in the insertion
    order of the [kwargs] dict. *)
Inductive expr (L : Type) :=
  | Leaf (l : L)
  | FunctionCall (operator : string) (args : list (expr L))
                 (kwargs : list (string * expr L)).
Arguments Leaf {L} l.
Arguments FunctionCall {L} operator args kwargs.

(** Induction over the nested tree: a property holds of a call when it
    holds of every positional and named argument. *)
Section expr_ind.
Context {L : Type} (P : expr L → Prop).
Hypothesis Hleaf : ∀ l, P (Leaf l).
Hypothesis Hcall : ∀ op args kwargs,
  Forall P args → Forall (λ kv, P kv.2) kwargs → P (FunctionCall op args kwargs).

Fixpoint expr_ind' (e : expr L) : P e :=
  match e with
  | Leaf l => Hleaf l
  | FunctionCall op args kwargs =>
      Hcall op args kwargs
        ((fix go (l : list (expr L)) : Forall P l :=
            match l with
            | [] => Forall_nil_2 P
            | a :: l' => Forall_cons_2 P a l' (expr_ind' a) (go l')
            end) args)
        ((fix go2 (l : list (string * expr L)) : Forall (λ kv, P kv.2) l :=
            match l with
            | [] => Forall_nil_2 _
            | (k, a) :: l' => Forall_cons_2 (λ kv, P kv.2) (k, a) l' (expr_ind' a) (go2 l')
            end) kwargs)
  end.
End expr_ind.

(** ** Symbolic expressions and their operator overloads *)

(** [SymbolicExpression] wraps an expression; [_] is the wrapped value. *)
Record SymbolicExpression (L : Type) := SymExpr { sym_ : expr L }.
Arguments SymExpr {L} _.
Arguments sym_ {L} _.

(** [SymbolicExpression.__getattr__]/[__eq__]/[__and__]/...: a binary
    overload builds [FunctionCall(name, self._, other._)]; a non-symbolic
    operand ([1], ["a"]) is the leaf itself. *)
Definition sym_binop {L} (name : string) (a b : SymbolicExpression L)
    : SymbolicExpression L :=
  SymExpr (FunctionCall name [sym_ a; sym_ b] []).

Definition sym_eq {L} := @sym_binop L "__eq__".
Definition sym_and {L} := @sym_binop L "__and__".
Definition sym_add {L} := @sym_binop L "__add__".

(** A literal operand, as Python lifts it into an expression. *)
Definition sym_lit {V} (o : obj V) : SymbolicExpression (obj V) := SymExpr (Leaf o).
Definition sym_col {V} (c : column) : SymbolicExpression (obj V) := SymExpr (Leaf (OColumn c)).

(** ** [LambdaColumnGetter] ([lambda_getter.py]) *)

(** The class has no state: an instance only answers attribute and item
    access. *)
Record LambdaColumnGetter := mkLambdaColumnGetter {}.

(** [λ.name] and [λ['name']] both wrap [LambdaColumn(name)]. *)
Definition LambdaColumnGetter_getattr {V} (self : LambdaColumnGetter) (item : string)
    : SymbolicExpression (obj V) := SymExpr (Leaf (OLambda item)).
Definition LambdaColumnGetter_getitem {V} (self : LambdaColumnGetter) (item : string)
    : SymbolicExpression (obj V) := SymExpr (Leaf (OLambda item)).

(** The module's global instance [λ = LambdaColumnGetter()]. *)
Definition lambda_getter : LambdaColumnGetter := mkLambdaColumnGetter.

(** ** Printing an expression (the [f"{expr}"] of error messages) *)

Section repr.
Context {L : Type} (leaf_repr : L → string).

Fixpoint expr_repr (e : expr L) : string :=
  match e with
  | Leaf l => leaf_repr l
  | FunctionCall op args kwargs =>
      let fix args_repr (l : list (expr L)) : string :=
        match l with
        | [] => ""
        | [a] => expr_repr a
        | a :: l' => expr_repr a +:+ ", " +:+ args_repr l'
        end in
      let fix kwargs_repr (l : list (string * expr L)) : string :=
        match l with
        | [] => ""
        | (k, a) :: l' => ", " +:+ k +:+ "=" +:+ expr_repr a +:+ kwargs_repr l'
        end in
      op +:+ "(" +:+ args_repr args +:+ kwargs_repr kwargs +:+ ")"
  end.
End repr.

Definition obj_repr {V} (o : obj V) : string :=
  match o with
  | OColumn c => col_table c +:+ "." +:+ col_name c
  | OLambda n => "λ." +:+ n
  | OInt _ => "<int>"
  | OBool true => "True"
  | OBool false => "False"
  | OStr s => "'" +:+ s +:+ "'"
  | OTyped _ => "<TypedValue>"
  | OOther ty => "<" +:+ ty +:+ ">"
  end.

(** [expr_all pl pc e]: every leaf of [e] satisfies [pl] and every
    operator of a call in [e] satisfies [pc]. *)
Fixpoint expr_all {L} (pl : L → bool) (pc : string → bool) (e : expr L) : bool :=
  match e with
  | Leaf l => pl l
  | FunctionCall op args kwargs =>
      pc op && forallb (expr_all pl pc) args && forallb (λ '(_, v), expr_all pl pc v) kwargs
  end.
