(* ===== verification/Registry.v ===== *)
(** * The operator registry

    Operator declarations ([core/ops/window.py]: [Shift], [RowNumber]), type
    signatures with template parameters, the registry that maps an operator
    name to its implementations, registration, and resolution of an
    implementation from the argument dtypes ([get_implementation]).

    [core/expressions/operator_registry.py] is not part of the sources: the
    registry is modelled from the spec (sections 3, 4.2 and 9).  Resolution
    unifies a template parameter ([T]) with the dtype at its first
    occurrence and requires every later occurrence to agree; a variadic
    last parameter stands for one or more arguments; exactly one
    registered signature must match, otherwise resolution fails. *)

From S2P Require Import Prelude Expr.

(** ** Signatures *)

(** A dtype in a signature: a concrete dtype ([int], [str], ...) or a
    template parameter ([T]). *)
Inductive dtype_tok := DType (name : string) | DTemplate (name : string).

#[export] Instance dtype_tok_eq_dec : EqDecision dtype_tok.
Proof. solve_decision. Defined.

(** A signature: the argument dtypes, whether the last one is variadic
    (it stands for every remaining argument, at least one), and the result
    dtype. *)
Record Signature := mkSignature { sig_args : list dtype_tok; sig_variadic : bool; sig_rtype : dtype_tok }.

#[export] Instance Signature_eq_dec : EqDecision Signature.
Proof. solve_decision. Defined.

(** ** Operator declarations ([core/ops]) *)

(** [class Op: name; signatures]; the base class ([Window], [Aggregate],
    [ElementWise]) fixes the function kind of its results. *)
Record Operator := mkOperator {
  op_name : string;
  op_ftype : ftype;
  op_signatures : list string
}.

(** [class Shift(Window)] *)
Definition Shift : Operator := {|
  op_name := "shift";
  op_ftype := FWindow;
  op_signatures := ["T, int -> T"; "T, int, T -> T"]
|}.

(** [class RowNumber(Window, Nullary)] *)
Definition RowNumber : Operator := {|
  op_name := "row_number";
  op_ftype := FWindow;
  op_signatures := ["-> int"]
|}.

(** ** Signature strings

    A signature is written ["T, int -> T"]: comma-separated argument
    dtypes, an arrow and the result dtype; a dtype written in upper case
    only is a template parameter, and a last argument dtype followed by
    [...] is variadic (["str... -> str"]).  The parser is modelled from the spec
    ([OperatorSignature.parse] is not part of the sources). *)

Definition is_upper (c : ascii) : bool :=
  let n := Ascii.nat_of_ascii c in (65 <=? n)%nat && (n <=? 90)%nat.

Definition is_space (c : ascii) : bool := bool_decide (c = " "%char).

Fixpoint lstrip (s : list ascii) : list ascii :=
  match s with
  | c :: s' => if is_space c then lstrip s' else s
  | [] => []
  end.

(** [str.strip()] on the spaces of a signature. *)
Definition strip (s : list ascii) : list ascii := reverse (lstrip (reverse (lstrip s))).

(** [s.split(sep)] *)
Fixpoint split_on (sep : ascii) (s : list ascii) : list (list ascii) :=
  match s with
  | [] => [[]]
  | c :: s' =>
      if bool_decide (c = sep) then [] :: split_on sep s'
      else match split_on sep s' with
           | w :: ws => (c :: w) :: ws
           | [] => [[c]]
           end
  end.

(** [s.split('->', 1)] *)
Fixpoint split_arrow (s : list ascii) : option (list ascii * list ascii) :=
  match s with
  | "-"%char :: ">"%char :: rest => Some ([], rest)
  | c :: rest => prod_map (cons c) id <$> split_arrow rest
  | [] => None
  end.

Definition parse_tok (t : list ascii) : option dtype_tok :=
  match t with
  | [] => None
  | _ => Some (if forallb is_upper t then DTemplate (String.string_of_list_ascii t)
               else DType (String.string_of_list_ascii t))
  end.

(** A trailing [...] marks the last argument variadic. *)
Definition strip_dots (t : list ascii) : option (list ascii) :=
  match reverse t with
  | "."%char :: "."%char :: "."%char :: r => Some (strip (reverse r))
  | _ => None
  end.

Definition split_variadic (toks : list (list ascii)) : list (list ascii) * bool :=
  match reverse toks with
  | t :: rest =>
      match strip_dots t with
      | Some t' => (reverse (t' :: rest), true)
      | None => (toks, false)
      end
  | [] => (toks, false)
  end.

Definition parse_signature (s : string) : option Signature :=
  '(lhs, rhs) ← split_arrow (String.list_ascii_of_string s);
  let toks := match strip lhs with
              | [] => []
              | _ => strip <$> split_on ","%char lhs
              end in
  let '(toks', variadic) := split_variadic toks in
  args ← mapM parse_tok toks';
  r ← parse_tok (strip rhs);
  Some (mkSignature args variadic r).

(** ** Template unification *)

(** A substitution binds template names to concrete dtypes. *)
Abbreviation subst := (gmap string string).

Definition inst_tok (σ : subst) (t : dtype_tok) : option string :=
  match t with
  | DType d => Some d
  | DTemplate x => σ !! x
  end.

(** Positional matching: a concrete dtype must be equal; a template binds
    at its first occurrence and must agree at every later one. *)
Fixpoint match_args (params : list dtype_tok) (args : list string) (σ : subst)
    : option subst :=
  match params, args with
  | [], [] => Some σ
  | DType d :: ps, a :: as_ => if decide (d = a) then match_args ps as_ σ else None
  | DTemplate x :: ps, a :: as_ =>
      match σ !! x with
      | Some b => if decide (b = a) then match_args ps as_ σ else None
      | None => match_args ps as_ (<[x:=a]> σ)
      end
  | _, _ => None
  end.

(** The parameters a signature has for [n] arguments: a variadic last
    parameter is repeated for every argument past the others. *)
Definition params_for (sig : Signature) (n : nat) : list dtype_tok :=
  match sig_variadic sig, last (sig_args sig) with
  | true, Some t => sig_args sig ++ replicate (n - length (sig_args sig)) t
  | _, _ => sig_args sig
  end.

(** The result dtype of a signature at the argument dtypes, if it matches. *)
Definition match_signature (sig : Signature) (args : list string) : option string :=
  σ ← match_args (params_for sig (length args)) args ∅; inst_tok σ (sig_rtype sig).

(** ** The registry *)

Section registry.
Context {F : Type}.

(** One registered implementation: the Python function and what the
    registration declared about it. *)
Record OperatorImpl := mkOperatorImpl {
  impl_name : string;
  impl_sig : Signature;
  impl_fn : F;
  impl_ftype : ftype
}.

(** [TypedOperatorImpl]: the chosen implementation with the result dtype
    its signature gives at the argument dtypes ([implementation.rtype]). *)
Record TypedOperatorImpl := mkTypedOperatorImpl {
  timpl : OperatorImpl;
  rtype : string
}.

End registry.
Arguments OperatorImpl : clear implicits.
Arguments TypedOperatorImpl : clear implicits.

(** The registry: operator name to its implementations, in registration
    order. *)
Abbreviation OperatorRegistry F := (gmap string (list (OperatorImpl F))).

Section registry_ops.
Context {F : Type}.
Implicit Types (reg : OperatorRegistry F) (impls : list (OperatorImpl F)).

(** [register(name, signature, fn, kind)]: appends an implementation;
    the same signature twice under one name is a configuration error. *)
Definition register (reg : OperatorRegistry F) (name : string) (sig : Signature)
    (f : F) (k : ftype) : result (OperatorRegistry F) :=
  let impls := default [] (reg !! name) in
  if decide (sig ∈ impl_sig <$> impls)
  then raise! DuplicateSignature ("Duplicate signature for operator " +:+ name)
  else Ok (<[name := (impls ++ [mkOperatorImpl name sig f k])]> reg).

(** The implementations whose signature matches, each with its result
    dtype, in registration order. *)
Definition matching_impls (impls : list (OperatorImpl F)) (args : list string)
    : list (TypedOperatorImpl F) :=
  omap (λ i, mkTypedOperatorImpl i <$> match_signature (impl_sig i) args) impls.

(** [get_implementation(name, signature)]. *)
Definition get_implementation (reg : OperatorRegistry F) (name : string)
    (args : list string) : result (TypedOperatorImpl F) :=
  match reg !! name with
  | None => raise! UnresolvedOperator ("No implementation for operator " +:+ name)
  | Some impls =>
      match matching_impls impls args with
      | [] => raise! NoMatchingSignature ("No matching signature for operator " +:+ name)
      | [ti] => Ok ti
      | _ :: _ :: _ => raise! AmbiguousSignature ("Ambiguous signature for operator " +:+ name)
      end
  end.
End registry_ops.

(** ** Unification is sound and most general *)

Lemma match_args_sound ps args σ σ' :
  match_args ps args σ = Some σ' →
  σ ⊆ σ' ∧ mapM (inst_tok σ') ps = Some args.
Proof.
  revert args σ. induction ps as [|[d|x] ps IH]; intros [|a args] σ H;
    simpl in H; try discriminate.
  - by injection H as <-.
  - case_decide; [subst|done]. destruct (IH _ _ H) as [? Hm].
    split; [done|]. simpl. by rewrite Hm.
  - destruct (σ !! x) as [b|] eqn:Hx.
    + case_decide; [subst|done]. destruct (IH _ _ H) as [Hsub Hm].
      split; [done|]. simpl. by rewrite (lookup_weaken σ σ' x a), Hm.
    + destruct (IH _ _ H) as [Hsub Hm].
      assert (Hx' : σ' !! x = Some a) by
        (eapply lookup_weaken; [apply lookup_insert_eq|done]).
      split; [by etrans; [apply insert_subseteq|]|]. simpl. by rewrite Hx', Hm.
Qed.

Lemma match_args_complete ps args σ τ :
  σ ⊆ τ → mapM (inst_tok τ) ps = Some args →
  ∃ σ', match_args ps args σ = Some σ' ∧ σ' ⊆ τ.
Proof.
  revert args σ. induction ps as [|[d|x] ps IH]; intros args σ Hsub Hm; simpl in Hm.
  - injection Hm as <-. eauto.
  - destruct (mapM _ ps) as [as_|] eqn:Hps; simpl in Hm; [|done].
    injection Hm as <-. simpl. rewrite decide_True by done. eauto.
  - destruct (τ !! x) as [a|] eqn:Hx; [|done]. simpl in Hm.
    destruct (mapM _ ps) as [as_|] eqn:Hps; simpl in Hm; [|done].
    injection Hm as <-. simpl. destruct (σ !! x) as [b|] eqn:Hσx.
    + rewrite (lookup_weaken σ τ x b) in Hx by done. injection Hx as ->.
      rewrite decide_True by done. eauto.
    + apply IH; [by apply insert_subseteq_l|done].
Qed.

(** A result template is bound when it is concrete or occurs among the
    argument templates. *)
Definition rtype_bound (sig : Signature) : Prop :=
  match sig_rtype sig with
  | DType _ => True
  | DTemplate x => DTemplate x ∈ sig_args sig
  end.

Lemma params_for_elem sig n t : t ∈ sig_args sig → t ∈ params_for sig n.
Proof.
  unfold params_for. destruct (sig_variadic sig), (last (sig_args sig)); try done.
  intros Ht. by apply elem_of_app; left.
Qed.

Lemma mapM_inst_tok_bound σ ps args x :
  mapM (inst_tok σ) ps = Some args → DTemplate x ∈ ps → is_Some (σ !! x).
Proof.
  revert args. induction ps as [|t ps IH]; intros args Hm Hin; [by apply elem_of_nil in Hin|].
  simpl in Hm. destruct (inst_tok σ t) as [v|] eqn:Ht; [|done]. simpl in Hm.
  destruct (mapM _ ps) eqn:Hps; [|done].
  apply elem_of_cons in Hin as [<-|Hin]; [simpl in Ht; by exists v|eauto].
Qed.

(** a successful match is explained by an instantiation of the
    templates that maps the signature's argument dtypes to the given ones
    and its result dtype to the returned one. *)
Theorem match_signature_sound sig args r :
  match_signature sig args = Some r →
  ∃ τ, mapM (inst_tok τ) (params_for sig (length args)) = Some args ∧ inst_tok τ (sig_rtype sig) = Some r.
Proof.
  unfold match_signature. intros (σ & Hm & Hr)%bind_Some.
  apply match_args_sound in Hm as [_ Hm]. eauto.
Qed.

(** unification is most general: whenever some instantiation of the
    templates maps the signature's arguments to the given dtypes, the match
    succeeds and gives that instantiation's result dtype (for a signature
    whose result template occurs among its arguments). *)
Theorem match_signature_complete sig args τ :
  rtype_bound sig → mapM (inst_tok τ) (params_for sig (length args)) = Some args →
  match_signature sig args = inst_tok τ (sig_rtype sig).
Proof.
  intros Hb Hm.
  destruct (match_args_complete _ _ ∅ τ (map_empty_subseteq τ) Hm) as (σ & Hσ & Hsub).
  unfold match_signature. rewrite Hσ. simpl.
  destruct (match_args_sound _ _ _ _ Hσ) as [_ Hmσ].
  unfold rtype_bound in Hb. destruct (sig_rtype sig) as [d|x]; simpl; [done|].
  destruct (mapM_inst_tok_bound _ _ _ _ Hmσ (params_for_elem _ _ _ Hb)) as [v Hv]. rewrite Hv.
  symmetry. by eapply lookup_weaken.
Qed.

(** ** Arity *)

Lemma match_args_length ps args σ σ' : match_args ps args σ = Some σ' → length ps = length args.
Proof.
  revert args σ. induction ps as [|[d|x] ps IH]; intros [|a args] σ H; simpl in H; try done.
  - case_decide; [|done]. simpl. by erewrite IH.
  - destruct (σ !! x); [case_decide; [|done]|]; simpl; by erewrite IH.
Qed.

(** A signature matches only argument lists of its arity: exactly as many
    arguments as parameters, or, for a variadic signature, at least as
    many. *)
Lemma match_signature_arity sig args r :
  match_signature sig args = Some r →
  if sig_variadic sig && bool_decide (sig_args sig ≠ [])
  then length (sig_args sig) ≤ length args
  else length (sig_args sig) = length args.
Proof.
  unfold match_signature. intros (σ & Hm%match_args_length & _)%bind_Some. revert Hm.
  unfold params_for. destruct (sig_variadic sig); simpl; [|done].
  destruct (last (sig_args sig)) eqn:Hl.
  - rewrite bool_decide_true by (intros Hn; by rewrite Hn in Hl).
    rewrite length_app, length_replicate. lia.
  - apply last_None in Hl. rewrite Hl, bool_decide_false by naive_solver. done.
Qed.

Section registry_props.
Context {F : Type}.
Implicit Types (reg : OperatorRegistry F) (impls : list (OperatorImpl F)).

Definition no_match (args : list string) (i : OperatorImpl F) : Prop :=
  match_signature (impl_sig i) args = None.

Lemma matching_impls_singleton impls args ti :
  matching_impls impls args = [ti] ↔
  ∃ pre post, impls = pre ++ timpl ti :: post ∧
    match_signature (impl_sig (timpl ti)) args = Some (rtype ti) ∧
    Forall (no_match args) (pre ++ post).
Proof.
  unfold matching_impls. rewrite omap_singleton. setoid_rewrite Forall_app. split.
  - intros (pre & x & post & -> & Hpre & Hx & Hpost).
    apply fmap_Some in Hx as (r & Hr & ->). simpl.
    exists pre, post. split; [done|]. split; [done|].
    split; eapply Forall_impl; eauto; intros i ?%fmap_None; done.
  - intros (pre & post & -> & Hm & Hpre & Hpost). exists pre, (timpl ti), post.
    split; [done|]. split; [|split].
    + eapply Forall_impl; [done|]. intros i Hi. unfold no_match in Hi. by rewrite Hi.
    + rewrite Hm. by destruct ti.
    + eapply Forall_impl; [done|]. intros i Hi. unfold no_match in Hi. by rewrite Hi.
Qed.

(** resolution succeeds exactly when the operator is registered and
    exactly one of its implementations matches the argument dtypes; the
    result is that implementation with its signature's result dtype. *)
Theorem get_implementation_Ok reg name args ti :
  get_implementation reg name args = Ok ti ↔
  ∃ impls pre post, reg !! name = Some impls ∧ impls = pre ++ timpl ti :: post ∧
    match_signature (impl_sig (timpl ti)) args = Some (rtype ti) ∧
    Forall (no_match args) (pre ++ post).
Proof.
  unfold get_implementation. destruct (reg !! name) as [impls|]; split.
  - destruct (matching_impls impls args) as [|x [|y l]] eqn:Hm; try discriminate.
    intros [= ->]. apply matching_impls_singleton in Hm. naive_solver.
  - intros (? & pre & post & [= <-] & Hl & Hrest).
    rewrite (proj2 (matching_impls_singleton impls args ti)); [done|]. eauto.
  - done.
  - naive_solver.
Qed.

(** resolution fails with [UnresolvedOperator] for an unknown name,
    with [NoMatchingSignature] when no implementation matches and with
    [AmbiguousSignature] when several do. *)
Theorem get_implementation_Err reg name args e :
  get_implementation reg name args = Err e →
  (reg !! name = None ∧ exc_class e = UnresolvedOperator) ∨
  (∃ impls, reg !! name = Some impls ∧
     ((Forall (no_match args) impls ∧ exc_class e = NoMatchingSignature) ∨
      (2 ≤ length (matching_impls impls args) ∧ exc_class e = AmbiguousSignature))).
Proof.
  unfold get_implementation. destruct (reg !! name) as [impls|]; [|intros [= <-]; by left].
  destruct (matching_impls impls args) as [|x [|y l]] eqn:Hm; intros [= <-]; right;
    exists impls; split; try done.
  - left. split; [|done]. unfold matching_impls in Hm. apply omap_nil in Hm.
    eapply Forall_impl; [done|]. by intros i ?%fmap_None.
  - right. rewrite Hm. simpl. split; [lia|done].
Qed.

(** A resolution that succeeded found exactly one match. *)
Lemma get_implementation_Ok_inv reg name args ti :
  get_implementation reg name args = Ok ti →
  ∃ impls, reg !! name = Some impls ∧ matching_impls impls args = [ti].
Proof.
  unfold get_implementation. destruct (reg !! name) as [impls|]; [|done].
  destruct (matching_impls impls args) as [|x [|y l]] eqn:Hm; intros [=]; subst; eauto.
Qed.

Lemma get_implementation_unique reg name args impls ti :
  reg !! name = Some impls → matching_impls impls args = [ti] →
  get_implementation reg name args = Ok ti.
Proof. unfold get_implementation. by intros -> ->. Qed.

Lemma matching_impls_app impls impls' args :
  matching_impls (impls ++ impls') args = matching_impls impls args ++ matching_impls impls' args.
Proof. unfold matching_impls. by rewrite omap_app. Qed.
End registry_props.

(** ** Registration *)

Section register_props.
Context {F : Type}.
Implicit Types (reg : OperatorRegistry F).

(** The registry invariant: under each name, signatures are pairwise
    distinct and every implementation carries that name. *)
Definition registry_wf reg : Prop :=
  map_Forall (λ name impls,
    NoDup (impl_sig <$> impls) ∧ Forall (λ i, impl_name i = name) impls) reg.

Lemma register_Ok reg name sig f k reg' :
  register reg name sig f k = Ok reg' →
  (sig ∉ impl_sig <$> default [] (reg !! name)) ∧
  reg' = <[name := (default [] (reg !! name) ++ [mkOperatorImpl name sig f k])]> reg.
Proof. unfold register. case_decide; [done|]. by intros [= <-]. Qed.

(** registration preserves the registry invariant. *)
Theorem register_wf reg name sig f k reg' :
  registry_wf reg → register reg name sig f k = Ok reg' → registry_wf reg'.
Proof.
  intros Hwf (Hin & ->)%register_Ok. apply map_Forall_insert_2; [|done].
  assert (NoDup (impl_sig <$> default [] (reg !! name)) ∧
          Forall (λ i, impl_name i = name) (default [] (reg !! name))) as [Hnd Hn].
  { destruct (reg !! name) as [impls|] eqn:Hr; [by apply Hwf|split; constructor]. }
  rewrite fmap_app, Forall_app, Forall_singleton. simpl. split; [|done].
  apply NoDup_app. split; [done|]. split; [|apply NoDup_singleton].
  intros x Hx ->%list_elem_of_singleton. done.
Qed.

(** a newly registered signature is what resolution returns for
    argument dtypes it matches, provided no earlier implementation of the
    name matches them. *)
Theorem register_get reg name sig f k reg' args r :
  register reg name sig f k = Ok reg' →
  Forall (no_match args) (default [] (reg !! name)) →
  match_signature sig args = Some r →
  get_implementation reg' name args = Ok (mkTypedOperatorImpl (mkOperatorImpl name sig f k) r).
Proof.
  intros (_ & ->)%register_Ok Hnone Hm.
  apply (get_implementation_unique _ _ _ _ _ (lookup_insert_eq _ _ _)).
  apply matching_impls_singleton. eexists _, []. split; [done|]. split; [done|].
  by rewrite app_nil_r.
Qed.

(** registering a signature that does not match some argument dtypes
    leaves every resolution of those dtypes that succeeded unchanged. *)
Theorem register_keeps_resolution reg name sig f k reg' n args ti :
  register reg name sig f k = Ok reg' →
  match_signature sig args = None →
  get_implementation reg n args = Ok ti →
  get_implementation reg' n args = Ok ti.
Proof.
  intros (_ & ->)%register_Ok Hnm (impls & Hr & Hm)%get_implementation_Ok_inv.
  destruct (decide (n = name)) as [->|Hne].
  - apply (get_implementation_unique _ _ _ _ _ (lookup_insert_eq _ _ _)).
    rewrite Hr. simpl. rewrite matching_impls_app, Hm. unfold matching_impls. simpl.
    by rewrite Hnm.
  - apply (get_implementation_unique _ _ _ impls); [|done].
    by rewrite lookup_insert_ne by congruence.
Qed.
End register_props.

(** [register_op(name, signature)]: the decorator that registers a backend
    function under an operator name with a signature string. *)
Definition register_op {F} (reg : OperatorRegistry F) (name sig_str : string)
    (f : F) (k : ftype) : result (OperatorRegistry F) :=
  match parse_signature sig_str with
  | Some sig => register reg name sig f k
  | None => raise! ValueError ("Invalid signature " +:+ sig_str)
  end.

(** Registering every signature of an operator declaration. *)
Definition register_operator {F} (reg : OperatorRegistry F) (op : Operator)
    (impls : list (string * F)) : result (OperatorRegistry F) :=
  foldl (λ acc '(sig_str, f), r ← acc; register_op r (op_name op) sig_str f (op_ftype op))
        (Ok reg) impls.

(** ** The window operators registered, and resolutions at concrete dtypes *)

Definition shift_sig : Signature := mkSignature [DTemplate "T"; DType "int"] false (DTemplate "T").

(** [Shift]'s two signatures registered with placeholder implementations. *)
Definition shift_registry : OperatorRegistry unit :=
  match register_operator ∅ Shift [("T, int -> T", ()); ("T, int, T -> T", ())] with
  | Ok r => r
  | Err _ => ∅
  end.

Lemma match_signature_sound_witness :
  match_signature shift_sig ["float"; "int"] = Some "float" ∧
  ∃ τ, mapM (inst_tok τ) (params_for shift_sig 2) = Some ["float"; "int"] ∧
       inst_tok τ (sig_rtype shift_sig) = Some "float".
Proof.
  assert (H : match_signature shift_sig ["float"; "int"] = Some "float") by reflexivity.
  split; [exact H|]. exact (match_signature_sound _ _ _ H).
Defined.

Lemma match_signature_complete_witness :
  rtype_bound shift_sig ∧
  mapM (inst_tok {["T" := "str"]}) (params_for shift_sig 2) = Some ["str"; "int"] ∧
  match_signature shift_sig ["str"; "int"] = inst_tok {["T" := "str"]} (sig_rtype shift_sig).
Proof.
  assert (Hb : rtype_bound shift_sig) by (simpl; set_solver).
  assert (Hm : mapM (inst_tok {["T" := "str"]}) (params_for shift_sig 2) = Some ["str"; "int"])
    by reflexivity.
  split; [exact Hb|]. split; [exact Hm|]. exact (match_signature_complete _ _ _ Hb Hm).
Defined.

Lemma get_implementation_Err_witness :
  ∃ e, get_implementation shift_registry "shift" ["float"; "int"; "int"] = Err e ∧
  ((shift_registry !! "shift" = None ∧ exc_class e = UnresolvedOperator) ∨
   (∃ impls, shift_registry !! "shift" = Some impls ∧
      ((Forall (no_match ["float"; "int"; "int"]) impls ∧ exc_class e = NoMatchingSignature) ∨
       (2 ≤ length (matching_impls impls ["float"; "int"; "int"]) ∧
        exc_class e = AmbiguousSignature)))).
Proof.
  eexists. assert (H : get_implementation shift_registry "shift" ["float"; "int"; "int"] =
    raise! NoMatchingSignature "No matching signature for operator shift") by reflexivity.
  split; [exact H|]. exact (get_implementation_Err _ _ _ _ H).
Defined.

Lemma register_wf_witness :
  registry_wf (∅ : OperatorRegistry unit) ∧
  register ∅ "shift" shift_sig () FWindow =
    Ok {["shift" := [mkOperatorImpl "shift" shift_sig () FWindow]]} ∧
  registry_wf ({["shift" := [mkOperatorImpl "shift" shift_sig () FWindow]]}
                 : OperatorRegistry unit).
Proof.
  assert (Hwf : registry_wf (∅ : OperatorRegistry unit)) by apply map_Forall_empty.
  assert (Hr : register ∅ "shift" shift_sig () FWindow =
    Ok {["shift" := [mkOperatorImpl "shift" shift_sig () FWindow]]}) by reflexivity.
  split; [exact Hwf|]. split; [exact Hr|]. exact (register_wf _ _ _ _ _ _ Hwf Hr).
Defined.

Lemma register_get_witness :
  register ∅ "shift" shift_sig () FWindow =
    Ok {["shift" := [mkOperatorImpl "shift" shift_sig () FWindow]]} ∧
  Forall (no_match ["bool"; "int"]) (default [] ((∅ : OperatorRegistry unit) !! "shift")) ∧
  match_signature shift_sig ["bool"; "int"] = Some "bool" ∧
  get_implementation {["shift" := [mkOperatorImpl "shift" shift_sig () FWindow]]}
    "shift" ["bool"; "int"] =
    Ok (mkTypedOperatorImpl (mkOperatorImpl "shift" shift_sig () FWindow) "bool").
Proof.
  assert (Hr : register ∅ "shift" shift_sig () FWindow =
    Ok {["shift" := [mkOperatorImpl "shift" shift_sig () FWindow]]}) by reflexivity.
  assert (Hn : Forall (no_match ["bool"; "int"])
                 (default [] ((∅ : OperatorRegistry unit) !! "shift"))) by constructor.
  assert (Hm : match_signature shift_sig ["bool"; "int"] = Some "bool") by reflexivity.
  split; [exact Hr|]. split; [exact Hn|]. split; [exact Hm|].
  exact (register_get _ _ _ _ _ _ _ _ Hr Hn Hm).
Defined.

Definition shift_sig3 : Signature :=
  mkSignature [DTemplate "T"; DType "int"; DTemplate "T"] false (DTemplate "T").

Lemma register_keeps_resolution_witness :
  let reg := {["shift" := [mkOperatorImpl "shift" shift_sig () FWindow]]} : OperatorRegistry unit in
  let new := mkOperatorImpl "shift" shift_sig3 () FWindow in
  register reg "shift" shift_sig3 () FWindow =
    Ok {["shift" := [mkOperatorImpl "shift" shift_sig () FWindow; new]]} ∧
  match_signature shift_sig3 ["float"; "int"] = None ∧
  get_implementation reg "shift" ["float"; "int"] =
    Ok (mkTypedOperatorImpl (mkOperatorImpl "shift" shift_sig () FWindow) "float") ∧
  get_implementation {["shift" := [mkOperatorImpl "shift" shift_sig () FWindow; new]]}
    "shift" ["float"; "int"] =
    Ok (mkTypedOperatorImpl (mkOperatorImpl "shift" shift_sig () FWindow) "float").
Proof.
  intros reg new.
  assert (Hr : register reg "shift" shift_sig3 () FWindow =
    Ok {["shift" := [mkOperatorImpl "shift" shift_sig () FWindow; new]]}) by reflexivity.
  assert (Hn : match_signature shift_sig3 ["float"; "int"] = None) by reflexivity.
  assert (Hg : get_implementation reg "shift" ["float"; "int"] =
    Ok (mkTypedOperatorImpl (mkOperatorImpl "shift" shift_sig () FWindow) "float"))
    by reflexivity.
  split; [exact Hr|]. split; [exact Hn|]. split; [exact Hg|].
  exact (register_keeps_resolution _ _ _ _ _ _ _ _ _ Hr Hn Hg).
Defined.

(** ** The window operators of [core/ops/window.py]

    Both operators registered with every signature string they declare,
    each with a placeholder implementation. *)

Definition register_window_ops (reg : OperatorRegistry unit) : result (OperatorRegistry unit) :=
  r ← register_operator reg Shift ((λ s, (s, ())) <$> op_signatures Shift);
  register_operator r RowNumber ((λ s, (s, ())) <$> op_signatures RowNumber).

Definition window_registry : OperatorRegistry unit :=
  match register_window_ops ∅ with Ok r => r | Err _ => ∅ end.

Definition nullary_int : Signature := mkSignature [] false (DType "int").

Lemma window_registry_shift :
  window_registry !! op_name Shift =
    Some [mkOperatorImpl "shift" shift_sig () FWindow; mkOperatorImpl "shift" shift_sig3 () FWindow].
Proof. reflexivity. Qed.

Lemma window_registry_row_number :
  window_registry !! op_name RowNumber = Some [mkOperatorImpl "row_number" nullary_int () FWindow].
Proof. reflexivity. Qed.

(** C25: [shift] with two arguments resolves, for every first-argument dtype
    [d], to its ["T, int -> T"] implementation with result dtype [d] exactly
    when the second argument is an [int]; otherwise no signature matches. *)
Theorem shift_resolution d e :
  get_implementation window_registry (op_name Shift) [d; e] =
    if decide (e = "int")
    then Ok (mkTypedOperatorImpl (mkOperatorImpl (op_name Shift) shift_sig () (op_ftype Shift)) d)
    else raise! NoMatchingSignature "No matching signature for operator shift".
Proof.
  unfold get_implementation. rewrite window_registry_shift.
  unfold matching_impls, match_signature. simpl. rewrite lookup_empty.
  destruct (decide ("int" = e)), (decide (e = "int")); subst; done.
Qed.

(** C26: [shift] with a default resolves to ["T, int, T -> T"] exactly when
    the default has the dtype of the shifted column: the template [T] binds
    at its first occurrence and the third argument must agree with it. *)
Theorem shift3_resolution d e :
  get_implementation window_registry (op_name Shift) [d; "int"; e] =
    if decide (e = d)
    then Ok (mkTypedOperatorImpl (mkOperatorImpl (op_name Shift) shift_sig3 () (op_ftype Shift)) d)
    else raise! NoMatchingSignature "No matching signature for operator shift".
Proof.
  unfold get_implementation. rewrite window_registry_shift.
  unfold matching_impls, match_signature. simpl. rewrite lookup_empty. simpl.
  rewrite lookup_insert_eq. simpl.
  destruct (decide (d = e)), (decide (e = d)); subst; done.
Qed.

(** [row_number] resolves only without arguments, to dtype [int] and
    the window kind [RowNumber] declares. *)
Theorem row_number_resolution args :
  get_implementation window_registry (op_name RowNumber) args =
    if args is []
    then Ok (mkTypedOperatorImpl
               (mkOperatorImpl (op_name RowNumber) nullary_int () (op_ftype RowNumber)) "int")
    else raise! NoMatchingSignature "No matching signature for operator row_number".
Proof. unfold get_implementation. rewrite window_registry_row_number. by destruct args. Qed.

(** A variadic signature: one or more strings, joined into a string. *)
Lemma variadic_signature_example :
  parse_signature "str... -> str" = Some (mkSignature [DType "str"] true (DType "str")) ∧
  parse_signature "T, int ... -> T" = Some (mkSignature [DTemplate "T"; DType "int"] true (DTemplate "T")) ∧
  match_signature (mkSignature [DType "str"] true (DType "str")) ["str"; "str"; "str"] = Some "str" ∧
  match_signature (mkSignature [DType "str"] true (DType "str")) [] = None ∧
  match_signature (mkSignature [DTemplate "T"; DType "int"] true (DTemplate "T"))
    ["float"; "int"; "int"] = Some "float" ∧
  match_signature (mkSignature [DTemplate "T"; DType "int"] true (DTemplate "T"))
    ["float"; "int"; "str"] = None.
Proof. repeat split; vm_compute; reflexivity. Qed.
