(* ===== verification/Translator.v ===== *)
(** * The translator framework ([core/expressions/translator.py])

    [bottom_up_replace] rebuilds a call with its arguments already replaced
    and hands it to the node callback, post-order; [Translator.translate]
    runs it and wraps any exception into one [ValueError] that names the
    top-level expression; [DelegatingTranslator._translate] dispatches on
    the node kind, resolving a call's implementation in the registry from
    its translated arguments' dtypes.

    The framework is generic in the monad of the callback: the translators
    of the sources only raise ([result]); a callback that also records the
    order of its calls runs in [stres].  [bottom_up_replace] is proved equal
    to a stack machine executing the post-order listing of the tree (the
    direct post-order evaluator the spec's design notes ask for). *)

From S2P Require Import Prelude Expr Registry.

(** What the callback receives: a leaf, or a call whose arguments are the
    results already produced for them. *)
Inductive node (L R : Type) :=
  | NLeaf (l : L)
  | NCall (op : string) (args : list R) (kwargs : list (string * R)).
Arguments NLeaf {L R} l.
Arguments NCall {L R} op args kwargs.

(** ** [bottom_up_replace] *)

Section bottom_up.
Context {L R : Type} {M : Type → Type} `{!MRet M, !MBind M}.
Variable replace : node L R → M R.

(** [clone]: a call's positional arguments left to right, then its named
    arguments in order, then the rebuilt call itself. *)
Fixpoint bottom_up_replace (e : expr L) : M R :=
  match e with
  | Leaf l => replace (NLeaf l)
  | FunctionCall op args kwargs =>
      rs ← mapM bottom_up_replace args;
      ks ← mapM (λ '(k, v), r ← bottom_up_replace v; mret (k, r)) kwargs;
      replace (NCall op rs ks)
  end.
End bottom_up.

(** The named arguments keep their names through a traversal. *)
Section kwargs_keys.
Context {L R : Type} (f : node L R → result R).

Lemma kwargs_keys kwargs ks :
  mapM (λ kv : string * expr L, let '(k, v) := kv in
          r ← bottom_up_replace f v; mret (k, r)) kwargs = Ok ks →
  ks.*1 = kwargs.*1.
Proof.
  intros Hks%mapM_result_Ok.
  induction Hks as [|[k v] [k' r] kwargs ks Hkv _ IH]; [done|].
  rewrite !fmap_cons, IH. simpl in Hkv.
  destruct (bottom_up_replace f v); simpl in Hkv; [|done]. by injection Hkv as -> ->.
Qed.

End kwargs_keys.

(** ** A post-order stack machine, the reference evaluator *)

(** One step of the post-order listing: a leaf, or a call with its number
    of positional arguments and the names of its named arguments. *)
Inductive instr (L : Type) :=
  | ILeaf (l : L)
  | ICall (op : string) (nargs : nat) (keys : list string).
Arguments ILeaf {L} l.
Arguments ICall {L} op nargs keys.

Fixpoint postorder {L} (e : expr L) : list (instr L) :=
  match e with
  | Leaf l => [ILeaf l]
  | FunctionCall op args kwargs =>
      mjoin (postorder <$> args) ++ mjoin ((λ '(k, v), postorder v) <$> kwargs) ++
      [ICall op (length args) kwargs.*1]
  end.

Section machine.
Context {L R : Type} {M : Type → Type} `{!MRet M, !MBind M}.
Variable replace : node L R → M R.

(** A leaf pushes its value; a call pops its arguments (the top of the
    stack is the last named argument) and pushes its value. *)
Fixpoint run_postorder (code : list (instr L)) (st : list R) : M (list R) :=
  match code with
  | [] => mret st
  | ILeaf l :: code' => r ← replace (NLeaf l); run_postorder code' (r :: st)
  | ICall op n ks :: code' =>
      let vs := reverse (take (n + length ks) st) in
      r ← replace (NCall op (take n vs) (zip ks (drop n vs)));
      run_postorder code' (r :: drop (n + length ks) st)
  end.
End machine.

Section machine_props.
Context {L R : Type} {M : Type → Type}
        `{!MRet M, !MBind M, !MonadLaws M, !MonadSupport M}.
Variable replace : node L R → M R.

Let bur := bottom_up_replace replace.
Let kwf := λ (kv : string * expr L), let '(k, v) := kv in
             r ← bottom_up_replace replace v; @mret M _ _ (k, r).

Let code_ok (e : expr L) : Prop := ∀ code st,
  run_postorder replace (postorder e ++ code) st =
  r ← bur e; run_postorder replace code (r :: st).

Lemma run_postorder_args args code st :
  Forall code_ok args →
  run_postorder replace (mjoin (postorder <$> args) ++ code) st =
  rs ← mapM bur args; run_postorder replace code (reverse rs ++ st).
Proof.
  intros Hargs. revert code st. induction Hargs as [|a args Ha Hargs IH]; intros code st; simpl.
  - by rewrite bind_ret_l.
  - rewrite <-app_assoc, Ha, bind_assoc. apply bind_ext. intros r.
    rewrite IH, bind_assoc. apply bind_ext. intros rs.
    rewrite bind_ret_l, reverse_cons, <-app_assoc. done.
Qed.

Lemma run_postorder_kwargs (kwargs : list (string * expr L)) code st :
  Forall (λ kv, code_ok kv.2) kwargs →
  run_postorder replace (mjoin ((λ '(k, v), postorder v) <$> kwargs) ++ code) st =
  ks ← mapM kwf kwargs; run_postorder replace code (reverse ks.*2 ++ st).
Proof.
  intros Hkw. revert code st. induction Hkw as [|[k v] kwargs Hv Hkw IH]; intros code st; simpl.
  - by rewrite bind_ret_l.
  - rewrite <-app_assoc, Hv, !bind_assoc. apply bind_ext. intros r.
    rewrite bind_ret_l, IH, bind_assoc. apply bind_ext. intros ks.
    rewrite bind_ret_l. simpl. rewrite reverse_cons, <-app_assoc. done.
Qed.

Lemma kwf_keys kwargs ks : in_supp (mapM kwf kwargs) ks → ks.*1 = kwargs.*1.
Proof.
  intros Hs%mapM_supp. induction Hs as [|[k v] [k' r] kwargs ks Hkv _ IH]; [done|].
  rewrite !fmap_cons, IH. apply supp_bind in Hkv as (r' & _ & Hret).
  by apply supp_ret in Hret as [= ->].
Qed.

(** C1: [bottom_up_replace] is the post-order stack machine: running the
    post-order listing of a tree pushes exactly the value
    [bottom_up_replace] computes for it, after the same callbacks. *)
Theorem bottom_up_replace_postorder e code st :
  run_postorder replace (postorder e ++ code) st =
  r ← bottom_up_replace replace e; run_postorder replace code (r :: st).
Proof.
  revert code st. induction e as [l|op args kwargs Hargs Hkw] using expr_ind';
    intros code st; [done|].
  simpl. rewrite <-!app_assoc, run_postorder_args by done.
  rewrite bind_assoc. apply bind_ext_supp. intros rs Hrs.
  rewrite run_postorder_kwargs by done.
  rewrite bind_assoc. apply bind_ext_supp. intros ks Hks. simpl.
  apply mapM_supp, Forall2_length in Hrs. pose proof (kwf_keys _ _ Hks) as Hkeys.
  apply mapM_supp, Forall2_length in Hks.
  assert (Hlen : length args + length kwargs.*1 = length (reverse (rs ++ ks.*2))).
  { rewrite length_reverse, length_app, !length_fmap. lia. }
  rewrite app_assoc, <-reverse_app, Hlen, take_app_length, drop_app_length,
    reverse_involutive, Hrs, take_app_length, drop_app_length, <-Hkeys, zip_fst_snd.
  done.
Qed.
End machine_props.

(** ** The order of the callbacks *)

(** The shape of a node: the instruction it corresponds to. *)
Definition shape {L R} (n : node L R) : instr L :=
  match n with
  | NLeaf l => ILeaf l
  | NCall op args kwargs => ICall op (length args) kwargs.*1
  end.

(** An instrumented callback: it appends the node it is called with to a
    log kept in a mutable list, then behaves as [f]. *)
Definition recording {L R} (f : node L R → result R)
    : node L R → stres (list (node L R)) R :=
  λ n tr, (f n, tr ++ [n]).

Section trace.
Context {L R : Type}.
Abbreviation log := (list (node L R)).

(** [m] behaves as the plain computation [p] and logs nodes whose shapes
    are a prefix of [code], all of [code] when [p] succeeds. *)
Definition traced {A} (m : stres log A) (p : result A) (code : list (instr L)) : Prop :=
  ∀ tr, ∃ t, m tr = (p, tr ++ t) ∧ shape <$> t `prefix_of` code ∧
             (is_ok p → shape <$> t = code).

Lemma traced_ret {A} (a : A) : traced (mret a) (Ok a) [].
Proof. intros tr. exists []. by rewrite app_nil_r. Qed.

Lemma traced_bind {A B} (m : stres log A) p c1 (k : A → stres log B) kp c2 :
  traced m p c1 → (∀ a, p = Ok a → traced (k a) (kp a) c2) →
  traced (m ≫= k) (p ≫= kp) (c1 ++ c2).
Proof.
  intros Hm Hk tr. destruct (Hm tr) as (t1 & Hrun & Hpre & Hok).
  unfold mbind at 1, stres_bind. rewrite Hrun. destruct p as [a|e]; simpl.
  - rewrite <-Hok by done. destruct (Hk a eq_refl (tr ++ t1)) as (t2 & Hrun2 & Hpre2 & Hok2).
    exists (t1 ++ t2). rewrite Hrun2, app_assoc, fmap_app.
    split; [done|]. split; [by apply prefix_app|]. intros ?. by rewrite Hok2.
  - exists t1. split; [done|]. split; [|done]. by apply prefix_app_r.
Qed.

Lemma traced_mapM {A B} (g : A → stres log B) gp (c : A → list (instr L)) l :
  Forall (λ x, traced (g x) (gp x) (c x)) l →
  traced (mapM g l) (mapM gp l) (mjoin (c <$> l)).
Proof.
  induction 1 as [|x l Hx _ IH]; [apply traced_ret|].
  rewrite fmap_cons. change (mjoin (c x :: (c <$> l))) with (c x ++ mjoin (c <$> l)).
  rewrite <-(app_nil_r (mjoin (c <$> l))). simpl mapM.
  apply traced_bind; [done|]. intros b _.
  apply traced_bind; [done|]. intros bs _. apply traced_ret.
Qed.

(** C2: instrumenting the callback does not change the result, and the
    callback is invoked once per node of the tree in post-order: children
    left to right, named arguments after positional ones, each call after
    all its arguments.  When translation fails, the calls made are a
    prefix of that order. *)
Theorem bottom_up_replace_trace (f : node L R → result R) e tr :
  ∃ t, bottom_up_replace (recording f) e tr = (bottom_up_replace f e, tr ++ t) ∧
       shape <$> t `prefix_of` postorder e ∧
       (is_ok (bottom_up_replace f e) → shape <$> t = postorder e).
Proof.
  revert tr. change (traced (bottom_up_replace (recording f) e) (bottom_up_replace f e)
                            (postorder e)).
  induction e as [l|op args kwargs Hargs Hkw] using expr_ind'.
  - intros tr. exists [NLeaf l]. done.
  - simpl. apply traced_bind; [by apply traced_mapM|]. intros rs Hrs.
    apply traced_bind.
    { apply (traced_mapM _ _ (λ '(k, v), postorder v)).
      eapply Forall_impl; [done|]. intros [k v] Hv. simpl in Hv |- *.
      rewrite <-(app_nil_r (postorder v)). apply traced_bind; [done|].
      intros r _. apply traced_ret. }
    intros ks Hks. intros tr. exists [NCall op rs ks]. split; [done|].
    apply mapM_result_length in Hrs.
    simpl. by rewrite Hrs, (kwargs_keys _ _ _ Hks).
Qed.
End trace.

(** ** [Translator.translate] *)

Definition newline : string := String.String (Ascii.ascii_of_nat 10) "".

Definition translate_error_msg (expr_str : string) (cause : exc) : string :=
  "An exception occured while trying to translate the expression '" +:+ expr_str +:+
  "':" +:+ newline +:+ exc_msg cause.

(** [try: return bottom_up_replace(expr, self._translate)
     except Exception as e: raise ValueError(...) from e] *)
Definition translate {L R} (leaf_repr : L → string) (_translate : node L R → result R)
    (e : expr L) : result R :=
  match bottom_up_replace _translate e with
  | Ok r => Ok r
  | Err cause =>
      Err (PyExc ValueError (translate_error_msg (expr_repr leaf_repr e) cause) (Some cause))
  end.

(** [Translator._translate]: the base class translates nothing and raises
    [NotImplementedError] (with no message). *)
Definition Translator__translate {L R} (n : node L R) : result R := raise! NotImplementedError "".

(** [class Translator(Generic[T])]: an instance is given by its
    [_translate]; [translate] is inherited by every subclass, and the base
    class's own [_translate] raises. *)
Record Translator (L R : Type) := mkTranslator { _translate : node L R → result R }.
Arguments mkTranslator {_ _} _.
Arguments _translate {_ _} _ _.

Definition Translator_base {L R} : Translator L R := mkTranslator Translator__translate.

Definition Translator_translate {L R} (leaf_repr : L → string) (self : Translator L R) (e : expr L)
    : result R :=
  translate leaf_repr (_translate self) e.

Section translate_props.
Context {L R : Type} (leaf_repr : L → string) (f : node L R → result R).

(** A failing traversal fails with the exception the callback raised at
    one of the tree's nodes. *)
Lemma bottom_up_replace_Err e x :
  bottom_up_replace f e = Err x → ∃ n, f n = Err x ∧ shape n ∈ postorder e.
Proof.
  induction e as [l|op args kwargs Hargs Hkw] using expr_ind'; simpl.
  - intros H. exists (NLeaf l). split; [done|]. by left.
  - destruct (mapM (bottom_up_replace f) args) as [rs|x'] eqn:Hrs; simpl.
    2:{ intros [= ->]. apply mapM_result_Err in Hrs as (a & Ha & Hb).
        rewrite Forall_forall in Hargs. destruct (Hargs a Ha Hb) as (n & Hn & Hin).
        exists n. split; [done|]. apply elem_of_app; left.
        apply list_elem_of_join. exists (postorder a). split; [done|].
        by apply list_elem_of_fmap_2. }
    destruct (mapM _ kwargs) as [ks|x'] eqn:Hks; simpl.
    2:{ intros [= ->]. apply mapM_result_Err in Hks as ([k v] & Hkv & Hb).
        simpl in Hb. destruct (bottom_up_replace f v) eqn:Hv; simpl in Hb; [done|].
        injection Hb as ->. rewrite Forall_forall in Hkw.
        destruct (Hkw (k, v) Hkv Hv) as (n & Hn & Hin).
        exists n. split; [done|]. apply elem_of_app; right. apply elem_of_app; left.
        apply list_elem_of_join. exists (postorder v). split; [done|].
        by apply (list_elem_of_fmap_2 (λ '(k, v), postorder v) _ (k, v)). }
    intros Hf. exists (NCall op rs ks). split; [done|].
    apply elem_of_app; right. apply elem_of_app; right. simpl.
    rewrite (mapM_result_length _ _ _ Hrs), (kwargs_keys _ _ _ Hks). by left.
Qed.

(** C3: [translate] succeeds exactly when the traversal does; when it
    fails, it raises one [ValueError] whose message names the top-level
    expression and whose cause is the exception the callback raised at a
    node of the tree. *)
Theorem translate_Err e x :
  translate leaf_repr f e = Err x →
  ∃ cause n, x = PyExc ValueError (translate_error_msg (expr_repr leaf_repr e) cause)
                       (Some cause) ∧
             bottom_up_replace f e = Err cause ∧ f n = Err cause ∧ shape n ∈ postorder e.
Proof.
  unfold translate. destruct (bottom_up_replace f e) as [r|cause] eqn:H; [done|].
  intros [= <-]. destruct (bottom_up_replace_Err e cause H) as (n & Hn & Hin).
  by exists cause, n.
Qed.

Lemma translate_Ok e v : translate leaf_repr f e = Ok v ↔ bottom_up_replace f e = Ok v.
Proof. unfold translate. by destruct (bottom_up_replace f e). Qed.
End translate_props.

(** A traversal that returns returned the value the callback gave the root. *)
Lemma bottom_up_replace_Ok_root {L R} (f : node L R → result R) e r :
  bottom_up_replace f e = Ok r → ∃ n, f n = Ok r.
Proof.
  destruct e as [l|op args kwargs]; simpl; [by eauto|].
  destruct (mapM _ args); simpl; [|done]. destruct (mapM _ kwargs); simpl; [|done]. eauto.
Qed.

(** A translator that does not override [_translate] fails on every
    expression, with the [ValueError] of [translate] caused by the
    [NotImplementedError] of the base class. *)
Lemma Translator_base_fails {L R} (leaf_repr : L → string) (e : expr L) :
  Translator_translate leaf_repr (Translator_base (R:=R)) e =
  Err (PyExc ValueError (translate_error_msg (expr_repr leaf_repr e) (PyExc NotImplementedError "" None))
             (Some (PyExc NotImplementedError "" None))).
Proof.
  unfold Translator_translate, translate. simpl. destruct (bottom_up_replace _ e) as [r|x] eqn:H.
  - by destruct (bottom_up_replace_Ok_root _ _ _ H) as [n Hn].
  - destruct (bottom_up_replace_Err _ e x H) as (n & Hn & _). by injection Hn as <-.
Qed.

(** ** [DelegatingTranslator] *)

(** The Python type name of a leaf, as [type(expr)] prints it. *)
Definition obj_type_name {V} (o : obj V) : string :=
  match o with
  | OColumn _ => "Column"
  | OLambda _ => "LambdaColumn"
  | OInt _ => "int"
  | OBool _ => "bool"
  | OStr _ => "str"
  | OTyped _ => "TypedValue"
  | OOther ty => ty
  end.

(** The three override points of a [DelegatingTranslator] subclass and the
    registry it was constructed with.  [_translate_literal] returns [None]
    for a leaf it does not handle: its result is tested for truthiness, and
    a [TypedValue] is always truthy. *)
Class DelegatingTranslator (V F : Type) := {
  operator_registry : OperatorRegistry F;
  _translate_col : column → result (TypedValue V);
  _translate_function : string → list (TypedValue V) → list (string * TypedValue V) →
                        list V → TypedOperatorImpl F → result (TypedValue V);
  _translate_literal : obj V → result (option (TypedValue V))
}.

(** [DelegatingTranslator._translate] *)
Definition delegating_translate {V F} `{!DelegatingTranslator V F}
    (n : node (obj V) (TypedValue V)) : result (TypedValue V) :=
  match n with
  | NLeaf (OColumn c) => _translate_col c
  | NCall op args kwargs =>
      let arguments := tv_value <$> args in
      let signature := tv_dtype <$> args in
      implementation ← get_implementation operator_registry op signature;
      _translate_function op args kwargs arguments implementation
  | NLeaf o =>
      literal_result ← _translate_literal o;
      match literal_result with
      | Some r => Ok r
      | None =>
          raise! NotImplementedError ("Couldn't find a way to translate object of type " +:+
                                      obj_type_name o +:+ " with value " +:+ obj_repr o +:+ ".")
      end
  end.

(** What a subclass promises about the dtypes of its hooks' results: a
    column keeps its dtype, a literal gets the dtype [lit_dtype] assigns to
    it, and a call's value carries the resolved implementation's result
    dtype. *)
Class DelegatingLaws (V F : Type) `{!DelegatingTranslator V F}
    (lit_dtype : obj V → option string) := {
  translate_col_dtype c tv : _translate_col c = Ok tv → tv_dtype tv = col_dtype c;
  translate_literal_dtype o tv :
    _translate_literal o = Ok (Some tv) → lit_dtype o = Some (tv_dtype tv);
  translate_function_dtype op args kwargs vs impl tv :
    _translate_function op args kwargs vs impl = Ok tv → tv_dtype tv = rtype impl
}.

(** What the spec asks of [_translate_function] about function kinds: a
    call's value carries the kind its implementation was registered with. *)
Class DelegatingKindLaw (V F : Type) `{!DelegatingTranslator V F} :=
  translate_function_ftype op args kwargs vs impl tv :
    _translate_function op args kwargs vs impl = Ok tv → tv_ftype tv = impl_ftype (timpl impl).

(** ** Static dtype inference: what a translation's dtype must be *)


Fixpoint infer_dtype {V F} (reg : OperatorRegistry F) (lit_dtype : obj V → option string)
    (e : expr (obj V)) : option string :=
  match e with
  | Leaf (OColumn c) => Some (col_dtype c)
  | Leaf o => lit_dtype o
  | FunctionCall op args _ =>
      ds ← mapM (infer_dtype reg lit_dtype) args;
      ti ← result_to_option (get_implementation reg op ds);
      Some (rtype ti)
  end.

(** An expression whose every subexpression, named arguments included,
    has an inferred dtype. *)
Fixpoint typable {V F} (reg : OperatorRegistry F) (lit_dtype : obj V → option string)
    (e : expr (obj V)) : bool :=
  match e with
  | Leaf (OColumn _) => true
  | Leaf o => bool_decide (is_Some (lit_dtype o))
  | FunctionCall op args kwargs =>
      forallb (typable reg lit_dtype) args && forallb (λ '(_, v), typable reg lit_dtype v) kwargs &&
      bool_decide (is_Some (infer_dtype reg lit_dtype e))
  end.

(** What a subclass promises about failure: its hooks do not raise, and
    its literal hook recognises every literal [lit_dtype] gives a dtype. *)
Class DelegatingTotal (V F : Type) `{!DelegatingTranslator V F}
    (lit_dtype : obj V → option string) := {
  translate_col_total c : ∃ tv, _translate_col c = Ok tv;
  translate_literal_total o dt : lit_dtype o = Some dt → ∃ tv, _translate_literal o = Ok (Some tv);
  translate_function_total op args kwargs vs impl :
    ∃ tv, _translate_function op args kwargs vs impl = Ok tv
}.

Section delegating_props.
Context {V F : Type} `{!DelegatingTranslator V F} (lit_dtype : obj V → option string)
        `{!DelegatingLaws V F lit_dtype}.

(** The arguments' inferred dtypes are those of their translations. *)
Lemma infer_args (args : list (expr (obj V))) (rs : list (TypedValue V)) :
  Forall (λ e, ∀ tv, bottom_up_replace delegating_translate e = Ok tv →
                     infer_dtype operator_registry lit_dtype e = Some (tv_dtype tv)) args →
  mapM (bottom_up_replace delegating_translate) args = Ok rs →
  mapM (infer_dtype operator_registry lit_dtype) args = Some (tv_dtype <$> rs).
Proof.
  intros Hargs Ha%mapM_result_Ok. revert Hargs.
  induction Ha as [|e r args rs Her _ IH]; intros Hargs; [done|]. apply Forall_cons in Hargs as [He Hargs].
  simpl. rewrite (He _ Her). simpl. by rewrite IH.
Qed.

Lemma delegating_dtype_sound e tv :
  bottom_up_replace delegating_translate e = Ok tv →
  infer_dtype operator_registry lit_dtype e = Some (tv_dtype tv).
Proof.
  revert tv. induction e as [[c|x|z|b|s|t|ty]|op args kwargs Hargs _] using expr_ind';
    intros tv H; simpl in H |- *;
    try (simpl_res; destruct a; simpl_res; subst; by apply translate_literal_dtype).
  - by rewrite (translate_col_dtype _ _ H).
  - simpl_res. rename a into rs, a0 into ks, a1 into ti.
    apply translate_function_dtype in H as ->.
    rewrite (infer_args args rs); [|done|done]. simpl. by rewrite Ha1.
Qed.

(** C4: translation is typed by the registry: a translated expression's
    dtype is the one inferred statically, leaves by their declared dtype
    and each call by resolving its arguments' inferred dtypes. *)
Theorem delegating_translate_dtype e tv :
  bottom_up_replace delegating_translate e = Ok tv →
  infer_dtype operator_registry lit_dtype e = Some (tv_dtype tv).
Proof. apply delegating_dtype_sound. Qed.

(** the function kind of a translated call is the kind declared by
    the implementation the registry resolves for its arguments' dtypes. *)
Theorem delegating_translate_ftype `{!DelegatingKindLaw V F} op args kwargs tv :
  bottom_up_replace delegating_translate (FunctionCall op args kwargs) = Ok tv →
  ∃ rs ti, mapM (bottom_up_replace delegating_translate) args = Ok rs ∧
           get_implementation operator_registry op (tv_dtype <$> rs) = Ok ti ∧
           tv_ftype tv = impl_ftype (timpl ti).
Proof.
  intros H. simpl in H. simpl_res.
  apply translate_function_ftype in H. eauto.
Qed.

(** C24: progress: when the hooks do not raise, every typable expression
    translates, to a value of its inferred dtype; the framework itself
    (traversal, resolution, dispatch) adds no failure. *)
Theorem delegating_translate_progress `{!DelegatingTotal V F lit_dtype} e :
  typable operator_registry lit_dtype e = true →
  ∃ tv, bottom_up_replace delegating_translate e = Ok tv ∧
        infer_dtype operator_registry lit_dtype e = Some (tv_dtype tv).
Proof.
  intros Ht. cut (∃ tv, bottom_up_replace delegating_translate e = Ok tv).
  { intros [tv Htv]. exists tv. split; [done|]. by apply delegating_dtype_sound. }
  induction e as [[c|x|z|b|s|t|ty]|op args kwargs Hargs Hkw] using expr_ind'; simpl in Ht |- *;
    try (apply bool_decide_eq_true in Ht as [dt Hdt];
         destruct (translate_literal_total _ _ Hdt) as [tv ->]; by exists tv).
  - apply translate_col_total.
  - apply andb_prop in Ht as [[Ha Hk]%andb_prop Hi%bool_decide_eq_true].
    destruct (mapM_result_total (bottom_up_replace delegating_translate) args) as [rs Hrs].
    { rewrite forallb_forall in Ha. rewrite Forall_forall in Hargs |- *.
      intros a Hin. apply Hargs; [done|]. apply Ha. by apply list_elem_of_In. }
    destruct (mapM_result_total (λ '(k, v), r ← bottom_up_replace delegating_translate v; mret (k, r))
                kwargs) as [ks Hks].
    { rewrite forallb_forall in Hk. rewrite Forall_forall in Hkw |- *.
      intros [k v] Hin. destruct (Hkw (k, v) Hin) as [r Hr]; [apply (Hk (k, v)); by apply list_elem_of_In|].
      exists (k, r). simpl in Hr |- *. by rewrite Hr. }
    rewrite Hrs, Hks. simpl. simpl in Hi.
    assert (Hsound : Forall (λ e, ∀ tv, bottom_up_replace delegating_translate e = Ok tv →
                       infer_dtype operator_registry lit_dtype e = Some (tv_dtype tv)) args).
    { apply Forall_forall. intros a _ tv. apply delegating_dtype_sound. }
    rewrite (infer_args args rs Hsound Hrs) in Hi. simpl in Hi.
    destruct (get_implementation _ _ _) as [ti|]; simpl in Hi; [|by destruct Hi].
    apply translate_function_total.
Qed.
End delegating_props.

(** ** Equivalent callbacks translate alike *)

(** Callbacks that agree up to exception messages give traversals that
    agree up to exception messages. *)
#[export] Instance bottom_up_replace_proper {L R} :
  Proper (pointwise_relation (node L R) (≡) ==> eq ==> (≡@{result R}))
         (bottom_up_replace (M:=result)).
Proof.
  intros f g Hfg e ? <-. induction e as [l|op args kwargs Hargs Hkw] using expr_ind'; simpl;
    [apply Hfg|].
  apply result_bind_proper; [|by apply mapM_equiv_Forall]. intros rs.
  apply result_bind_proper; [by intros ks; apply Hfg|].
  apply mapM_equiv_Forall. eapply Forall_impl; [exact Hkw|]. intros [k v] Hv. simpl in Hv |- *.
  by apply result_bind_proper.
Qed.

(** ** A backend that computes dtypes and kinds only

    The smallest delegating translator: a value is [()], a column keeps its
    dtype, an [int] literal has dtype [int], and a call's value carries the
    resolved implementation's result dtype and kind.  It satisfies both law
    classes, so the kind law is satisfiable; the registry is [window_registry]. *)

#[export] Instance dtype_backend : DelegatingTranslator unit unit := {|
  operator_registry := window_registry;
  _translate_col c := Ok (mkTypedValue () (col_dtype c) FScalar);
  _translate_function op args kwargs vs impl :=
    Ok (mkTypedValue () (rtype impl) (impl_ftype (timpl impl)));
  _translate_literal o := match o with
                          | OInt _ => Ok (Some (TypedValue2 () "int"))
                          | _ => Ok None
                          end
|}.

Definition dtype_backend_lit (o : obj unit) : option string :=
  match o with OInt _ => Some "int" | _ => None end.

#[export] Instance dtype_backend_laws : DelegatingLaws unit unit dtype_backend_lit.
Proof.
  split; simpl.
  - by intros c tv [= <-].
  - intros [] tv' H; simplify_eq/=; done.
  - by intros ?????? [= <-].
Qed.

#[export] Instance dtype_backend_kind : DelegatingKindLaw unit unit.
Proof. by intros ?????? [= <-]. Qed.

#[export] Instance dtype_backend_total : DelegatingTotal unit unit dtype_backend_lit.
Proof.
  split; simpl; eauto.
  intros [] dt H; simplify_eq/=; eauto.
Qed.

(** [shift(t.x, 1)] over a [float] column, and [t.x + 'a'], which has an
    untranslatable leaf. *)
Definition ex_col : column := Column "x" "t" "float" 0%N.
Definition ex_shift : expr (obj unit) := FunctionCall "shift" [Leaf (OColumn ex_col); Leaf (OInt 1)] [].
Definition ex_bad : expr (obj unit) := FunctionCall "__add__" [Leaf (OColumn ex_col); Leaf (OStr "a")] [].

Lemma bottom_up_replace_postorder_witness :
  run_postorder delegating_translate (postorder ex_shift ++ []) [] =
  r ← bottom_up_replace delegating_translate ex_shift; run_postorder delegating_translate [] [r].
Proof. exact (bottom_up_replace_postorder delegating_translate ex_shift [] []). Defined.

Lemma translate_Err_witness :
  ∃ x, translate obj_repr delegating_translate ex_bad = Err x ∧
  ∃ cause n, x = PyExc ValueError (translate_error_msg (expr_repr obj_repr ex_bad) cause)
                       (Some cause) ∧
             bottom_up_replace delegating_translate ex_bad = Err cause ∧
             delegating_translate n = Err cause ∧ shape n ∈ postorder ex_bad.
Proof.
  eexists. assert (H : translate obj_repr delegating_translate ex_bad = Err _) by reflexivity.
  split; [exact H|]. exact (translate_Err obj_repr delegating_translate ex_bad _ H).
Defined.

Lemma delegating_translate_dtype_witness :
  bottom_up_replace delegating_translate ex_shift = Ok (mkTypedValue () "float" FWindow) ∧
  infer_dtype window_registry dtype_backend_lit ex_shift = Some "float".
Proof.
  assert (H : bottom_up_replace delegating_translate ex_shift =
              Ok (mkTypedValue () "float" FWindow)) by reflexivity.
  split; [exact H|]. exact (delegating_translate_dtype dtype_backend_lit ex_shift _ H).
Defined.

Lemma delegating_translate_ftype_witness :
  ∃ rs ti, mapM (bottom_up_replace delegating_translate) [Leaf (OColumn ex_col); Leaf (OInt 1)] = Ok rs ∧
           get_implementation window_registry "shift" (tv_dtype <$> rs) = Ok ti ∧
           tv_ftype (mkTypedValue () "float" FWindow) = impl_ftype (timpl ti).
Proof.
  assert (H : bottom_up_replace delegating_translate ex_shift =
              Ok (mkTypedValue () "float" FWindow)) by reflexivity.
  exact (delegating_translate_ftype "shift" _ [] _ H).
Defined.

Lemma delegating_translate_progress_witness :
  typable window_registry dtype_backend_lit ex_shift = true ∧
  ∃ tv, bottom_up_replace delegating_translate ex_shift = Ok tv ∧
        infer_dtype window_registry dtype_backend_lit ex_shift = Some (tv_dtype tv).
Proof.
  assert (H : typable window_registry dtype_backend_lit ex_shift = true) by reflexivity.
  split; [exact H|]. exact (delegating_translate_progress dtype_backend_lit ex_shift H).
Defined.
