(* ===== verification/StableSort.v ===== *)
(** * A stable sort and its correctness

    [df.sort_values(..., kind='mergesort')] is a stable sort.  This file
    holds the sort the frame model uses (an insertion sort that inserts each
    element after the elements it does not precede) and its three
    properties, for any comparison that is a total preorder: the result is a
    permutation of the input, it is sorted, and elements that compare equal
    keep their relative order. *)

From S2P Require Import Prelude.
From Stdlib Require Import Sorted Permutation.

Section stable_sort.
Context {A : Type} (cmp : A → A → comparison).

(** Insert [x] before the first element it is strictly smaller than. *)
Fixpoint insert_sorted (x : A) (l : list A) : list A :=
  match l with
  | [] => [x]
  | y :: l' => if cmp x y is Lt then x :: y :: l' else y :: insert_sorted x l'
  end.

Definition stable_sort (l : list A) : list A := foldl (λ acc x, insert_sorted x acc) [] l.

Definition le_cmp (x y : A) : Prop := cmp x y ≠ Gt.

Hypothesis cmp_opp : ∀ x y, cmp y x = CompOpp (cmp x y).
Hypothesis cmp_le_trans : ∀ x y z, le_cmp x y → le_cmp y z → le_cmp x z.

Lemma le_cmp_opp x y : le_cmp x y ↔ cmp y x ≠ Lt.
Proof. unfold le_cmp. rewrite (cmp_opp x y). destruct (cmp x y); simpl; split; intros H1 H2; try discriminate; by apply H1. Qed.

Lemma cmp_lt_le_trans x y z : cmp x y = Lt → le_cmp y z → cmp x z = Lt.
Proof.
  intros Hxy Hyz. destruct (cmp x z) eqn:Hxz; [| done |]; exfalso.
  all: assert (le_cmp z x) as Hzx by (apply le_cmp_opp; by rewrite Hxz).
  all: exact (proj1 (le_cmp_opp y x) (cmp_le_trans _ _ _ Hyz Hzx) Hxy).
Qed.

Lemma cmp_le_lt_trans x y z : le_cmp x y → cmp y z = Lt → cmp x z = Lt.
Proof.
  intros Hxy Hyz. destruct (cmp x z) eqn:Hxz; [| done |]; exfalso.
  all: assert (le_cmp z x) as Hzx by (apply le_cmp_opp; by rewrite Hxz).
  all: exact (proj1 (le_cmp_opp z y) (cmp_le_trans _ _ _ Hzx Hxy) Hyz).
Qed.

(** Equivalent elements compare alike with everything. *)
Lemma cmp_eq_subst x y z : cmp x y = Eq → cmp x z = cmp y z.
Proof.
  intros Hxy.
  assert (le_cmp x y) as Hle1 by (unfold le_cmp; by rewrite Hxy).
  assert (le_cmp y x) as Hle2 by (apply le_cmp_opp; by rewrite Hxy).
  destruct (cmp y z) eqn:Hyz.
  - assert (le_cmp x z) as H1 by (apply (cmp_le_trans _ y); [done|unfold le_cmp; by rewrite Hyz]).
    assert (le_cmp z x) as H2.
    { apply (cmp_le_trans _ y); [apply le_cmp_opp; by rewrite Hyz|done]. }
    apply le_cmp_opp in H2. unfold le_cmp in H1. by destruct (cmp x z).
  - by apply (cmp_le_lt_trans _ y).
  - rewrite cmp_opp, (cmp_lt_le_trans z y x); [done| |done]. by rewrite cmp_opp, Hyz.
Qed.

Lemma insert_sorted_perm x l : Permutation (insert_sorted x l) (x :: l).
Proof.
  induction l as [|y l IH]; simpl; [done|].
  destruct (cmp x y); [| done |]; by rewrite IH, perm_swap.
Qed.

(** The sort permutes its input. *)
Lemma stable_sort_perm l : Permutation (stable_sort l) l.
Proof.
  unfold stable_sort. rewrite <-(app_nil_l l) at 2. generalize (@nil A).
  induction l as [|x l IH]; intros acc; simpl; [by rewrite app_nil_r|].
  rewrite IH, insert_sorted_perm. by rewrite <-Permutation_middle.
Qed.

Lemma insert_sorted_hdrel x y l :
  HdRel le_cmp y l → le_cmp y x → HdRel le_cmp y (insert_sorted x l).
Proof.
  intros Hhd Hyx. destruct l as [|z l]; simpl; [by constructor|].
  inversion Hhd; subst. destruct (cmp x z); by constructor.
Qed.

Lemma insert_sorted_sorted x l : Sorted le_cmp l → Sorted le_cmp (insert_sorted x l).
Proof.
  induction 1 as [|y l Hl IH Hhd]; simpl; [by repeat constructor|].
  destruct (cmp x y) eqn:Hxy.
  2:{ constructor; [by constructor|]. constructor. unfold le_cmp. by rewrite Hxy. }
  all: constructor; [done|]; apply insert_sorted_hdrel; [done|].
  all: unfold le_cmp; by rewrite cmp_opp, Hxy.
Qed.

Lemma stable_sort_sorted l : Sorted le_cmp (stable_sort l).
Proof.
  unfold stable_sort. assert (Sorted le_cmp (@nil A)) as Hnil by constructor.
  revert Hnil. generalize (@nil A). induction l as [|x l IH]; intros acc Hacc; simpl; [done|].
  apply IH. by apply insert_sorted_sorted.
Qed.

(** Stability: restricted to the elements equivalent to some [z], the
    sorted list is the input list. *)
Definition equiv_to (z x : A) : bool := bool_decide (cmp x z = Eq).

Lemma equiv_to_eq z x y : cmp x y = Eq → equiv_to z x = equiv_to z y.
Proof. intros Hxy. unfold equiv_to. by rewrite (cmp_eq_subst x y z Hxy). Qed.

Lemma cmp_eq_subst_r x y z : cmp x y = Eq → cmp z x = cmp z y.
Proof.
  intros Hxy. rewrite (cmp_opp x z), (cmp_opp y z).
  by rewrite (cmp_eq_subst x y z Hxy).
Qed.

Lemma lt_not_equiv z x y : cmp x y = Lt → equiv_to z x = true → equiv_to z y = false.
Proof.
  unfold equiv_to. rewrite !bool_decide_eq_true, bool_decide_eq_false.
  intros Hxy Hxz Hyz. rewrite <-(cmp_eq_subst_r x z y Hxz), cmp_opp, Hxy in Hyz.
  done.
Qed.

Lemma insert_sorted_filter z x l :
  Sorted le_cmp l →
  List.filter (equiv_to z) (insert_sorted x l) =
  List.filter (equiv_to z) l ++ (if equiv_to z x then [x] else []).
Proof.
  intros Hl. apply Sorted_StronglySorted in Hl; [|exact cmp_le_trans].
  induction Hl as [|y l Hl IH Hall]; simpl; [by destruct (equiv_to z x)|].
  destruct (cmp x y) eqn:Hxy; simpl.
  2:{ destruct (equiv_to z x) eqn:Hx; [|by rewrite app_nil_r].
      rewrite (lt_not_equiv z x y Hxy Hx).
      rewrite (filter_ext_in (equiv_to z) (λ _, false)), filter_false; [done|].
      intros t Ht%list_elem_of_In. rewrite Forall_forall in Hall.
      apply (lt_not_equiv z x); [|done]. eapply cmp_lt_le_trans; eauto. }
  all: rewrite IH; by destruct (equiv_to z y).
Qed.

Lemma stable_sort_filter_acc z acc l :
  Sorted le_cmp acc →
  List.filter (equiv_to z) (foldl (λ acc x, insert_sorted x acc) acc l) =
  List.filter (equiv_to z) acc ++ List.filter (equiv_to z) l.
Proof.
  revert acc. induction l as [|x l IH]; intros acc Hacc; simpl; [by rewrite app_nil_r|].
  rewrite IH by (by apply insert_sorted_sorted).
  rewrite insert_sorted_filter by done. rewrite <-app_assoc. by destruct (equiv_to z x).
Qed.

(** The sort is correct: it permutes its input, its output is sorted,
    and the elements equivalent to any [z] appear in their input order. *)
Lemma stable_sort_correct l :
  Permutation (stable_sort l) l ∧ Sorted le_cmp (stable_sort l) ∧
  ∀ z, List.filter (equiv_to z) (stable_sort l) = List.filter (equiv_to z) l.
Proof.
  split; [apply stable_sort_perm|]. split; [apply stable_sort_sorted|].
  intros z. unfold stable_sort. rewrite stable_sort_filter_acc by constructor. done.
Qed.

End stable_sort.

(** Sorting the images of a list is sorting the list by its images. *)
Section stable_sort_map.
Context {A B : Type} (cmp : A → A → comparison) (f : B → A).

Lemma insert_sorted_map x l :
  insert_sorted cmp (f x) (f <$> l) = f <$> insert_sorted (λ a b, cmp (f a) (f b)) x l.
Proof.
  induction l as [|y l IH]; [done|]. rewrite fmap_cons. simpl.
  destruct (cmp (f x) (f y)); by rewrite ?fmap_cons, ?IH.
Qed.

Lemma stable_sort_map l : stable_sort cmp (f <$> l) = f <$> stable_sort (λ a b, cmp (f a) (f b)) l.
Proof.
  unfold stable_sort. change (@nil A) with (f <$> @nil B). generalize (@nil B).
  induction l as [|x l IH]; intros acc; [done|]. rewrite fmap_cons. simpl.
  by rewrite insert_sorted_map, IH.
Qed.
End stable_sort_map.
