(* ===== verification/Frame.v ===== *)
(** * The pandas primitives the backend calls

    A [pandas.DataFrame] as the backend uses it: named, typed columns over
    rows of cells.  The operations are the calls [eager/pandas_table.py]
    makes: [df[name]], [df[[names]]], [df.rename(columns=...)],
    [df.assign(...)], [df.loc[mask]] and [df.sort_values(by, ascending,
    kind='mergesort')]; [df.merge] is in [Merge].
    pandas is a library the sources call, not part of them: these are
    modelled from pandas' documented behaviour, restricted to what the
    backend can reach (see the root file's header for what is left out).

    The row index is not modelled: a series assigned to a frame is aligned
    on the first positions, a shorter one filled with missing values (as a
    reindex on a default index does); a boolean mask of another length
    raises pandas' [IndexingError].  Cells compare as Python compares
    them ([True == 1]). *)

From S2P Require Import Prelude StableSort.
From Stdlib Require Import OrdersEx Sorted Permutation.

(** ** Cells, series, frames *)

(** A numpy dtype: its one-character [kind] and its name. *)
Record np_dtype := mkNpDtype { dt_kind : ascii; dt_name : string }.

#[export] Instance np_dtype_eq_dec : EqDecision np_dtype.
Proof. solve_decision. Defined.

Definition np_int64 := mkNpDtype "i" "int64".
Definition np_bool := mkNpDtype "b" "bool".
Definition np_object := mkNpDtype "O" "object".

(** A cell: an integer, a boolean, a string or a missing value. *)
Inductive cell := CInt (z : Z) | CBool (b : bool) | CStr (s : string) | CNull.

#[export] Instance cell_eq_dec : EqDecision cell.
Proof. solve_decision. Defined.
#[export] Instance cell_inhabited : Inhabited cell := populate CNull.

Record series := mkSeries { ser_dtype : np_dtype; ser_data : list cell }.

(** Columns in order, each with its dtype, and the rows. *)
Record frame := mkFrame { fr_cols : list (string * np_dtype); fr_rows : list (list cell) }.

(** A well-formed frame: distinct column names, every row as wide as the
    header. *)
Definition frame_wf (df : frame) : Prop :=
  NoDup (fr_cols df).*1 ∧ Forall (λ r, length r = length (fr_cols df)) (fr_rows df).

Definition col_index (df : frame) (key : string) : option nat :=
  fst <$> list_find (λ c, c.1 = key) (fr_cols df).

Definition frame_keys (df : frame) : list string := (fr_cols df).*1.

(** ** [df[key]] *)

Definition df_getitem (df : frame) (key : string) : result series :=
  match list_find (λ c, c.1 = key) (fr_cols df) with
  | Some (i, (_, dt)) => Ok (mkSeries dt (omap (λ r, r !! i) (fr_rows df)))
  | None => raise! KeyError key
  end.

(** ** [df[[k1, ..., kn]]] *)

Definition df_select (df : frame) (keys : list string) : result frame :=
  idx ← mapM (λ k, match col_index df k with
                   | Some i => Ok i
                   | None => raise! KeyError k
                   end) keys;
  Ok (mkFrame (omap (λ i, fr_cols df !! i) idx)
              ((λ r, omap (λ i, r !! i) idx) <$> fr_rows df)).

(** ** [df.rename(columns=mapping)]: names absent from the mapping stay. *)

Definition dict_lookup {K V} `{EqDecision K} (d : list (K * V)) (k : K) : option V :=
  (λ ikv : nat * (K * V), ikv.2.2) <$> list_find (λ kv, kv.1 = k) d.

Definition df_rename (df : frame) (mapping : list (string * string)) : frame :=
  mkFrame ((λ '(n, dt), (default n (dict_lookup mapping n), dt)) <$> fr_cols df) (fr_rows df).

(** ** [df.assign(...)] *)

(** A value the backend computes: a series or a Python scalar. *)
Inductive pval := PSeries (s : series) | PScalar (c : cell).

(** The dtype pandas gives a broadcast scalar. *)
Definition scalar_dtype (c : cell) : np_dtype :=
  match c with
  | CInt _ => np_int64
  | CBool _ => np_bool
  | CStr _ | CNull => np_object
  end.

(** A column that receives missing values: integers become floats,
    booleans become objects. *)
Definition np_float64 := mkNpDtype "f" "float64".

Definition nullable_dtype (dt : np_dtype) : np_dtype :=
  if bool_decide (dt_kind dt = "i"%char) then np_float64
  else if bool_decide (dt_kind dt = "b"%char) then np_object
  else dt.

(** The column [v] becomes in a frame of [n] rows.  A scalar is broadcast
    to every row.  A series is aligned on the frame's index; the index is
    not modelled, the series and the frame share their first positions: a
    longer series is cut, a shorter one is filled with missing values,
    which makes an integer or boolean column nullable, as pandas' reindex
    does. *)
Definition column_of (n : nat) (v : pval) : result (np_dtype * list cell) :=
  match v with
  | PSeries s =>
      let m := length (ser_data s) in
      Ok (if decide (n ≤ m) then ser_dtype s else nullable_dtype (ser_dtype s),
          take n (ser_data s) ++ replicate (n - m) CNull)
  | PScalar c => Ok (scalar_dtype c, replicate n c)
  end.

(** One keyword of [assign]: replace the column in place, or append it. *)
Definition assign_one (df : frame) (key : string) (v : pval) : result frame :=
  '(dt, data) ← column_of (length (fr_rows df)) v;
  match col_index df key with
  | Some i => Ok (mkFrame (<[i := (key, dt)]> (fr_cols df))
                          (zip_with (λ r c, <[i := c]> r) (fr_rows df) data))
  | None => Ok (mkFrame (fr_cols df ++ [(key, dt)])
                        (zip_with (λ r c, r ++ [c]) (fr_rows df) data))
  end.

Definition df_assign (df : frame) (cols : list (string * pval)) : result frame :=
  foldl (λ acc '(k, v), d ← acc; assign_one d k v) (Ok df) cols.

(** ** [df.loc[condition]] with a boolean condition *)

Definition bool_cells (l : list cell) : option (list bool) :=
  mapM (λ c, match c with CBool b => Some b | _ => None end) l.

Fixpoint mask_rows {A} (rows : list A) (mask : list bool) : list A :=
  match rows, mask with
  | r :: rs, true :: ms => r :: mask_rows rs ms
  | _ :: rs, false :: ms => mask_rows rs ms
  | _, _ => []
  end.

Definition df_loc_mask (df : frame) (cond : pval) : result frame :=
  match cond with
  | PSeries s =>
      match bool_cells (ser_data s) with
      | Some m =>
          if decide (length m = length (fr_rows df))
          then Ok (mkFrame (fr_cols df) (mask_rows (fr_rows df) m))
          else raise! IndexingError "Unalignable boolean Series provided as indexer"
      | None => raise! ValueError "Cannot mask with non-boolean array containing NA / NaN values"
      end
  | PScalar _ => raise! KeyError "scalar label"
  end.

(** ** [df.sort_values(by, ascending, kind='mergesort')] *)

(** Cells compare as Python compares them: numbers numerically (a
    [bool] is an [int], [True == 1]), strings by code points; a column that
    mixes numbers and strings cannot be sorted (Python raises [TypeError]
    on [<] between them), so the kind rank below only keeps the comparison
    total. *)
Definition cell_rank (c : cell) : nat :=
  match c with CBool _ | CInt _ => 0 | CStr _ => 1 | CNull => 2 end.

Definition cell_num (c : cell) : option Z :=
  match c with CInt z => Some z | CBool b => Some (Z.b2z b) | _ => None end.

Definition cell_compare (a b : cell) : comparison :=
  match cell_num a, cell_num b with
  | Some x, Some y => Z.compare x y
  | _, _ =>
      match a, b with
      | CStr x, CStr y => String_as_OT.compare x y
      | _, _ => Nat.compare (cell_rank a) (cell_rank b)
      end
  end.

(** One sort key: ascending or descending, missing values last either way
    ([na_position='last']). *)
Definition key_compare (asc : bool) (a b : cell) : comparison :=
  match a, b with
  | CNull, CNull => Eq
  | CNull, _ => Gt
  | _, CNull => Lt
  | _, _ => if asc then cell_compare a b else cell_compare b a
  end.

(** Several keys, most significant first. *)
Fixpoint row_compare (keys : list (nat * bool)) (r1 r2 : list cell) : comparison :=
  match keys with
  | [] => Eq
  | (i, asc) :: ks =>
      match key_compare asc (nth i r1 CNull) (nth i r2 CNull) with
      | Eq => row_compare ks r1 r2
      | c => c
      end
  end.

(** The non-missing cells of a column all have one kind. *)
Definition homogeneous (cells : list cell) : bool :=
  match filter (λ c, c ≠ CNull) cells with
  | [] => true
  | c :: cs => forallb (λ d, bool_decide (cell_rank d = cell_rank c)) cs
  end.

(** The sort keys: each [by] column's position with its direction. *)
Definition sort_keys (df : frame) (by_ : list string) (ascending : list bool)
    : result (list (nat * bool)) :=
  idx ← mapM (λ k, match col_index df k with
                   | Some i => Ok i
                   | None => raise! KeyError k
                   end) by_;
  if decide (length ascending ≠ length by_)
  then raise! ValueError "Length of ascending != length of by"
  else Ok (zip idx ascending).

Definition df_sort_values (df : frame) (by_ : list string) (ascending : list bool)
    : result frame :=
  keys ← sort_keys df by_ ascending;
  if forallb (λ '(i, _), homogeneous ((λ r, nth i r CNull) <$> fr_rows df)) keys
  then Ok (mkFrame (fr_cols df) (stable_sort (row_compare keys) (fr_rows df)))
  else raise! TypeError "'<' not supported between instances of different types".

(** *** The comparisons are total orders *)

Section compspec.
Context {A : Type} (cmp : A → A → comparison) (lt : A → A → Prop) `{!StrictOrder lt}.
Hypothesis Hspec : ∀ x y, CompSpec eq lt x y (cmp x y).

Let Hirr a : ¬ lt a a := StrictOrder_Irreflexive a.
Let Htr a b c : lt a b → lt b c → lt a c := StrictOrder_Transitive a b c.

Lemma compspec_opp x y : cmp y x = CompOpp (cmp x y).
Proof.
  destruct (Hspec x y), (Hspec y x); subst; try done; exfalso.
  all: try by eapply Hirr.
  all: eapply Hirr, Htr; eassumption.
Qed.

Lemma compspec_le_trans x y z : cmp x y ≠ Gt → cmp y z ≠ Gt → cmp x z ≠ Gt.
Proof.
  intros Hxy Hyz Hxz.
  destruct (Hspec x y), (Hspec y z); try done; destruct (Hspec x z); subst; try done.
  all: eapply Hirr.
  all: try (eapply Htr; eassumption).
  eapply Htr; [eassumption|]. eapply Htr; eassumption.
Qed.

Lemma compspec_eq x y : cmp x y = Eq ↔ x = y.
Proof.
  destruct (Hspec x y) as [| Hlt| Hlt]; split; try done; intros ->;
    exfalso; by eapply Hirr.
Qed.
End compspec.

Lemma cell_compare_opp a b : cell_compare b a = CompOpp (cell_compare a b).
Proof.
  destruct a, b; cbn [cell_compare cell_num]; try reflexivity;
    first [apply (compspec_opp _ _ Z.compare_spec)
          |apply (compspec_opp _ _ String_as_OT.compare_spec)].
Qed.

Lemma cell_compare_le_trans a b c :
  cell_compare a b ≠ Gt → cell_compare b c ≠ Gt → cell_compare a c ≠ Gt.
Proof.
  destruct a, b, c; cbn [cell_compare cell_num]; try done;
    first [apply (compspec_le_trans _ _ Z.compare_spec)
          |apply (compspec_le_trans _ _ String_as_OT.compare_spec)].
Qed.

Lemma cell_compare_refl a : cell_compare a a = Eq.
Proof.
  destruct a; cbn [cell_compare cell_num]; try apply Z.compare_refl; [|done].
  by apply (compspec_eq _ _ String_as_OT.compare_spec).
Qed.

Lemma key_compare_opp asc a b : key_compare asc b a = CompOpp (key_compare asc a b).
Proof. destruct a, b, asc; cbn [key_compare]; try done; apply cell_compare_opp. Qed.

Lemma key_compare_le_trans asc a b c :
  key_compare asc a b ≠ Gt → key_compare asc b c ≠ Gt → key_compare asc a c ≠ Gt.
Proof.
  destruct asc; destruct a, b, c; cbn [key_compare]; try done.
  all: first [apply cell_compare_le_trans | intros H1 H2; by apply (cell_compare_le_trans _ _ _ H2 H1)].
Qed.

Lemma key_compare_refl asc a : key_compare asc a a = Eq.
Proof. destruct asc, a; cbn [key_compare]; try done; apply cell_compare_refl. Qed.

(** The cells of a row under the sort keys. *)
Definition key_proj (keys : list (nat * bool)) (r : list cell) : list cell :=
  (λ '(i, _), nth i r CNull) <$> keys.

Lemma row_compare_opp keys r1 r2 : row_compare keys r2 r1 = CompOpp (row_compare keys r1 r2).
Proof.
  induction keys as [|[i asc] ks IH]; simpl; [done|].
  rewrite key_compare_opp. by destruct (key_compare asc (nth i r1 CNull) (nth i r2 CNull)).
Qed.

Lemma row_compare_le_trans keys r1 r2 r3 :
  row_compare keys r1 r2 ≠ Gt → row_compare keys r2 r3 ≠ Gt → row_compare keys r1 r3 ≠ Gt.
Proof.
  induction keys as [|[i asc] ks IH]; simpl; [done|].
  pose proof (cmp_eq_subst _ (key_compare_opp asc) (key_compare_le_trans asc)) as Hsubst.
  pose proof (cmp_lt_le_trans _ (key_compare_opp asc) (key_compare_le_trans asc)) as Hlt.
  destruct (key_compare asc (nth i r1 CNull) (nth i r2 CNull)) eqn:Hab,
           (key_compare asc (nth i r2 CNull) (nth i r3 CNull)) eqn:Hbc; try done; intros H1 H2.
  - rewrite (Hsubst _ _ _ Hab), Hbc. by apply IH.
  - by rewrite (Hsubst _ _ _ Hab), Hbc.
  - rewrite (Hlt _ _ _ Hab); [done|]. unfold le_cmp. by rewrite Hbc.
  - rewrite (Hlt _ _ _ Hab); [done|]. unfold le_cmp. by rewrite Hbc.
Qed.

(** Rows with the same cells under the keys compare equal. *)
Lemma row_compare_proj keys r1 r2 : key_proj keys r1 = key_proj keys r2 → row_compare keys r1 r2 = Eq.
Proof.
  induction keys as [|[i asc] ks IH]; simpl; [done|]. intros [= Heq Hks].
  rewrite Heq, key_compare_refl. by apply IH.
Qed.

Lemma filter_filter_sub {A} (p q : A → bool) (l : list A) :
  (∀ x, p x = true → q x = true) → List.filter p (List.filter q l) = List.filter p l.
Proof.
  intros Hpq. induction l as [|x l IH]; simpl; [done|].
  destruct (q x) eqn:Hq; simpl; rewrite IH; [done|].
  destruct (p x) eqn:Hp; [|done]. by rewrite Hpq in Hq.
Qed.

(** [sort_values] keeps the columns; its rows are a permutation of the
    input rows, sorted by the keys, and rows with equal key cells keep their
    relative order. *)
Lemma df_sort_values_spec df by_ ascending df' :
  df_sort_values df by_ ascending = Ok df' →
  ∃ keys, sort_keys df by_ ascending = Ok keys ∧ fr_cols df' = fr_cols df ∧
    Permutation (fr_rows df') (fr_rows df) ∧
    Sorted (λ r1 r2, row_compare keys r1 r2 ≠ Gt) (fr_rows df') ∧
    ∀ r, List.filter (λ r', bool_decide (key_proj keys r' = key_proj keys r)) (fr_rows df') =
         List.filter (λ r', bool_decide (key_proj keys r' = key_proj keys r)) (fr_rows df).
Proof.
  unfold df_sort_values. intros (keys & Hkeys & H)%bind_Ok.
  destruct (forallb _ keys); [|done]. injection H as <-. simpl.
  destruct (stable_sort_correct (row_compare keys) (row_compare_opp keys)
              (row_compare_le_trans keys) (fr_rows df)) as (Hperm & Hsorted & Hstable).
  exists keys. do 3 (split; [done|]). split; [done|].
  intros r. specialize (Hstable r). unfold equiv_to in Hstable.
  set (q := λ x, bool_decide (row_compare keys x r = Eq)).
  set (p := λ r', bool_decide (key_proj keys r' = key_proj keys r)).
  rewrite <-(filter_filter_sub p q (fr_rows df)), <-(filter_filter_sub p q (stable_sort _ _)).
  - unfold q. by rewrite Hstable.
  - intros r' ?%bool_decide_eq_true. by apply bool_decide_eq_true, row_compare_proj.
  - intros r' ?%bool_decide_eq_true. by apply bool_decide_eq_true, row_compare_proj.
Qed.

(** ** The pandas operations keep frames well formed *)

Abbreviation rows_wide n rows := (Forall (λ r : list cell, length r = n) rows).

Lemma column_of_length n v dt data : column_of n v = Ok (dt, data) → length data = n.
Proof.
  destruct v; simpl; intros [= <- <-]; rewrite ?length_app, ?length_take, length_replicate; lia.
Qed.

Lemma col_index_Some df k i : col_index df k = Some i → (fr_cols df).*1 !! i = Some k.
Proof.
  unfold col_index. intros ([i' c] & Hf & [= ->])%fmap_Some.
  apply list_find_Some in Hf as (Hi & Hk & _). rewrite list_lookup_fmap, Hi. simpl. by subst.
Qed.

Lemma col_index_None df k : col_index df k = None → k ∉ (fr_cols df).*1.
Proof.
  unfold col_index. intros ?%fmap_None%list_find_None Hin.
  apply list_elem_of_fmap in Hin as ([k' dt] & -> & Hin). rewrite Forall_forall in H. by apply (H _ Hin).
Qed.

Lemma zip_with_wide {A} (f : list cell → A → list cell) rows data n m :
  rows_wide n rows → (∀ r a, length r = n → length (f r a) = m) → rows_wide m (zip_with f rows data).
Proof.
  intros Hrows Hf. apply Forall_lookup_2. intros j r' Hj.
  rewrite lookup_zip_with in Hj. destruct (rows !! j) as [r|] eqn:Hr; [|done].
  destruct (data !! j) as [a|]; [|done]. simpl in Hj. injection Hj as <-.
  apply Hf. by apply (proj1 (Forall_lookup _ _) Hrows j r).
Qed.

Lemma assign_one_wf df k v df' : frame_wf df → assign_one df k v = Ok df' → frame_wf df'.
Proof.
  intros [Hnd Hrows]. unfold assign_one.
  destruct (column_of _ v) as [[dt data]|] eqn:Hc; [|done]. simpl.
  destruct (col_index df k) as [i|] eqn:Hi; intros [= <-]; split; simpl.
  - rewrite list_fmap_insert. simpl. by rewrite list_insert_id by (by apply col_index_Some).
  - eapply zip_with_wide; [done|]. intros r c Hr. by rewrite !length_insert, Hr.
  - rewrite fmap_app. apply NoDup_app. split; [done|]. split; [|apply NoDup_singleton].
    intros x Hx ->%list_elem_of_singleton. by apply (col_index_None df k).
  - eapply zip_with_wide; [done|]. intros r c Hr. by rewrite !length_app, Hr.
Qed.

Lemma df_assign_wf df cols df' : frame_wf df → df_assign df cols = Ok df' → frame_wf df'.
Proof.
  unfold df_assign. revert df. induction cols as [|[k v] cols IH]; intros df Hwf; simpl.
  - by intros [= <-].
  - destruct (assign_one df k v) as [d|e] eqn:Ha; simpl.
    + apply IH. by eapply assign_one_wf.
    + clear. induction cols as [|[k' v'] cols IH]; simpl; [done|]. done.
Qed.

Lemma mask_rows_Forall {A} (P : A → Prop) rows m : Forall P rows → Forall P (mask_rows rows m).
Proof.
  intros H. revert m. induction H as [|r rows Hr _ IH]; intros [|[] ms]; simpl; auto.
Qed.

Lemma df_loc_mask_wf df c df' : frame_wf df → df_loc_mask df c = Ok df' → frame_wf df'.
Proof.
  intros [Hnd Hrows]. unfold df_loc_mask. destruct c as [s|]; [|done].
  destruct (bool_cells _); [|done]. case_decide; [|done]. intros [= <-].
  split; [done|]. by apply mask_rows_Forall.
Qed.

Lemma df_sort_values_wf df by_ asc df' : frame_wf df → df_sort_values df by_ asc = Ok df' → frame_wf df'.
Proof.
  intros [Hnd Hrows]. unfold df_sort_values. intros (keys & _ & H)%bind_Ok.
  destruct (forallb _ _); [|done]. injection H as <-. split; [done|]. simpl.
  eapply Permutation_Forall; [symmetry; apply stable_sort_perm|done].
Qed.
