(* ===== verification/FrameColumns.v ===== *)
(** * Reading a frame column by key

    What [df[key]] gives after the frame operations the verbs apply: the
    cells of a column of a well-formed frame, by position
    ([frame_column]); [df.assign] sets the assigned keys and leaves every
    other key's cells alone, and never raises; [df.loc] with a boolean mask masks
    every column alike. *)

From S2P Require Import Prelude StableSort Frame.

(** The cells stored under [k]: the column [df[k]] returns. *)
Definition frame_column (d : frame) (k : string) : option (list cell) :=
  (λ i, omap (λ r, r !! i) (fr_rows d)) <$> col_index d k.

(** The cells a value becomes in a frame of [n] rows: a series aligned on
    the first [n] positions, a scalar broadcast. *)
Definition value_cells (n : nat) (v : pval) : list cell :=
  match v with
  | PSeries s => take n (ser_data s) ++ replicate (n - length (ser_data s)) CNull
  | PScalar c => replicate n c
  end.

(** The row positions in the order [sort_values] puts the rows: a stable
    sort of the positions by their rows' key cells. *)
Definition sort_perm (keys : list (nat * bool)) (rows : list (list cell)) : list nat :=
  stable_sort (λ i j, row_compare keys (rows !!! i) (rows !!! j)) (seq 0 (length rows)).

Lemma df_getitem_frame_column d k :
  (λ s, ser_data s) <$> result_to_option (df_getitem d k) = frame_column d k.
Proof.
  unfold df_getitem, frame_column, col_index.
  by destruct (list_find _ (fr_cols d)) as [[i [n dt]]|].
Qed.

Lemma column_of_cells n v dt data : column_of n v = Ok (dt, data) → data = value_cells n v.
Proof. destruct v; simpl; by intros [= <- <-]. Qed.

(** Positions depend on the names only. *)
Lemma col_index_alt d k : col_index d k = fst <$> list_find (λ n, n = k) (fr_cols d).*1.
Proof.
  unfold col_index. rewrite list_find_fmap.
  by destruct (list_find _ (fr_cols d)) as [[i [n dt]]|].
Qed.

Lemma col_index_names d1 d2 k : (fr_cols d1).*1 = (fr_cols d2).*1 → col_index d1 k = col_index d2 k.
Proof. rewrite !col_index_alt. by intros ->. Qed.

Lemma frame_column_None d k : k ∉ frame_keys d → frame_column d k = None.
Proof.
  intros Hk. unfold frame_column. rewrite col_index_alt.
  destruct (list_find _ _) as [[i x]|] eqn:Hf; [|done]. exfalso. apply Hk.
  apply list_find_Some in Hf as (Hx & -> & _). by eapply list_elem_of_lookup_2.
Qed.

Lemma frame_column_Some d k : k ∈ frame_keys d → is_Some (frame_column d k).
Proof.
  intros Hk. unfold frame_column. rewrite col_index_alt.
  destruct (list_find_elem_of (λ n, n = k) (fr_cols d).*1 k) as [[i x] Hf]; [done|done|].
  by rewrite Hf.
Qed.

(** ** Cells of a position after a row-wise update *)

Section rows.
Context (rows : list (list cell)) (data : list cell).
Hypothesis Hlen : length data = length rows.

Lemma omap_insert_ne i j :
  j ≠ i → omap (λ r, r !! j) (zip_with (λ r c, <[i := c]> r) rows data) = omap (λ r, r !! j) rows.
Proof.
  intros Hij. revert data Hlen. induction rows as [|r rs IH]; intros [|c cs] Hl; simpl in *; try done.
  rewrite list_lookup_insert_ne by done. rewrite IH by lia. done.
Qed.

Lemma omap_insert_eq i :
  Forall (λ r : list cell, i < length r) rows →
  omap (λ r, r !! i) (zip_with (λ r c, <[i := c]> r) rows data) = data.
Proof.
  intros Hw. revert data Hlen. induction Hw as [|r rs Hr _ IH]; intros [|c cs] Hl; simpl in *; try done.
  rewrite list_lookup_insert by done. rewrite decide_True by done. rewrite IH by lia. done.
Qed.

Lemma omap_append_lt w j :
  rows_wide w rows → j < w →
  omap (λ r, r !! j) (zip_with (λ r c, r ++ [c]) rows data) = omap (λ r, r !! j) rows.
Proof.
  intros Hw Hj. revert data Hlen. induction Hw as [|r rs Hr _ IH]; intros [|c cs] Hl; simpl in *; try done.
  rewrite lookup_app_l by lia. rewrite IH by lia. done.
Qed.

Lemma omap_append_eq w :
  rows_wide w rows → omap (λ r, r !! w) (zip_with (λ r c, r ++ [c]) rows data) = data.
Proof.
  intros Hw. revert data Hlen. induction Hw as [|r rs Hr _ IH]; intros [|c cs] Hl; simpl in *; try done.
  rewrite lookup_app_r by lia. rewrite Hr, Nat.sub_diag. simpl. rewrite IH by lia. done.
Qed.

Lemma length_zip_with_rows {B} (f : list cell → cell → B) : length (zip_with f rows data) = length rows.
Proof. rewrite length_zip_with. lia. Qed.
End rows.

(** A position found for a key lies inside every row of a well-formed frame. *)
Lemma col_index_lt d k i : col_index d k = Some i → i < length (fr_cols d).
Proof. intros Hi%col_index_Some. rewrite <-(length_fmap fst). by eapply lookup_lt_Some. Qed.

Lemma rows_wide_lt w i rows : rows_wide w rows → i < w → Forall (λ r : list cell, i < length r) rows.
Proof. intros Hw Hi. eapply Forall_impl; [done|]. intros r Hr. simpl in Hr. lia. Qed.

Lemma col_index_append d k dt rows' k' :
  col_index d k = None →
  col_index (mkFrame (fr_cols d ++ [(k, dt)]) rows') k' =
    if decide (k' = k) then Some (length (fr_cols d)) else col_index d k'.
Proof.
  rewrite !col_index_alt. simpl. rewrite fmap_app. simpl. intros Hk%fmap_None.
  case_decide as Hkk; [subst k'|].
  - rewrite list_find_app_r by done. simpl. rewrite decide_True by done. simpl. by rewrite length_fmap.
  - destruct (list_find (λ n, n = k') (fr_cols d).*1) as [[j x]|] eqn:Hj.
    + by rewrite (list_find_app_l _ _ _ j x).
    + rewrite list_find_app_r by done. simpl. by rewrite decide_False by congruence.
Qed.

(** [assign] of one key keeps the number of rows, gives the key the cells
    of the value, and leaves every other key's cells alone. *)
Lemma assign_one_column d k v d' k' :
  frame_wf d → assign_one d k v = Ok d' →
  length (fr_rows d') = length (fr_rows d) ∧
  frame_column d' k' = if decide (k' = k) then Some (value_cells (length (fr_rows d)) v)
                       else frame_column d k'.
Proof.
  intros [Hnd Hrows]. unfold assign_one.
  destruct (column_of _ v) as [[dt data]|] eqn:Hc; [|done]. simpl.
  pose proof (column_of_length _ _ _ _ Hc) as Hl. apply column_of_cells in Hc as Hdata.
  destruct (col_index d k) as [i|] eqn:Hi; intros [= <-]; (split; [by apply length_zip_with_rows|]);
    unfold frame_column; simpl.
  - rewrite (col_index_names _ d k').
    2:{ simpl. rewrite list_fmap_insert. simpl. by rewrite list_insert_id by (by apply col_index_Some). }
    case_decide as Hkk; [subst k'|].
    + rewrite Hi. simpl. rewrite omap_insert_eq; [by subst|lia|].
      eapply rows_wide_lt; [done|]. by apply (col_index_lt d k).
    + destruct (col_index d k') as [j|] eqn:Hj; simpl; [|done]. rewrite omap_insert_ne; [done|lia|].
      intros ->. apply col_index_Some in Hi, Hj. congruence.
  - rewrite col_index_append by done. case_decide as Hkk; simpl.
    + rewrite omap_append_eq; [by subst|lia|done].
    + destruct (col_index d k') as [j|] eqn:Hj; simpl; [|done].
      rewrite (omap_append_lt _ _ Hl (length (fr_cols d))); [done|done|by apply (col_index_lt d k')].
Qed.

Lemma df_assign_cons d k v cols :
  df_assign d ((k, v) :: cols) = d1 ← assign_one d k v; df_assign d1 cols.
Proof.
  unfold df_assign. simpl. destruct (assign_one d k v) as [d1|e]; [done|]. simpl.
  clear. induction cols as [|[k' v'] cols IH]; [done|]. exact IH.
Qed.

(** After [assign], a key holds the cells of the last value assigned to it,
    or its old cells when none was. *)
Definition assigned_cells (n : nat) (k : string) (acc : option (list cell))
    (cols : list (string * pval)) : option (list cell) :=
  foldl (select_step (λ kv, k = kv.1) (λ kv, value_cells n kv.2)) acc cols.

Lemma df_assign_column d cols d' k :
  frame_wf d → df_assign d cols = Ok d' →
  length (fr_rows d') = length (fr_rows d) ∧
  frame_column d' k = assigned_cells (length (fr_rows d)) k (frame_column d k) cols.
Proof.
  revert d. induction cols as [|[k0 v0] cols IH]; intros d Hwf.
  - by intros [= <-].
  - rewrite df_assign_cons. intros (d1 & Ha & Hrest)%bind_Ok.
    destruct (assign_one_column d k0 v0 d1 k Hwf Ha) as [Hn1 Hk1].
    destruct (IH d1 (assign_one_wf _ _ _ _ Hwf Ha) Hrest) as [Hn2 Hk2].
    split; [lia|]. rewrite Hk2, Hk1, Hn1. done.
Qed.

(** ** [assign] never raises *)

Lemma assign_one_rows d k v d' : assign_one d k v = Ok d' → length (fr_rows d') = length (fr_rows d).
Proof.
  unfold assign_one. destruct (column_of _ v) as [[dt data]|] eqn:Hc; [|done]. simpl.
  apply column_of_length in Hc. destruct (col_index d k); intros [= <-]; simpl; rewrite length_zip_with; lia.
Qed.

(** Every value, series of any length or scalar, can be assigned. *)
Lemma df_assign_Ok d cols : ∃ d', df_assign d cols = Ok d'.
Proof.
  revert d. induction cols as [|[k v] cols IH]; intros d; [by eexists|].
  rewrite df_assign_cons. unfold assign_one at 1.
  destruct v; simpl; destruct (col_index d k); simpl; apply IH.
Qed.

Lemma omap_mask_rows {A B} (f : A → option B) rows m :
  Forall (λ r, is_Some (f r)) rows → omap f (mask_rows rows m) = mask_rows (omap f rows) m.
Proof.
  intros Hall. revert m. induction Hall as [|r rs [b Hb] _ IH]; intros [|[] ms]; simpl; try done.
  - by rewrite Hb.
  - rewrite Hb. simpl. by rewrite IH.
  - by rewrite Hb, IH.
Qed.

(** [df.loc[mask]] with a boolean series keeps the frame's columns and
    masks every column alike with the series' cells. *)
Lemma df_loc_mask_column d c d' :
  frame_wf d → df_loc_mask d c = Ok d' →
  ∃ s m, c = PSeries s ∧ bool_cells (ser_data s) = Some m ∧ length m = length (fr_rows d) ∧
    ∀ k, frame_column d' k = (λ cs, mask_rows cs m) <$> frame_column d k.
Proof.
  intros [Hnd Hrows]. unfold df_loc_mask. destruct c as [s|]; [|done].
  destruct (bool_cells _) as [m|] eqn:Hb; [|done]. case_decide as Hm; [|done]. intros [= <-].
  exists s, m. do 3 (split; [done|]). intros k. unfold frame_column, col_index. simpl.
  destruct (list_find _ (fr_cols d)) as [[i x]|] eqn:Hi; simpl; [|done]. f_equal.
  apply omap_mask_rows. eapply Forall_impl; [done|]. intros r Hr. simpl in Hr.
  apply lookup_lt_is_Some. apply list_find_Some in Hi as (Hx & _). apply lookup_lt_Some in Hx. lia.
Qed.

(** ** Cells of a column after [sort_values] *)

Lemma rows_by_index {A} `{!Inhabited A} (l : list A) : l = (λ i, l !!! i) <$> seq 0 (length l).
Proof.
  apply list_eq. intros i. rewrite list_lookup_fmap.
  destruct (decide (i < length l)).
  - rewrite lookup_seq_lt by done. simpl. by rewrite list_lookup_lookup_total_lt.
  - rewrite lookup_seq_ge, lookup_ge_None_2 by lia. done.
Qed.

Lemma omap_fmap_compose {A B C} (f : B → option C) (g : A → B) (l : list A) : omap f (g <$> l) = omap (f ∘ g) l.
Proof. induction l as [|a l IH]; csimpl; [done|]. by rewrite IH. Qed.

(** Where [f] succeeds on every element, [omap f] keeps the positions. *)
Lemma lookup_omap_total {A B} (f : A → option B) (l : list A) i :
  Forall (λ a, is_Some (f a)) l → omap f l !! i = l !! i ≫= f.
Proof.
  intros Hall. revert i. induction Hall as [|a l [b Hb] _ IH]; intros i; [done|].
  csimpl. rewrite Hb. destruct i as [|i]; [done|]. apply IH.
Qed.

Lemma omap_ext_Forall {A B} (f g : A → option B) (l : list A) : Forall (λ a, f a = g a) l → omap f l = omap g l.
Proof. induction 1 as [|a l Ha _ IH]; [done|]. csimpl. by rewrite Ha, IH. Qed.

Lemma sort_perm_perm keys rows : Permutation (sort_perm keys rows) (seq 0 (length rows)).
Proof. apply stable_sort_perm. Qed.

(** A stable sort of the rows is the rows at the sorted positions. *)
Lemma stable_sort_rows keys rows :
  stable_sort (row_compare keys) rows = (λ i, rows !!! i) <$> sort_perm keys rows.
Proof. rewrite (rows_by_index rows) at 1. apply stable_sort_map. Qed.

(** [sort_values] keeps the frame's columns and permutes every column
    alike, by the stable sort of the row positions. *)
Lemma df_sort_values_column d by_ asc d' :
  frame_wf d → df_sort_values d by_ asc = Ok d' →
  ∃ keys, sort_keys d by_ asc = Ok keys ∧
    ∀ k, frame_column d' k = (λ cs, omap (λ i, cs !! i) (sort_perm keys (fr_rows d))) <$> frame_column d k.
Proof.
  intros [_ Hrows]. unfold df_sort_values. intros (keys & Hk & H)%bind_Ok.
  destruct (forallb _ _); [|done]. injection H as <-. exists keys. split; [done|]. intros k.
  unfold frame_column, col_index. simpl.
  destruct (list_find _ (fr_cols d)) as [[j x]|] eqn:Hj; simpl; [|done]. f_equal.
  apply list_find_Some in Hj as (Hx & _). apply lookup_lt_Some in Hx.
  rewrite stable_sort_rows, omap_fmap_compose. apply omap_ext_Forall, Forall_forall.
  intros i Hi. apply list_elem_of_In, (Permutation_in _ (sort_perm_perm keys _)), list_elem_of_In,
    elem_of_seq in Hi.
  rewrite lookup_omap_total.
  - rewrite (list_lookup_lookup_total_lt (fr_rows d) i) by lia. done.
  - eapply Forall_impl; [done|]. intros r Hr. apply lookup_lt_is_Some. simpl in *. lia.
Qed.
