(* ===== verification/Merge.v ===== *)
(** * [df.merge] and the rows it builds

    The join verb's [self.df.merge(right.df, how=how, left_on=left_on,
    right_on=right_on)], modelled from pandas' documented behaviour: the
    key columns by name, the rows of each [how] ([inner], [left], [right],
    [outer]), the dtypes of the columns that receive missing values, and
    the errors of an unknown [how], of missing keys, of key lists of
    different lengths and of overlapping column names (suffixing is not
    modelled).  A merge keeps frames well formed.  An inner merge holds
    exactly the concatenations of a left and a right row whose key cells
    agree, each left row in order followed by its matches in right order;
    a left merge keeps every left row, in order, once per match or once
    padded with missing cells when it has none.  Every [how] is also
    given by row positions ([inner_pairs], [left_pairs], [right_pairs],
    [outer_pairs]: the outer merge is the left merge's pairs and the
    unmatched right positions, stably sorted by the join key of their
    rows), with the cells each column of the merged frame holds
    ([merged_column]). *)

From S2P Require Import Prelude StableSort Frame FrameColumns.

(** ** [df.merge(right, how=how, left_on=..., right_on=...)] *)

(** The columns of one side when a merge pads some rows with missing
    values: each takes its nullable dtype; when no row is padded pandas
    keeps the dtypes. *)
Definition pad_cols (padded : bool) (cols : list (string * np_dtype)) : list (string * np_dtype) :=
  if padded then (λ '(n, dt), (n, nullable_dtype dt)) <$> cols else cols.

Definition key_positions (df : frame) (keys : list string) : result (list nat) :=
  mapM (λ k, match col_index df k with
             | Some i => Ok i
             | None => raise! KeyError k
             end) keys.

Definition row_key (idx : list nat) (r : list cell) : list cell := (λ i, nth i r CNull) <$> idx.

Section merge_rows.
Context (lidx ridx : list nat) (lrows rrows : list (list cell)) (lw rw : nat).

Definition matches_of (l : list cell) : list (list cell) :=
  List.filter (λ r, bool_decide (row_key ridx r = row_key lidx l)) rrows.

(** inner: each left row, in order, with its matches in right order. *)
Definition inner_rows : list (list cell) :=
  l ← lrows; (λ r, l ++ r) <$> matches_of l.

(** left: as inner, a left row without match padded with missing cells. *)
Definition left_rows : list (list cell) :=
  l ← lrows;
  match matches_of l with
  | [] => [l ++ replicate rw CNull]
  | ms => (λ r, l ++ r) <$> ms
  end.

(** Some left row has no match: a left or outer merge pads it. *)
Definition left_unmatched : bool :=
  existsb (λ l, bool_decide (matches_of l = [])) lrows.

(** Some right row has no match: a right or outer merge pads it. *)
Definition right_unmatched : bool :=
  existsb (λ r, bool_decide (List.filter (λ l, bool_decide (row_key lidx l = row_key ridx r)) lrows = []))
    rrows.

(** right: each right row, in order, with its matches in left order. *)
Definition right_rows : list (list cell) :=
  r ← rrows;
  match List.filter (λ l, bool_decide (row_key lidx l = row_key ridx r)) lrows with
  | [] => [replicate lw CNull ++ r]
  | ms => (λ l, l ++ r) <$> ms
  end.

(** outer: the left join plus the unmatched right rows, sorted by the
    join key (the left cells, or the right ones for a right-only row). *)
Definition outer_key (row : list cell) : list cell :=
  (λ '(i, j), match nth i row CNull with CNull => nth (lw + j) row CNull | c => c end)
    <$> zip lidx ridx.

Definition outer_rows : list (list cell) :=
  let unmatched := List.filter (λ r, bool_decide (List.filter
                     (λ l, bool_decide (row_key lidx l = row_key ridx r)) lrows = [])) rrows in
  let n := length lidx in
  stable_sort (λ a b, row_compare (zip (seq 0 n) (replicate n true)) (outer_key a) (outer_key b))
    (left_rows ++ ((λ r, replicate lw CNull ++ r) <$> unmatched)).
End merge_rows.

Definition df_merge (left right : frame) (how : string) (left_on right_on : list string)
    : result frame :=
  let lw := length (fr_cols left) in
  let rw := length (fr_cols right) in
  if bool_decide (how = "cross")
  then raise! MergeError "Can not pass on, right_on, left_on or set right_index=True or left_index=True"
  else if negb (bool_decide (how ∈ ["inner"; "left"; "right"; "outer"]))
  then raise! ValueError ("'" +:+ how +:+ "' is not a valid Merge type")
  else
  lidx ← key_positions left left_on;
  ridx ← key_positions right right_on;
  if decide (length left_on ≠ length right_on)
  then raise! ValueError "len(right_on) must equal len(left_on)"
  else if existsb (λ k, bool_decide (k ∈ frame_keys right)) (frame_keys left)
  then raise! MergeError "overlapping column names: suffixing is not modelled"
  else
  let lrows := fr_rows left in
  let rrows := fr_rows right in
  let lnull := pad_cols (right_unmatched lidx ridx lrows rrows) (fr_cols left) in
  let rnull := pad_cols (left_unmatched lidx ridx lrows rrows) (fr_cols right) in
  if bool_decide (how = "inner")
  then Ok (mkFrame (fr_cols left ++ fr_cols right) (inner_rows lidx ridx lrows rrows))
  else if bool_decide (how = "left")
  then Ok (mkFrame (fr_cols left ++ rnull) (left_rows lidx ridx lrows rrows rw))
  else if bool_decide (how = "right")
  then Ok (mkFrame (lnull ++ fr_cols right) (right_rows lidx ridx lrows rrows lw))
  else Ok (mkFrame (lnull ++ rnull) (outer_rows lidx ridx lrows rrows lw rw)).


(** The row pairs of an inner merge, by position: each left position with
    the right positions whose key cells match it, left-major. *)
Definition inner_pairs (lidx ridx : list nat) (lrows rrows : list (list cell)) : list (nat * nat) :=
  i ← seq 0 (length lrows);
  (λ j, (i, j)) <$> List.filter (λ j, bool_decide (row_key ridx (rrows !!! j) = row_key lidx (lrows !!! i)))
                      (seq 0 (length rrows)).

(** The row pairs of a left merge, by position: each left position with
    the right positions whose key cells match it, or with none when no
    right row matches. *)
Definition left_pairs (lidx ridx : list nat) (lrows rrows : list (list cell)) : list (nat * option nat) :=
  i ← seq 0 (length lrows);
  match List.filter (λ j, bool_decide (row_key ridx (rrows !!! j) = row_key lidx (lrows !!! i)))
                    (seq 0 (length rrows)) with
  | [] => [(i, None)]
  | js => (λ j, (i, Some j)) <$> js
  end.

(** The row pairs of a right merge, by position: each right position with
    the left positions whose key cells match it, or with none when no left
    row matches. *)
Definition right_pairs (lidx ridx : list nat) (lrows rrows : list (list cell)) : list (option nat * nat) :=
  j ← seq 0 (length rrows);
  match List.filter (λ i, bool_decide (row_key lidx (lrows !!! i) = row_key ridx (rrows !!! j)))
                    (seq 0 (length lrows)) with
  | [] => [(None, j)]
  | ks => (λ i, (Some i, j)) <$> ks
  end.

(** The row an outer merge builds from a pair of positions, either of
    which may be missing. *)
Definition outer_row (lrows rrows : list (list cell)) (lw rw : nat) (p : option nat * option nat)
    : list cell :=
  match p.1 with Some i => lrows !!! i | None => replicate lw CNull end ++
  match p.2 with Some j => rrows !!! j | None => replicate rw CNull end.

(** The order of an outer merge's rows: by the join key, ascending. *)
Definition outer_cmp (lidx ridx : list nat) (lw : nat) (a b : list cell) : comparison :=
  let n := length lidx in
  row_compare (zip (seq 0 n) (replicate n true)) (outer_key lidx ridx lw a) (outer_key lidx ridx lw b).

(** The row pairs of an outer merge, by position: the pairs of the left
    merge and the unmatched right positions, stably sorted by the join key
    of the rows they make. *)
Definition outer_pairs (lidx ridx : list nat) (lrows rrows : list (list cell)) (lw rw : nat)
    : list (option nat * option nat) :=
  let unmatched := List.filter (λ j, bool_decide (List.filter
                     (λ l, bool_decide (row_key lidx l = row_key ridx (rrows !!! j))) lrows = []))
                     (seq 0 (length rrows)) in
  stable_sort (λ a b, outer_cmp lidx ridx lw (outer_row lrows rrows lw rw a) (outer_row lrows rrows lw rw b))
    (((λ p, (Some p.1, p.2)) <$> left_pairs lidx ridx lrows rrows) ++ ((λ j, (None, Some j)) <$> unmatched)).

(** Two frames to merge on [k = k2]. *)

Definition merge_left_ex : frame :=
  mkFrame [("k", np_int64); ("x", np_object)]
          [[CInt 1; CStr "a"]; [CInt 2; CStr "b"]; [CInt 1; CStr "c"]].
Definition merge_right_ex : frame :=
  mkFrame [("k2", np_int64); ("y", np_bool)] [[CInt 1; CBool true]; [CInt 3; CBool false]; [CInt 1; CBool false]].

(** Their inner merge. *)
Definition merge_inner_ex : frame :=
  mkFrame [("k", np_int64); ("x", np_object); ("k2", np_int64); ("y", np_bool)]
    [[CInt 1; CStr "a"; CInt 1; CBool true]; [CInt 1; CStr "a"; CInt 1; CBool false];
     [CInt 1; CStr "c"; CInt 1; CBool true]; [CInt 1; CStr "c"; CInt 1; CBool false]].

(** ** A merge keeps frames well formed *)

Lemma nullable_names b (cols : list (string * np_dtype)) : (pad_cols b cols).*1 = cols.*1.
Proof. destruct b; [|done]. simpl. rewrite <-list_fmap_compose. apply list_fmap_ext. by intros ? []. Qed.

Lemma pad_cols_length b cols : length (pad_cols b cols) = length cols.
Proof. destruct b; [apply length_fmap|done]. Qed.

Section merge_wide.
Context (lidx ridx : list nat) (lrows rrows : list (list cell)) (lw rw : nat).
Hypothesis Hl : rows_wide lw lrows.
Hypothesis Hr : rows_wide rw rrows.

Lemma matches_wide l : rows_wide rw (matches_of lidx ridx rrows l).
Proof. by apply Forall_list_filter. Qed.

Lemma join_wide l ms : length l = lw → rows_wide rw ms → rows_wide (lw + rw) ((λ r, l ++ r) <$> ms).
Proof. intros Hlen Hms. apply Forall_fmap. eapply Forall_impl; [done|]. intros r Hr'. simpl in *. rewrite length_app. lia. Qed.

Lemma inner_rows_wide : rows_wide (lw + rw) (inner_rows lidx ridx lrows rrows).
Proof.
  apply Forall_bind. eapply Forall_impl; [done|]. intros l Hlen. simpl in Hlen. apply join_wide; [done|apply matches_wide].
Qed.

Lemma left_rows_wide : rows_wide (lw + rw) (left_rows lidx ridx lrows rrows rw).
Proof.
  apply Forall_bind. eapply Forall_impl; [done|]. intros l Hlen. simpl in Hlen. unfold compose.
  pose proof (matches_wide l) as Hm. destruct (matches_of lidx ridx rrows l) as [|m ms] eqn:E.
  - repeat constructor. rewrite length_app, length_replicate. lia.
  - rewrite <-E in Hm |- *. by apply join_wide.
Qed.

Lemma right_rows_wide : rows_wide (lw + rw) (right_rows lidx ridx lrows rrows lw).
Proof.
  apply Forall_bind. eapply Forall_impl; [exact Hr|]. intros r Hlen. simpl in Hlen. unfold compose.
  assert (Hm : rows_wide lw (List.filter (λ l, bool_decide (row_key lidx l = row_key ridx r)) lrows))
    by (by apply Forall_list_filter).
  destruct (List.filter _ lrows) as [|m ms] eqn:E.
  - repeat constructor. rewrite length_app, length_replicate. lia.
  - rewrite <-E in Hm |- *. apply Forall_fmap. eapply Forall_impl; [exact Hm|]. intros l Hl'. simpl in *. rewrite length_app. lia.
Qed.

Lemma outer_rows_wide : rows_wide (lw + rw) (outer_rows lidx ridx lrows rrows lw rw).
Proof.
  unfold outer_rows. eapply Permutation_Forall; [symmetry; apply stable_sort_perm|].
  apply Forall_app. split; [apply left_rows_wide|].
  apply Forall_fmap. eapply Forall_impl; [apply Forall_list_filter, Hr|]. intros r Hlen. simpl in *.
  rewrite length_app, length_replicate. lia.
Qed.
End merge_wide.

Lemma df_merge_wf left right how lo ro d :
  frame_wf left → frame_wf right → df_merge left right how lo ro = Ok d → frame_wf d.
Proof.
  intros [Hndl Hl] [Hndr Hr]. unfold df_merge.
  case_bool_decide; [done|]. case_bool_decide; [|done]. simpl.
  intros (lidx & _ & Hm)%bind_Ok. apply bind_Ok in Hm as (ridx & _ & Hm). revert Hm.
  case_decide; [done|]. destruct (existsb _ _) eqn:Hov; [done|].
  assert (Hdis : NoDup ((fr_cols left).*1 ++ (fr_cols right).*1)).
  { apply NoDup_app. split; [done|]. split; [|done]. intros k Hk Hk'.
    assert (existsb (λ k, bool_decide (k ∈ frame_keys right)) (frame_keys left) = true); [|congruence].
    apply existsb_exists. exists k. split; [by apply list_elem_of_In|by apply bool_decide_eq_true]. }
  repeat case_bool_decide; intros [= <-]; split; simpl;
    rewrite ?fmap_app, ?nullable_names, ?length_app, ?pad_cols_length; try done.
  - by apply inner_rows_wide.
  - by apply left_rows_wide.
  - by apply right_rows_wide.
  - by apply outer_rows_wide.
Qed.

(** ** The rows of a merge *)

Section merge_rows_spec.
Context (lidx ridx : list nat) (lrows rrows : list (list cell)) (lw rw : nat).

Lemma matches_of_elem l r :
  r ∈ matches_of lidx ridx rrows l ↔ r ∈ rrows ∧ row_key ridx r = row_key lidx l.
Proof.
  unfold matches_of. rewrite !list_elem_of_In, filter_In, bool_decide_eq_true. done.
Qed.

(** Joining one left row to its matches. *)
Lemma join_take (l : list cell) (ms : list (list cell)) : take (length l) <$> ((λ r, l ++ r) <$> ms) = replicate (length ms) l.
Proof. induction ms as [|m ms IH]; [done|]. by rewrite !fmap_cons, take_app_length, IH. Qed.

Lemma join_drop (l : list cell) (ms : list (list cell)) : drop (length l) <$> ((λ r, l ++ r) <$> ms) = ms.
Proof. induction ms as [|m ms IH]; [done|]. by rewrite !fmap_cons, drop_app_length, IH. Qed.

Lemma inner_rows_elem x :
  x ∈ inner_rows lidx ridx lrows rrows ↔
  ∃ l r, l ∈ lrows ∧ r ∈ rrows ∧ row_key ridx r = row_key lidx l ∧ x = l ++ r.
Proof.
  unfold inner_rows. rewrite list_elem_of_bind. split.
  - intros (l & Hx & Hl). apply list_elem_of_fmap in Hx as (r & -> & Hr).
    rewrite matches_of_elem in Hr. exists l, r. naive_solver.
  - intros (l & r & Hl & Hr & Hk & ->). exists l. split; [|done].
    apply list_elem_of_fmap. exists r. split; [done|]. by apply matches_of_elem.
Qed.

Hypothesis Hlw : Forall (λ l : list cell, length l = lw) lrows.

(** Cut at the left width, an inner merge lists each left row once per
    match; the rest of each row is the match. *)
Lemma inner_rows_left : take lw <$> inner_rows lidx ridx lrows rrows =
  l ← lrows; replicate (length (matches_of lidx ridx rrows l)) l.
Proof.
  unfold inner_rows. induction Hlw as [|l ls Hl Hls IH]; [done|].
  rewrite !bind_cons, fmap_app, IH by done. cbv beta. by rewrite <-Hl, join_take.
Qed.

Lemma inner_rows_right : drop lw <$> inner_rows lidx ridx lrows rrows =
  l ← lrows; matches_of lidx ridx rrows l.
Proof.
  unfold inner_rows. induction Hlw as [|l ls Hl Hls IH]; [done|].
  rewrite !bind_cons, fmap_app, IH by done. cbv beta. by rewrite <-Hl, join_drop.
Qed.

Lemma left_rows_left : take lw <$> left_rows lidx ridx lrows rrows rw =
  l ← lrows; replicate (1 `max` length (matches_of lidx ridx rrows l)) l.
Proof.
  unfold left_rows. induction Hlw as [|l ls Hl Hls IH]; [done|].
  rewrite !bind_cons, fmap_app, IH by done. cbv beta. rewrite <-Hl. f_equal.
  destruct (matches_of lidx ridx rrows l) as [|m ms] eqn:E; cbv beta iota.
  - by rewrite fmap_cons, take_app_length.
  - rewrite <-E, join_take, E. done.
Qed.

Lemma left_rows_right : drop lw <$> left_rows lidx ridx lrows rrows rw =
  l ← lrows; match matches_of lidx ridx rrows l with [] => [replicate rw CNull] | ms => ms end.
Proof.
  unfold left_rows. induction Hlw as [|l ls Hl Hls IH]; [done|].
  rewrite !bind_cons, fmap_app, IH by done. cbv beta. rewrite <-Hl. f_equal.
  destruct (matches_of lidx ridx rrows l) as [|m ms] eqn:E; cbv beta iota.
  - by rewrite fmap_cons, drop_app_length.
  - rewrite <-E, join_drop, E. done.
Qed.
End merge_rows_spec.

(** ** [df.merge] on the frames *)

(** A merge that returns found both key lists among the columns, with
    equal lengths, and built the rows of its [how]. *)
Lemma df_merge_Ok left right how lo ro d :
  df_merge left right how lo ro = Ok d →
  ∃ lidx ridx, key_positions left lo = Ok lidx ∧ key_positions right ro = Ok ridx ∧
    length lo = length ro ∧ (∀ k, k ∈ frame_keys left → k ∉ frame_keys right) ∧
    (how = "inner" → d = mkFrame (fr_cols left ++ fr_cols right)
                               (inner_rows lidx ridx (fr_rows left) (fr_rows right))) ∧
    (how = "left" → d = mkFrame (fr_cols left ++ pad_cols (left_unmatched lidx ridx (fr_rows left) (fr_rows right))
                                                           (fr_cols right))
                              (left_rows lidx ridx (fr_rows left) (fr_rows right) (length (fr_cols right)))).
Proof.
  unfold df_merge. case_bool_decide; [done|]. case_bool_decide; [|done]. simpl.
  intros (lidx & Hl & Hm)%bind_Ok. apply bind_Ok in Hm as (ridx & Hr & Hm).
  exists lidx, ridx. split; [done|]. split; [done|]. revert Hm.
  case_decide; [done|]. destruct (existsb _ _) eqn:Hov; [done|].
  assert (Hdis : ∀ k, k ∈ frame_keys left → k ∉ frame_keys right).
  { intros k Hk Hk'. assert (existsb (λ k, bool_decide (k ∈ frame_keys right)) (frame_keys left) = true)
      by (apply existsb_exists; exists k; split; [by apply list_elem_of_In|by apply bool_decide_eq_true]).
    congruence. }
  repeat case_bool_decide; intros [= <-]; (split; [lia|]); (split; [done|]); split; intros; by simplify_eq.
Qed.

(** an inner [merge] holds exactly the concatenations of a left row and
    a right row whose cells under [left_on] and [right_on] agree; cut at the
    left width its rows list each left row, in order, once per matching
    right row. *)
Theorem df_merge_inner left right lo ro d :
  frame_wf left → df_merge left right "inner" lo ro = Ok d →
  ∃ lidx ridx, key_positions left lo = Ok lidx ∧ key_positions right ro = Ok ridx ∧
    fr_cols d = fr_cols left ++ fr_cols right ∧
    (∀ x, x ∈ fr_rows d ↔ ∃ l r, l ∈ fr_rows left ∧ r ∈ fr_rows right ∧
                                row_key ridx r = row_key lidx l ∧ x = l ++ r) ∧
    take (length (fr_cols left)) <$> fr_rows d =
      (l ← fr_rows left; replicate (length (matches_of lidx ridx (fr_rows right) l)) l).
Proof.
  intros [_ Hw] (lidx & ridx & Hl & Hr & _ & _ & Hd & _)%df_merge_Ok.
  rewrite (Hd eq_refl). exists lidx, ridx. do 3 (split; [done|]). simpl. split.
  - apply inner_rows_elem.
  - by apply inner_rows_left.
Qed.

(** a left [merge] keeps every left row: cut at the left width its rows
    list each left row, in order, once per matching right row or once when
    it has none, and the rest of each row is the match or missing cells. *)
Theorem df_merge_left left right lo ro d :
  frame_wf left → df_merge left right "left" lo ro = Ok d →
  ∃ lidx ridx, key_positions left lo = Ok lidx ∧ key_positions right ro = Ok ridx ∧
    take (length (fr_cols left)) <$> fr_rows d =
      (l ← fr_rows left; replicate (1 `max` length (matches_of lidx ridx (fr_rows right) l)) l) ∧
    drop (length (fr_cols left)) <$> fr_rows d =
      (l ← fr_rows left; match matches_of lidx ridx (fr_rows right) l with
                         | [] => [replicate (length (fr_cols right)) CNull] | ms => ms end).
Proof.
  intros [_ Hw] (lidx & ridx & Hl & Hr & _ & _ & _ & Hd)%df_merge_Ok.
  rewrite (Hd eq_refl). exists lidx, ridx. do 2 (split; [done|]). simpl. split.
  - by apply left_rows_left.
  - by apply left_rows_right.
Qed.

(** The left merge of the examples: the unmatched key [2] is kept, padded. *)
Lemma ex_merge_left_rows :
  (fr_rows <$> result_to_option (df_merge merge_left_ex merge_right_ex "left" ["k"] ["k2"])) =
  Some [[CInt 1; CStr "a"; CInt 1; CBool true]; [CInt 1; CStr "a"; CInt 1; CBool false];
        [CInt 2; CStr "b"; CNull; CNull];
        [CInt 1; CStr "c"; CInt 1; CBool true]; [CInt 1; CStr "c"; CInt 1; CBool false]].
Proof. vm_compute. reflexivity. Qed.

(** ** The inner merge by row positions *)

Lemma filter_fmap_swap {A B} (p : B → bool) (f : A → B) (l : list A) :
  List.filter p (f <$> l) = f <$> List.filter (p ∘ f) l.
Proof. induction l as [|a l IH]; csimpl; [done|]. destruct (p (f a)); csimpl; by rewrite IH. Qed.

Lemma filter_index {A} `{!Inhabited A} (p : A → bool) (l : list A) :
  List.filter p l = (λ j, l !!! j) <$> List.filter (λ j, p (l !!! j)) (seq 0 (length l)).
Proof.
  transitivity (List.filter p ((λ j, l !!! j) <$> seq 0 (length l))); [by rewrite <-rows_by_index|].
  apply filter_fmap_swap.
Qed.

Lemma bind_index {A B} `{!Inhabited A} (g : A → list B) (l : list A) :
  l ≫= g = seq 0 (length l) ≫= (λ i, g (l !!! i)).
Proof. rewrite (rows_by_index l) at 1. by rewrite list_fmap_bind. Qed.

Lemma fmap_bind_distr {A B C} (h : B → C) (g : A → list B) (l : list A) :
  h <$> (l ≫= g) = l ≫= (λ a, h <$> g a).
Proof. induction l as [|a l IH]; [done|]. by rewrite !bind_cons, fmap_app, IH. Qed.

(** The inner merge lists, for each pair of positions, the left row
    followed by the right row. *)
Lemma inner_rows_pairs lidx ridx lrows rrows :
  inner_rows lidx ridx lrows rrows =
  (λ p, lrows !!! p.1 ++ rrows !!! p.2) <$> inner_pairs lidx ridx lrows rrows.
Proof.
  unfold inner_rows, inner_pairs. rewrite bind_index, fmap_bind_distr.
  apply list_bind_ext; [|done]. intros i. unfold matches_of.
  rewrite filter_index, <-!list_fmap_compose. by apply list_fmap_ext.
Qed.

Lemma inner_pairs_bounds lidx ridx lrows rrows p :
  p ∈ inner_pairs lidx ridx lrows rrows → p.1 < length lrows ∧ p.2 < length rrows.
Proof.
  unfold inner_pairs. rewrite list_elem_of_bind. intros (i & Hp & Hi%elem_of_seq).
  apply list_elem_of_fmap in Hp as (j & -> & Hj). apply list_elem_of_In, filter_In in Hj as [Hj _].
  apply list_elem_of_In, elem_of_seq in Hj. simpl. lia.
Qed.

(** A cell of a well-formed frame, read by row or by column. *)
Lemma column_cell rows w i p :
  rows_wide w rows → i < w → p < length rows → (rows !!! p) !! i = omap (λ r, r !! i) rows !! p.
Proof.
  intros Hw Hi Hp. rewrite lookup_omap_total.
  - by rewrite (list_lookup_lookup_total_lt rows p).
  - eapply Forall_impl; [by eapply rows_wide_lt|]. intros r Hr. by apply lookup_lt_is_Some.
Qed.

(** Positions in a frame with the columns of [left] then those of [right]. *)
Lemma col_index_app left right cr rows k :
  cr.*1 = (fr_cols right).*1 →
  col_index (mkFrame (fr_cols left ++ cr) rows) k =
  match col_index left k with
  | Some i => Some i
  | None => (λ j, length (fr_cols left) + j) <$> col_index right k
  end.
Proof.
  intros Hcr. rewrite !col_index_alt. simpl. rewrite fmap_app, Hcr.
  destruct (list_find (λ n, n = k) (fr_cols left).*1) as [[i x]|] eqn:Hl; simpl.
  - by rewrite (list_find_app_l _ _ _ i x).
  - rewrite list_find_app_r by done. rewrite length_fmap.
    destruct (list_find _ (fr_cols right).*1) as [[j y]|]; simpl; [|done]. f_equal. lia.
Qed.

(** Positions in a frame whose columns are named as those of [left] then
    those of [right]. *)
Lemma col_index_app2 left right cl cr rows k :
  cl.*1 = (fr_cols left).*1 → cr.*1 = (fr_cols right).*1 →
  col_index (mkFrame (cl ++ cr) rows) k =
  match col_index left k with
  | Some i => Some i
  | None => (λ j, length (fr_cols left) + j) <$> col_index right k
  end.
Proof.
  intros Hcl Hcr. rewrite <-(col_index_app left right cr rows k Hcr), !col_index_alt. simpl.
  by rewrite !fmap_app, Hcl.
Qed.

(** The columns of a frame whose rows are a left part, as wide as the
    left frame, then a right part. *)
Lemma merged_column {A} left right cl cr (P : list A) (lrow rrow : A → list cell) k :
  cl.*1 = (fr_cols left).*1 → cr.*1 = (fr_cols right).*1 →
  Forall (λ p, length (lrow p) = length (fr_cols left)) P →
  frame_column (mkFrame (cl ++ cr) ((λ p, lrow p ++ rrow p) <$> P)) k =
  match col_index left k with
  | Some i => Some (omap (λ p, lrow p !! i) P)
  | None => (λ j, omap (λ p, rrow p !! j) P) <$> col_index right k
  end.
Proof.
  intros Hcl Hcr Hw. unfold frame_column. rewrite (col_index_app2 left right) by done. simpl.
  destruct (col_index left k) as [i|] eqn:Hi; simpl.
  - f_equal. rewrite omap_fmap_compose. apply omap_ext_Forall. eapply Forall_impl; [done|].
    intros p Hp. simpl in *. pose proof (col_index_lt _ _ _ Hi). by rewrite lookup_app_l by lia.
  - destruct (col_index right k) as [j|]; simpl; [|done]. f_equal.
    rewrite omap_fmap_compose. apply omap_ext_Forall. eapply Forall_impl; [done|].
    intros p Hp. simpl in *. rewrite lookup_app_r by lia. f_equal. lia.
Qed.

(** A cell of a row that may be missing (then padded with missing cells). *)
Lemma opt_row_cell rows w i (o : option nat) :
  rows_wide w rows → i < w → (∀ j, o = Some j → j < length rows) →
  (match o with Some j => rows !!! j | None => replicate w CNull end) !! i =
  match o with Some j => omap (λ r, r !! i) rows !! j | None => Some CNull end.
Proof.
  intros Hw Hi Ho. destruct o as [j|]; [by apply (column_cell _ w), Ho|by rewrite lookup_replicate_2].
Qed.

Lemma opt_row_length rows w (o : option nat) :
  rows_wide w rows → (∀ j, o = Some j → j < length rows) →
  length (match o with Some j => rows !!! j | None => replicate w CNull end) = w.
Proof.
  intros Hw Ho. destruct o as [j|]; [|apply length_replicate].
  apply (Forall_lookup_total_1 _ _ _ Hw). by apply Ho.
Qed.

(** After an inner merge, a column of the left frame holds its cells at
    the left positions of the row pairs, and a column of the right frame
    its cells at the right positions. *)
Lemma df_merge_inner_column left right lo ro d :
  frame_wf left → frame_wf right → df_merge left right "inner" lo ro = Ok d →
  ∃ lidx ridx, key_positions left lo = Ok lidx ∧ key_positions right ro = Ok ridx ∧
    ∀ k, frame_column d k =
      match frame_column left k with
      | Some cs => Some (omap (λ p, cs !! p.1) (inner_pairs lidx ridx (fr_rows left) (fr_rows right)))
      | None => (λ cs, omap (λ p, cs !! p.2) (inner_pairs lidx ridx (fr_rows left) (fr_rows right))) <$>
                  frame_column right k
      end.
Proof.
  intros [_ Hl] [_ Hr] (lidx & ridx & Hlk & Hrk & _ & Hov & Hd & _)%df_merge_Ok.
  rewrite (Hd eq_refl). exists lidx, ridx. do 2 (split; [done|]). intros k.
  set (P := inner_pairs lidx ridx (fr_rows left) (fr_rows right)).
  assert (HP : ∀ p, p ∈ P → p.1 < length (fr_rows left) ∧ p.2 < length (fr_rows right))
    by apply inner_pairs_bounds.
  rewrite inner_rows_pairs. fold P. rewrite (merged_column left right); [|done|done|].
  2:{ apply Forall_forall. intros p [Hp _]%HP. by apply (Forall_lookup_total_1 _ _ _ Hl). }
  unfold frame_column. destruct (col_index left k) as [i|] eqn:Hi; simpl.
  - f_equal. apply omap_ext_Forall, Forall_forall. intros p [Hp _]%HP.
    apply (column_cell _ (length (fr_cols left))); [done|by eapply col_index_lt|done].
  - destruct (col_index right k) as [j|] eqn:Hj; simpl; [|done]. f_equal.
    apply omap_ext_Forall, Forall_forall. intros p [_ Hp]%HP.
    apply (column_cell _ (length (fr_cols right))); [done|by eapply col_index_lt|done].
Qed.

(** ** The left merge by row positions *)

(** The left merge lists, for each pair of positions, the left row
    followed by the right row, or by missing cells for an unmatched left
    row. *)
Lemma left_rows_pairs lidx ridx lrows rrows rw :
  left_rows lidx ridx lrows rrows rw =
  (λ p, lrows !!! p.1 ++ match p.2 with Some j => rrows !!! j | None => replicate rw CNull end) <$>
    left_pairs lidx ridx lrows rrows.
Proof.
  unfold left_rows, left_pairs. rewrite bind_index, fmap_bind_distr.
  apply list_bind_ext; [|done]. intros i. unfold matches_of. rewrite filter_index.
  destruct (List.filter _ (seq 0 (length rrows))) as [|j js]; csimpl; [done|]. f_equal.
  rewrite <-!list_fmap_compose. by apply list_fmap_ext.
Qed.

Lemma left_pairs_bounds lidx ridx lrows rrows p :
  p ∈ left_pairs lidx ridx lrows rrows →
  p.1 < length lrows ∧ ∀ j, p.2 = Some j → j < length rrows.
Proof.
  unfold left_pairs. rewrite list_elem_of_bind. intros (i & Hp & Hi%elem_of_seq).
  destruct (List.filter _ _) as [|j0 js] eqn:Hf; cbv beta iota in Hp.
  - apply list_elem_of_singleton in Hp as ->. simpl. split; [lia|done].
  - rewrite <-Hf in Hp. apply list_elem_of_fmap in Hp as (j & -> & Hj).
    apply list_elem_of_In, filter_In in Hj as [Hj _]. apply list_elem_of_In, elem_of_seq in Hj.
    simpl. split; [lia|]. intros ? [= <-]. lia.
Qed.

(** After a left merge, a column of the left frame holds its cells at the
    left positions of the row pairs, and a column of the right frame its
    cells at the right positions, or a missing value for an unmatched
    left row. *)
Lemma df_merge_left_column left right lo ro d :
  frame_wf left → frame_wf right → df_merge left right "left" lo ro = Ok d →
  ∃ lidx ridx, key_positions left lo = Ok lidx ∧ key_positions right ro = Ok ridx ∧
    ∀ k, frame_column d k =
      match frame_column left k with
      | Some cs => Some (omap (λ p, cs !! p.1) (left_pairs lidx ridx (fr_rows left) (fr_rows right)))
      | None => (λ cs, omap (λ p, match p.2 with Some j => cs !! j | None => Some CNull end)
                         (left_pairs lidx ridx (fr_rows left) (fr_rows right))) <$> frame_column right k
      end.
Proof.
  intros [_ Hl] [_ Hr] (lidx & ridx & Hlk & Hrk & _ & Hov & _ & Hd)%df_merge_Ok.
  rewrite (Hd eq_refl). exists lidx, ridx. do 2 (split; [done|]). intros k.
  set (P := left_pairs lidx ridx (fr_rows left) (fr_rows right)).
  assert (HP : ∀ p, p ∈ P → p.1 < length (fr_rows left) ∧ ∀ j, p.2 = Some j → j < length (fr_rows right))
    by apply left_pairs_bounds.
  rewrite left_rows_pairs. fold P. rewrite (merged_column left right); [|done|apply nullable_names|].
  2:{ apply Forall_forall. intros p [Hp _]%HP. by apply (Forall_lookup_total_1 _ _ _ Hl). }
  unfold frame_column. destruct (col_index left k) as [i|] eqn:Hi; simpl.
  - f_equal. apply omap_ext_Forall, Forall_forall. intros p [Hp _]%HP.
    apply (column_cell _ (length (fr_cols left))); [done|by eapply col_index_lt|done].
  - destruct (col_index right k) as [j|] eqn:Hj; simpl; [|done]. f_equal.
    apply omap_ext_Forall, Forall_forall. intros p [_ Hp]%HP.
    apply opt_row_cell; [done|by eapply col_index_lt|done].
Qed.

(** ** The right merge by row positions *)

Lemma right_rows_pairs lidx ridx lrows rrows lw :
  right_rows lidx ridx lrows rrows lw =
  (λ p, match p.1 with Some i => lrows !!! i | None => replicate lw CNull end ++ rrows !!! p.2) <$>
    right_pairs lidx ridx lrows rrows.
Proof.
  unfold right_rows, right_pairs. rewrite bind_index, fmap_bind_distr.
  apply list_bind_ext; [|done]. intros j. rewrite filter_index.
  destruct (List.filter _ (seq 0 (length lrows))) as [|i ks]; csimpl; [done|]. f_equal.
  rewrite <-!list_fmap_compose. by apply list_fmap_ext.
Qed.

Lemma right_pairs_bounds lidx ridx lrows rrows p :
  p ∈ right_pairs lidx ridx lrows rrows →
  p.2 < length rrows ∧ ∀ i, p.1 = Some i → i < length lrows.
Proof.
  unfold right_pairs. rewrite list_elem_of_bind. intros (j & Hp & Hj%elem_of_seq).
  destruct (List.filter _ _) as [|i0 ks] eqn:Hf; cbv beta iota in Hp.
  - apply list_elem_of_singleton in Hp as ->. simpl. split; [lia|done].
  - rewrite <-Hf in Hp. apply list_elem_of_fmap in Hp as (i & -> & Hi).
    apply list_elem_of_In, filter_In in Hi as [Hi _]. apply list_elem_of_In, elem_of_seq in Hi.
    simpl. split; [lia|]. intros ? [= <-]. lia.
Qed.

(** A successful right merge. *)
Lemma df_merge_right_Ok left right lo ro d :
  df_merge left right "right" lo ro = Ok d →
  ∃ lidx ridx, key_positions left lo = Ok lidx ∧ key_positions right ro = Ok ridx ∧
    (∀ k, k ∈ frame_keys left → k ∉ frame_keys right) ∧
    d = mkFrame (pad_cols (right_unmatched lidx ridx (fr_rows left) (fr_rows right)) (fr_cols left) ++
                 fr_cols right)
                (right_rows lidx ridx (fr_rows left) (fr_rows right) (length (fr_cols left))).
Proof.
  intros Hd. pose proof Hd as (lidx & ridx & Hl & Hr & _ & Hov & _)%df_merge_Ok.
  exists lidx, ridx. do 3 (split; [done|]). revert Hd. unfold df_merge. simpl.
  rewrite Hl, Hr. simpl. case_decide; [done|]. destruct (existsb _ _); [done|]. by intros [= <-].
Qed.

(** After a right merge, a column of the right frame holds its cells at
    the right positions of the row pairs, and a column of the left frame
    its cells at the left positions, or a missing value for an unmatched
    right row. *)
Lemma df_merge_right_column left right lo ro d :
  frame_wf left → frame_wf right → df_merge left right "right" lo ro = Ok d →
  ∃ lidx ridx, key_positions left lo = Ok lidx ∧ key_positions right ro = Ok ridx ∧
    ∀ k, frame_column d k =
      match frame_column left k with
      | Some cs => Some (omap (λ p, match p.1 with Some i => cs !! i | None => Some CNull end)
                              (right_pairs lidx ridx (fr_rows left) (fr_rows right)))
      | None => (λ cs, omap (λ p, cs !! p.2) (right_pairs lidx ridx (fr_rows left) (fr_rows right))) <$>
                  frame_column right k
      end.
Proof.
  intros [_ Hl] [_ Hr] (lidx & ridx & Hlk & Hrk & Hov & ->)%df_merge_right_Ok.
  exists lidx, ridx. do 2 (split; [done|]). intros k.
  set (P := right_pairs lidx ridx (fr_rows left) (fr_rows right)).
  assert (HP : ∀ p, p ∈ P → p.2 < length (fr_rows right) ∧ ∀ i, p.1 = Some i → i < length (fr_rows left))
    by apply right_pairs_bounds.
  rewrite right_rows_pairs. fold P.
  rewrite (merged_column left right); [|apply nullable_names|done|].
  2:{ apply Forall_forall. intros p [_ Hp]%HP. by apply opt_row_length. }
  unfold frame_column. destruct (col_index left k) as [i|] eqn:Hi; simpl.
  - f_equal. apply omap_ext_Forall, Forall_forall. intros p [_ Hp]%HP.
    apply opt_row_cell; [done|by eapply col_index_lt|done].
  - destruct (col_index right k) as [j|] eqn:Hj; simpl; [|done]. f_equal.
    apply omap_ext_Forall, Forall_forall. intros p [Hp _]%HP.
    apply (column_cell _ (length (fr_cols right))); [done|by eapply col_index_lt|done].
Qed.

(** ** The outer merge by row positions *)

Lemma outer_rows_pairs lidx ridx lrows rrows lw rw :
  outer_rows lidx ridx lrows rrows lw rw = outer_row lrows rrows lw rw <$> outer_pairs lidx ridx lrows rrows lw rw.
Proof.
  unfold outer_pairs. rewrite <-(stable_sort_map (outer_cmp lidx ridx lw) (outer_row lrows rrows lw rw)).
  unfold outer_rows. f_equal. rewrite fmap_app, <-!list_fmap_compose. f_equal.
  - rewrite left_rows_pairs. by apply list_fmap_ext.
  - rewrite filter_index, <-list_fmap_compose. by apply list_fmap_ext.
Qed.

Lemma outer_pairs_bounds lidx ridx lrows rrows lw rw p :
  p ∈ outer_pairs lidx ridx lrows rrows lw rw →
  (∀ i, p.1 = Some i → i < length lrows) ∧ (∀ j, p.2 = Some j → j < length rrows).
Proof.
  unfold outer_pairs. intros Hp%list_elem_of_In. apply (Permutation_in _ (stable_sort_perm _ _)) in Hp.
  apply list_elem_of_In in Hp.
  apply elem_of_app in Hp as [([i o] & -> & Hp)%list_elem_of_fmap|(j & -> & Hj)%list_elem_of_fmap].
  - apply left_pairs_bounds in Hp as [Hi Ho]. simpl in *. split; [by intros ? [= <-]|done].
  - apply list_elem_of_In, filter_In in Hj as [Hj _]. apply list_elem_of_In, elem_of_seq in Hj.
    simpl. split; [done|]. intros ? [= <-]. lia.
Qed.

(** A successful outer merge. *)
Lemma df_merge_outer_Ok left right lo ro d :
  df_merge left right "outer" lo ro = Ok d →
  ∃ lidx ridx, key_positions left lo = Ok lidx ∧ key_positions right ro = Ok ridx ∧
    (∀ k, k ∈ frame_keys left → k ∉ frame_keys right) ∧
    d = mkFrame (pad_cols (right_unmatched lidx ridx (fr_rows left) (fr_rows right)) (fr_cols left) ++
                 pad_cols (left_unmatched lidx ridx (fr_rows left) (fr_rows right)) (fr_cols right))
                (outer_rows lidx ridx (fr_rows left) (fr_rows right)
                            (length (fr_cols left)) (length (fr_cols right))).
Proof.
  intros Hd. pose proof Hd as (lidx & ridx & Hl & Hr & _ & Hov & _)%df_merge_Ok.
  exists lidx, ridx. do 3 (split; [done|]). revert Hd. unfold df_merge. simpl.
  rewrite Hl, Hr. simpl. case_decide; [done|]. destruct (existsb _ _); [done|]. by intros [= <-].
Qed.

(** After an outer merge, a column of either frame holds its cells at that
    frame's positions of the row pairs, or a missing value where the pair
    has no row of that frame. *)
Lemma df_merge_outer_column left right lo ro d :
  frame_wf left → frame_wf right → df_merge left right "outer" lo ro = Ok d →
  ∃ lidx ridx, key_positions left lo = Ok lidx ∧ key_positions right ro = Ok ridx ∧
    ∀ k, frame_column d k =
      let P := outer_pairs lidx ridx (fr_rows left) (fr_rows right)
                           (length (fr_cols left)) (length (fr_cols right)) in
      match frame_column left k with
      | Some cs => Some (omap (λ p, match p.1 with Some i => cs !! i | None => Some CNull end) P)
      | None => (λ cs, omap (λ p, match p.2 with Some j => cs !! j | None => Some CNull end) P) <$>
                  frame_column right k
      end.
Proof.
  intros [_ Hl] [_ Hr] (lidx & ridx & Hlk & Hrk & Hov & ->)%df_merge_outer_Ok.
  exists lidx, ridx. do 2 (split; [done|]). intros k. simpl.
  set (P := outer_pairs lidx ridx (fr_rows left) (fr_rows right) (length (fr_cols left)) (length (fr_cols right))).
  assert (HP : ∀ p, p ∈ P → _) by (intros p; apply outer_pairs_bounds).
  rewrite outer_rows_pairs. fold P. unfold outer_row.
  rewrite (merged_column left right); [|apply nullable_names|apply nullable_names|].
  2:{ apply Forall_forall. intros p [Hp _]%HP. by apply opt_row_length. }
  unfold frame_column. destruct (col_index left k) as [i|] eqn:Hi; simpl.
  - f_equal. apply omap_ext_Forall, Forall_forall. intros p [Hp _]%HP.
    apply opt_row_cell; [done|by eapply col_index_lt|done].
  - destruct (col_index right k) as [j|] eqn:Hj; simpl; [|done]. f_equal.
    apply omap_ext_Forall, Forall_forall. intros p [_ Hp]%HP.
    apply opt_row_cell; [done|by eapply col_index_lt|done].
Qed.
