(* ===== verification/Strip.v ===== *)
(** * The [str.strip] operator

    The backend's operator implementations ([PandasFn]: Python functions
    on series and scalars) and the one [pandas_table.py] registers,
    [@PandasTableImpl.register_op('str.strip', 'object -> object')] over
    [_str_strip], i.e. [x.str.strip()].  Strings are Rocq strings of 8-bit
    characters, read as the code points 0-255.  The [.str] accessor is
    modelled as pandas validates it: the series must have dtype [object]
    and [pandas._libs.lib.infer_dtype] (missing values skipped) must infer
    strings, nothing, or a mix; a series of only integers or only booleans
    raises [AttributeError].  What it computes: [_str_strip] honours its
    registered signature [object -> object] (an [object] series as long as
    its argument, or [AttributeError]), and every string cell of the
    result is the argument's string with exactly its leading and trailing
    Python whitespace removed ([str.isspace]: 9-13, 28-32, 0x85, 0xA0). *)

From S2P Require Import Prelude Expr Registry Frame.

(** ** Backend values and operator implementations *)

(** An implementation registered with the backend: a Python function on
    series and scalars. *)
Abbreviation PandasFn := (list pval → result pval).

(** Python's [str.isspace] on the code points 0-255: the ASCII controls
    9-13 and 28-31, the space, NEL (0x85) and NO-BREAK SPACE (0xA0). *)
Definition py_space (c : ascii) : bool :=
  let n := Ascii.nat_of_ascii c in
  ((9 <=? n) && (n <=? 13) || (28 <=? n) && (n <=? 32) || (n =? 133) || (n =? 160))%nat.

Fixpoint lstrip_ws (s : string) : string :=
  match s with
  | String.String c s' => if py_space c then lstrip_ws s' else s
  | "" => ""
  end.

Definition py_strip (s : string) : string :=
  String.string_of_list_ascii (reverse (String.list_ascii_of_string
    (lstrip_ws (String.string_of_list_ascii (reverse (String.list_ascii_of_string (lstrip_ws s))))))).

(** [pandas._libs.lib.infer_dtype(values, skipna=True)] on the cells of
    an [object] series. *)
Definition cell_is_str (c : cell) : bool := match c with CStr _ => true | _ => false end.
Definition cell_is_int (c : cell) : bool := match c with CInt _ => true | _ => false end.
Definition cell_is_bool (c : cell) : bool := match c with CBool _ => true | _ => false end.

Definition pd_infer_dtype (cells : list cell) : string :=
  match List.filter (λ c, bool_decide (c ≠ CNull)) cells with
  | [] => "empty"
  | vs =>
      if forallb cell_is_str vs then "string"
      else if forallb cell_is_int vs then "integer"
      else if forallb cell_is_bool vs then "boolean"
      else if existsb cell_is_int vs then "mixed-integer"
      else "mixed"
  end.

(** [StringMethods._validate]: the [.str] accessor exists on an [object]
    series whose inferred type is one of these. *)
Definition str_accessor_ok (x : series) : bool :=
  bool_decide (dt_kind (ser_dtype x) = "O"%char) &&
  bool_decide (pd_infer_dtype (ser_data x) ∈ ["string"; "empty"; "bytes"; "mixed"; "mixed-integer"]).

Definition strip_cell (c : cell) : cell :=
  match c with CStr s => CStr (py_strip s) | _ => CNull end.

(** [@PandasTableImpl.register_op('str.strip', 'object -> object')]
    [def _str_strip(x): return x.str.strip()]: a non-string cell of a
    mixed series becomes missing. *)
Definition _str_strip (args : list pval) : result pval :=
  match args with
  | [PSeries x] =>
      if str_accessor_ok x
      then Ok (PSeries (mkSeries np_object (strip_cell <$> ser_data x)))
      else raise! AttributeError "Can only use .str accessor with string values!"
  | [PScalar _] => raise! AttributeError "object has no attribute 'str'"
  | _ => raise! TypeError "_str_strip() takes 1 positional argument"
  end.

Definition register_str_strip (reg : OperatorRegistry PandasFn) : result (OperatorRegistry PandasFn) :=
  register_op reg "str.strip" "object -> object" _str_strip FScalar.

(** A series with a padded string, a number and a missing value. *)
Definition ex_padded : series := mkSeries np_object [CStr "  a b "; CInt 1; CNull].

(** An [object] series holding only integers. *)
Definition ex_ints : series := mkSeries np_object [CInt 1; CNull; CInt 2].

(** ** Whitespace-free ends *)

Definition ws_free_ends (l : list ascii) : Prop :=
  ∀ c, head l = Some c ∨ last l = Some c → py_space c = false.

Lemma list_ascii_of_string_of_list (l : list ascii) :
  String.list_ascii_of_string (String.string_of_list_ascii l) = l.
Proof. apply String.list_ascii_of_string_of_list_ascii. Qed.

(** [lstrip_ws] drops a whitespace prefix, up to the first other character. *)
Lemma lstrip_ws_split s :
  ∃ a, String.list_ascii_of_string s = a ++ String.list_ascii_of_string (lstrip_ws s) ∧
       Forall (λ c, py_space c = true) a ∧
       ∀ c, head (String.list_ascii_of_string (lstrip_ws s)) = Some c → py_space c = false.
Proof.
  induction s as [|c s IH]; simpl.
  - exists []. split; [done|]. split; [constructor|done].
  - destruct (py_space c) eqn:Hc.
    + destruct IH as (a & Ha & Hs & Hh). exists (c :: a). simpl. rewrite <-Ha.
      split; [done|]. split; [by constructor|done].
    + exists []. split; [done|]. split; [constructor|]. simpl. by intros ? [= <-].
Qed.

Lemma head_reverse {A} (l : list A) : head (reverse l) = last l.
Proof.
  induction l as [|x l IH] using rev_ind; [done|].
  by rewrite reverse_snoc, last_snoc.
Qed.

Lemma last_reverse {A} (l : list A) : last (reverse l) = head l.
Proof. rewrite <-(reverse_involutive l) at 2. by rewrite head_reverse. Qed.

Lemma head_app_Some {A} (l1 l2 : list A) x : head l1 = Some x → head (l1 ++ l2) = Some x.
Proof. by destruct l1. Qed.

(** ** Theorems *)

(** [str.strip()] removes exactly the surrounding whitespace: the string
    is a whitespace prefix, then the stripped string, then a whitespace
    suffix, and the stripped string neither starts nor ends with
    whitespace. *)
Theorem py_strip_spec s :
  ∃ a b, String.list_ascii_of_string s = a ++ String.list_ascii_of_string (py_strip s) ++ b ∧
    Forall (λ c, py_space c = true) a ∧ Forall (λ c, py_space c = true) b ∧
    ws_free_ends (String.list_ascii_of_string (py_strip s)).
Proof.
  destruct (lstrip_ws_split s) as (a & Ha & Hsa & Hha).
  set (M := String.list_ascii_of_string (lstrip_ws s)) in *.
  destruct (lstrip_ws_split (String.string_of_list_ascii (reverse M))) as (b & Hb & Hsb & Hhb).
  rewrite list_ascii_of_string_of_list in Hb.
  unfold py_strip. fold M. rewrite list_ascii_of_string_of_list.
  remember (String.list_ascii_of_string (lstrip_ws (String.string_of_list_ascii (reverse M)))) as N eqn:EN.
  assert (HM : M = reverse N ++ reverse b).
  { by rewrite <-reverse_app, <-Hb, reverse_involutive. }
  exists a, (reverse b). rewrite Ha, HM. split; [done|]. split; [done|].
  split; [by rewrite Forall_reverse|].
  intros c [Hc|Hc].
  - apply Hha. rewrite HM. by apply head_app_Some.
  - apply Hhb. by rewrite <-last_reverse.
Qed.

(** C22: [str.strip] honours its registered signature [object -> object]:
    once registered, [str.strip] on an [object] argument resolves to
    [_str_strip] with result dtype [object]; on a series the [.str]
    accessor accepts, that implementation returns an [object] series as
    long as its argument, holding each string of the argument stripped
    and a missing value for every other cell; on any other series it
    raises [AttributeError]. *)
Theorem str_strip_signature reg reg' x :
  reg !! "str.strip" = None → register_str_strip reg = Ok reg' →
  ∃ ti, get_implementation reg' "str.strip" ["object"] = Ok ti ∧ rtype ti = "object" ∧
    (str_accessor_ok x = true →
     ∃ s, impl_fn (timpl ti) [PSeries x] = Ok (PSeries s) ∧
       ser_dtype s = np_object ∧ length (ser_data s) = length (ser_data x) ∧
       Forall2 (λ c c', c' = match c with CStr t => CStr (py_strip t) | _ => CNull end)
         (ser_data x) (ser_data s)) ∧
    (str_accessor_ok x = false →
     impl_fn (timpl ti) [PSeries x] =
       Err (PyExc AttributeError "Can only use .str accessor with string values!" None)).
Proof.
  intros Hnone Hreg. unfold register_str_strip, register_op in Hreg. simpl in Hreg.
  pose proof (register_get _ _ _ _ _ _ ["object"] "object" Hreg) as Hget.
  rewrite Hnone in Hget. specialize (Hget (Forall_nil_2 _) eq_refl).
  eexists. split; [exact Hget|]. split; [done|]. simpl. unfold _str_strip.
  split; intros ->; [|done]. eexists. split; [done|]. simpl. rewrite length_fmap.
  do 2 (split; [done|]). apply Forall2_fmap_r, Forall_Forall2_diag, Forall_true. by intros [].
Qed.

(** C23: every string cell of what [_str_strip] returns is the argument's
    string with exactly its surrounding Python whitespace removed: the
    argument's string is a whitespace prefix, the result, and a whitespace
    suffix, and the result neither starts nor ends with whitespace. *)
Theorem str_strip_strips x s :
  _str_strip [PSeries x] = Ok (PSeries s) →
  Forall2 (λ c c', ∀ t, c = CStr t →
             ∃ t' a b, c' = CStr t' ∧
               String.list_ascii_of_string t = a ++ String.list_ascii_of_string t' ++ b ∧
               Forall (λ ch, py_space ch = true) a ∧ Forall (λ ch, py_space ch = true) b ∧
               ws_free_ends (String.list_ascii_of_string t'))
    (ser_data x) (ser_data s).
Proof.
  unfold _str_strip. destruct (str_accessor_ok x); [|done]. intros [= <-]. simpl.
  apply Forall2_fmap_r, Forall_Forall2_diag, Forall_forall. intros c _ t ->.
  destruct (py_strip_spec t) as (a & b & Ht & Ha & Hb & Hw). by exists (py_strip t), a, b.
Qed.

Lemma str_strip_signature_witness :
  ∃ reg', register_str_strip ∅ = Ok reg' ∧
  ∃ ti, get_implementation reg' "str.strip" ["object"] = Ok ti ∧ rtype ti = "object" ∧
    (str_accessor_ok ex_padded = true →
     ∃ s, impl_fn (timpl ti) [PSeries ex_padded] = Ok (PSeries s) ∧
       ser_dtype s = np_object ∧ length (ser_data s) = length (ser_data ex_padded) ∧
       Forall2 (λ c c', c' = match c with CStr t => CStr (py_strip t) | _ => CNull end)
         (ser_data ex_padded) (ser_data s)) ∧
    (str_accessor_ok ex_padded = false →
     impl_fn (timpl ti) [PSeries ex_padded] =
       Err (PyExc AttributeError "Can only use .str accessor with string values!" None)).
Proof.
  destruct (register_str_strip ∅) as [reg'|e] eqn:H; [|discriminate H].
  exists reg'. split; [reflexivity|]. exact (str_strip_signature ∅ reg' ex_padded eq_refl H).
Defined.

Lemma str_strip_strips_witness :
  _str_strip [PSeries ex_padded] = Ok (PSeries (mkSeries np_object [CStr "a b"; CNull; CNull])) ∧
  Forall2 (λ c c', ∀ t, c = CStr t →
             ∃ t' a b, c' = CStr t' ∧
               String.list_ascii_of_string t = a ++ String.list_ascii_of_string t' ++ b ∧
               Forall (λ ch, py_space ch = true) a ∧ Forall (λ ch, py_space ch = true) b ∧
               ws_free_ends (String.list_ascii_of_string t'))
    (ser_data ex_padded) [CStr "a b"; CNull; CNull].
Proof.
  assert (H : _str_strip [PSeries ex_padded] =
              Ok (PSeries (mkSeries np_object [CStr "a b"; CNull; CNull]))) by reflexivity.
  split; [exact H|]. exact (str_strip_strips _ _ H).
Defined.

(** The accessor accepts a mixed series and refuses one of integers. *)
Example ex_accessor :
  pd_infer_dtype (ser_data ex_padded) = "mixed-integer" ∧ str_accessor_ok ex_padded = true ∧
  pd_infer_dtype (ser_data ex_ints) = "integer" ∧
  _str_strip [PSeries ex_ints] = raise! AttributeError "Can only use .str accessor with string values!".
Proof. vm_compute. repeat split. Qed.

(** Python strips NEL and NO-BREAK SPACE too. *)
Example ex_strip_latin1 :
  py_strip (String (Ascii.ascii_of_nat 160) (String "a" (String (Ascii.ascii_of_nat 133) ""))) = "a".
Proof. vm_compute. reflexivity. Qed.
