(* ===== verification/Table.v ===== *)
(** * The pandas table's state, [__init__], [collect] and [alias]

    [PandasTableImpl] ([eager/pandas_table.py]) as a record of the
    attributes the code reads and writes; [uuid_to_str] of
    [eager_table.py], which builds storage keys; [__init__], which renames
    every column of the frame to a storage key built from the table name,
    the column name and a fresh identity drawn from a counter; [collect],
    which selects the storage keys of the selected columns and renames
    them back; and [alias], a new table over the collected frame.

    For a well-formed frame and identities that fit in 128 bits,
    collecting a new table gives back the frame it was built from, so
    [alias] keeps the data and the display names of a table; [__init__]
    takes exactly the next [n] counter values as the identities of [n]
    columns.  The lemmas on the way are on Python dict construction
    ([dict_lookup] and [dict_of_list] on distinct keys) and on frames
    ([df_rename] along a key list, [df_select] of all columns). *)

From S2P Require Import Prelude Expr Registry Translator StableSort Frame.

(** ** Column identities as strings ([uuid_to_str], [eager_table.py]) *)

(** The 32 lowercase hexadecimal digits of a 128-bit identity. *)
Definition hex_digit (n : N) : ascii :=
  Ascii.ascii_of_N (if (n <? 10)%N then 48 + n else 87 + n)%N.

Fixpoint hex_digits (w : nat) (n : N) : string :=
  match w with
  | O => ""
  | S w' => hex_digits w' (n / 16)%N +:+ String.String (hex_digit (n mod 16)%N) ""
  end.

Definition uuid_to_str (u : uuid) : string := hex_digits 32 u.

(** What the storage keys need of [uuid_to_str]: [uuid_to_str] lives in
    [eager_table.py], outside [src/], and the spec gives no format for it,
    only that storage keys be collision-free.  Keys are built as
    [f'..._' + uuid_to_str(u)], so they are collision-free exactly when
    distinct 128-bit identities give distinct strings and no string holds
    the separator ['_'].  The [uuid_to_str] above (32 hexadecimal digits)
    is a stand-in that has both properties ([uuid_to_str_sound]); the
    theorems about distinct keys take [uuid_str_sound] as a hypothesis, so
    they hold for any [uuid_to_str] that has them. *)
Definition uuid_str_sound : Prop :=
  (∀ u v, (u < 2 ^ 128)%N → (v < 2 ^ 128)%N → uuid_to_str u = uuid_to_str v → u = v) ∧
  (∀ u, "_"%char ∉ String.list_ascii_of_string (uuid_to_str u)).

(** ** Python dict access *)

Definition dict_getitem {V} (m : gmap uuid V) (k : uuid) : result V :=
  match m !! k with
  | Some v => Ok v
  | None => raise! KeyError (uuid_to_str k)
  end.

(** ** The table *)

Record PandasTableImpl := mkTable {
  tbl_name : string;
  df : frame;
  (** [df_name_mapping]: column identity to the frame column storing it *)
  df_name_mapping : gmap uuid string;
  (** [named_cols.fwd]: the bound column names, in binding order *)
  named_cols : list (string * uuid);
  (** [selects]: the selected column names, in order *)
  selects : list string;
  (** [col_expr]: the column each identity stands for *)
  col_expr : gmap uuid column;
  (** [col_dtype]: the dtype of each identity *)
  col_dtype_map : gmap uuid string
}.

Definition set_df (d : frame) (t : PandasTableImpl) : PandasTableImpl :=
  mkTable (tbl_name t) d (df_name_mapping t) (named_cols t) (selects t) (col_expr t) (col_dtype_map t).
Definition set_mapping (m : gmap uuid string) (t : PandasTableImpl) : PandasTableImpl :=
  mkTable (tbl_name t) (df t) m (named_cols t) (selects t) (col_expr t) (col_dtype_map t).
Definition set_col_dtype (m : gmap uuid string) (t : PandasTableImpl) : PandasTableImpl :=
  mkTable (tbl_name t) (df t) (df_name_mapping t) (named_cols t) (selects t) (col_expr t) m.

(** [_convert_dtype]: numpy kind to dtype name, else [str(dtype)]. *)
Definition _convert_dtype (dt : np_dtype) : string :=
  match dict_lookup [("b"%char, "bool"); ("i"%char, "int"); ("f"%char, "float");
                     ("O"%char, "object")] (dt_kind dt) with
  | Some s => s
  | None => dt_name dt
  end.

(** [named_cols.fwd[name]] *)
Definition named_col (t : PandasTableImpl) (name : string) : result uuid :=
  match dict_lookup (named_cols t) name with
  | Some u => Ok u
  | None => raise! KeyError name
  end.

(** [selected_cols()]: the selected names with their identities. *)
Definition selected_cols (t : PandasTableImpl) : result (list (string * uuid)) :=
  mapM (λ n, u ← named_col t n; Ok (n, u)) (selects t).

(** Building a Python dict from key/value pairs: a repeated key keeps its
    first position and takes the last value. *)
Definition dict_insert {K V} `{EqDecision K} (d : list (K * V)) (k : K) (v : V) : list (K * V) :=
  if bool_decide (k ∈ d.*1) then (λ '(k', v'), if bool_decide (k' = k) then (k', v) else (k', v')) <$> d
  else d ++ [(k, v)].

Definition dict_of_list {K V} `{EqDecision K} (l : list (K * V)) : list (K * V) :=
  foldl (λ d '(k, v), dict_insert d k v) [] l.

(** ** [__init__(name, df)] *)

Section init.
(** Fresh column identities are drawn from a counter. *)
Context (name : string) (df0 : frame) (next : uuid).

Definition init_columns : list (string * column) :=
  imap (λ i '(n, dt), (n, Column n name (_convert_dtype dt) (next + N.of_nat i)%N)) (fr_cols df0).

Definition init_mapping : gmap uuid string :=
  list_to_map ((λ '(_, c), (col_uuid c, name +:+ "_" +:+ col_name c +:+ "_" +:+
                              uuid_to_str (col_uuid c))) <$> init_columns).

Definition PandasTableImpl_init : PandasTableImpl * uuid :=
  let cols := init_columns in
  (mkTable name
     (df_rename df0 ((λ '(n, c), (n, default "" (init_mapping !! col_uuid c))) <$> cols))
     init_mapping
     ((λ '(n, c), (n, col_uuid c)) <$> cols)
     cols.*1
     (list_to_map ((λ '(_, c), (col_uuid c, c)) <$> cols))
     (list_to_map ((λ '(_, c), (col_uuid c, col_dtype c)) <$> cols)),
   (next + N.of_nat (length cols))%N).
End init.

(** ** [collect()] *)

Definition collect (t : PandasTableImpl) : result frame :=
  sel ← selected_cols t;
  pairs ← mapM (λ '(n, u), k ← dict_getitem (df_name_mapping t) u; Ok (k, n)) sel;
  let selected_cols_name_map := dict_of_list pairs in
  masked_df ← df_select (df t) selected_cols_name_map.*1;
  Ok (df_rename masked_df selected_cols_name_map).

(** ** [alias(name)]: a new table over the collected frame. *)

Definition alias (t : PandasTableImpl) (name : string) (next : uuid)
    : result (PandasTableImpl * uuid) :=
  d ← collect t; Ok (PandasTableImpl_init name d next).

(** ** An example table

    Built by [__init__] from a three-column frame, with identities 0-2. *)

Definition ex_frame : frame :=
  mkFrame [("a", np_int64); ("b", np_bool); ("s", np_object)]
          [[CInt 2; CBool true; CStr " x "]; [CInt 1; CBool false; CStr "y"]].
Definition ex_table : PandasTableImpl := (PandasTableImpl_init "t" ex_frame 0%N).1.

(** ** [uuid_to_str] is injective on 128-bit identities *)

Lemma hex_digit_inj n m : (n < 16)%N → (m < 16)%N → hex_digit n = hex_digit m → n = m.
Proof.
  intros Hn Hm Heq. apply (f_equal Ascii.N_of_ascii) in Heq. unfold hex_digit in Heq.
  destruct (N.ltb_spec n 10), (N.ltb_spec m 10);
    rewrite !Ascii.N_ascii_embedding in Heq by lia; lia.
Qed.

Lemma hex_digits_length w n : String.length (hex_digits w n) = w.
Proof.
  revert n. induction w as [|w IH]; intros n; simpl; [done|].
  rewrite string_app_length, IH. simpl. lia.
Qed.

Lemma hex_digits_inj w n m :
  hex_digits w n = hex_digits w m → (n mod 16 ^ N.of_nat w = m mod 16 ^ N.of_nat w)%N.
Proof.
  revert n m. induction w as [|w IH]; intros n m H; simpl in *.
  - by rewrite !N.mod_1_r.
  - apply string_app_inj_tail in H as [Hd Hrest]; [|done].
    injection Hd as Hd. apply hex_digit_inj in Hd; [|apply N.mod_lt; lia..].
    rewrite Nat2N.inj_succ, N.pow_succ_r', !N.Div0.mod_mul_r.
    by rewrite Hd, (IH _ _ Hrest).
Qed.

(** [uuid_to_str] is injective on 128-bit identities. *)
Theorem uuid_to_str_inj u v :
  (u < 2 ^ 128)%N → (v < 2 ^ 128)%N → uuid_to_str u = uuid_to_str v → u = v.
Proof.
  intros Hu Hv H. apply hex_digits_inj in H.
  replace (16 ^ N.of_nat 32)%N with (2 ^ 128)%N in H by reflexivity.
  by rewrite !N.mod_small in H.
Qed.

Lemma hex_digit_sep n : (n < 16)%N → hex_digit n ≠ "_"%char.
Proof.
  intros Hn Heq. apply (f_equal Ascii.N_of_ascii) in Heq. unfold hex_digit in Heq.
  change (Ascii.N_of_ascii "_") with 95%N in Heq.
  destruct (N.ltb_spec n 10); rewrite Ascii.N_ascii_embedding in Heq by lia; lia.
Qed.

Lemma hex_digits_sep w n : "_"%char ∉ String.list_ascii_of_string (hex_digits w n).
Proof.
  revert n. induction w as [|w IH]; intros n; simpl; [apply not_elem_of_nil|].
  rewrite list_ascii_of_string_app. simpl. rewrite elem_of_app, list_elem_of_singleton.
  intros [H|H]; [by apply (IH (n / 16)%N)|].
  apply (hex_digit_sep (n mod 16)); [apply N.mod_lt; lia|done].
Qed.

(** The stand-in [uuid_to_str] has what the storage keys need. *)
Lemma uuid_to_str_sound : uuid_str_sound.
Proof. split; [apply uuid_to_str_inj|intros u; apply hex_digits_sep]. Qed.

Lemma list_find_key_nodup {K V} `{EqDecision K} (l : list (K * V)) i k v :
  NoDup l.*1 → l !! i = Some (k, v) → list_find (λ kv, kv.1 = k) l = Some (i, (k, v)).
Proof.
  intros Hnd Hi.
  destruct (list_find_elem_of (λ kv : K * V, kv.1 = k) l (k, v)) as [[j [k' v']] Hf];
    [by eapply list_elem_of_lookup_2|done|].
  rewrite Hf. apply list_find_Some in Hf as (Hj & Hk & _). simpl in Hk; subst k'.
  assert (j = i) as ->.
  { apply (NoDup_lookup (l.*1) j i k Hnd); rewrite list_lookup_fmap; [by rewrite Hj|by rewrite Hi]. }
  rewrite Hi in Hj. by injection Hj as ->.
Qed.

Lemma dict_lookup_nodup {K V} `{EqDecision K} (l : list (K * V)) i k v :
  NoDup l.*1 → l !! i = Some (k, v) → dict_lookup l k = Some v.
Proof. intros Hnd Hi. unfold dict_lookup. by rewrite (list_find_key_nodup l i k v). Qed.

Lemma dict_of_list_nodup {K V} `{EqDecision K} (l : list (K * V)) :
  NoDup l.*1 → dict_of_list l = l.
Proof.
  unfold dict_of_list. intros Hnd. rewrite <-(app_nil_l l) at 2.
  assert (NoDup ((@nil (K * V)).*1 ++ l.*1)) as H by done. revert H.
  generalize (@nil (K * V)) as acc. clear Hnd.
  induction l as [|[k v] l IH]; intros acc Hnd; simpl; [by rewrite app_nil_r|].
  rewrite fmap_cons in Hnd. apply NoDup_app in Hnd as Hnd'. destruct Hnd' as (_ & Hdis & _).
  assert (k ∉ acc.*1) as Hk by (intros Hk; apply (Hdis k Hk); left).
  unfold dict_insert. rewrite bool_decide_false by done.
  rewrite IH, <-app_assoc; [done|]. by rewrite fmap_app, <-app_assoc.
Qed.

Lemma omap_lookup_seq {A} (pre l : list A) :
  omap (λ i, (pre ++ l) !! i) (seq (length pre) (length l)) = l.
Proof.
  revert pre. induction l as [|x l IH]; intros pre; simpl; [done|].
  rewrite list_lookup_middle by done. f_equal.
  specialize (IH (pre ++ [x])). rewrite <-app_assoc, length_app in IH. simpl in IH.
  by rewrite Nat.add_1_r in IH.
Qed.

Lemma omap_lookup_all {A} (l : list A) : omap (λ i, l !! i) (seq 0 (length l)) = l.
Proof. exact (omap_lookup_seq [] l). Qed.

(** Renaming every column of a frame along a key-to-name list. *)
Lemma rename_cols_zip (ks vs : list string) (dts : list np_dtype) :
  NoDup ks → length vs = length ks → length dts = length ks →
  (λ '(n, dt), (default n (dict_lookup (zip ks vs) n), dt)) <$> zip ks dts = zip vs dts.
Proof.
  intros Hnd Hv Hd. apply list_eq. intros i. rewrite list_lookup_fmap, !lookup_zip_with.
  destruct (ks !! i) as [k|] eqn:Hk; simpl.
  - destruct (lookup_lt_is_Some_2 vs i) as [v Hvi]; [rewrite Hv; by eapply lookup_lt_Some|].
    rewrite Hvi. destruct (dts !! i) as [dt|]; simpl; [|done].
    rewrite (dict_lookup_nodup _ i k v); [done| |by rewrite lookup_zip_with, Hk, Hvi].
    rewrite fst_zip; [done|lia].
  - rewrite (lookup_ge_None_2 vs i); [done|]. rewrite Hv. by apply lookup_ge_None_1.
Qed.

Lemma df_rename_zip (ks vs : list string) (dts : list np_dtype) rows :
  NoDup ks → length vs = length ks → length dts = length ks →
  df_rename (mkFrame (zip ks dts) rows) (zip ks vs) = mkFrame (zip vs dts) rows.
Proof. intros. unfold df_rename. simpl. by rewrite rename_cols_zip. Qed.

(** Selecting all the columns of a well-formed frame, in order, is the
    identity. *)
Lemma df_select_all df : frame_wf df → df_select df (frame_keys df) = Ok df.
Proof.
  intros [Hnd Hrows]. unfold df_select, frame_keys.
  assert (Hidx : mapM (λ k, match col_index df k with Some i => Ok i | None => raise! KeyError k end)
                   (fr_cols df).*1 = Ok (seq 0 (length (fr_cols df)))).
  { apply mapM_result_Ok, Forall2_lookup. intros i. rewrite list_lookup_fmap.
    destruct (fr_cols df !! i) as [[k dt]|] eqn:Hi; simpl.
    - rewrite lookup_seq_lt by (by eapply lookup_lt_Some). constructor.
      unfold col_index. by rewrite (list_find_key_nodup _ i k dt).
    - rewrite lookup_seq_ge by (by apply lookup_ge_None_1). constructor. }
  rewrite Hidx. simpl. rewrite omap_lookup_all. destruct df as [cols rows]. simpl in *.
  do 2 f_equal. clear Hidx. induction Hrows as [|r rows Hr _ IH]; [done|].
  simpl. f_equal; [rewrite <-Hr; apply omap_lookup_all|exact IH].
Qed.

Section roundtrip.
Context (name : string) (d : frame) (next : uuid).

Definition init_uuids : list uuid := (λ i, (next + N.of_nat i)%N) <$> seq 0 (length (fr_cols d)).
Definition init_key (n : string) (u : uuid) : string := name +:+ "_" +:+ n +:+ "_" +:+ uuid_to_str u.
Definition init_keys : list string := zip_with init_key (fr_cols d).*1 init_uuids.

Lemma init_uuids_lookup i : init_uuids !! i = (λ _, (next + N.of_nat i)%N) <$> fr_cols d !! i.
Proof.
  unfold init_uuids. rewrite list_lookup_fmap. destruct (fr_cols d !! i) eqn:H; simpl.
  - rewrite lookup_seq_lt; [done|by eapply lookup_lt_Some].
  - rewrite lookup_seq_ge; [done|by apply lookup_ge_None_1].
Qed.

Ltac cols_eq := apply list_eq; intros i;
  rewrite ?list_lookup_fmap, ?list_lookup_imap, ?lookup_zip_with, ?init_uuids_lookup,
          ?list_lookup_fmap;
  destruct (fr_cols d !! i) as [[n dt]|]; reflexivity.

Lemma init_names : (init_columns name d next).*1 = (fr_cols d).*1.
Proof. unfold init_columns. cols_eq. Qed.

Lemma init_named :
  (λ '(n, c), (n, col_uuid c)) <$> init_columns name d next = zip (fr_cols d).*1 init_uuids.
Proof. unfold init_columns, init_keys. cols_eq. Qed.

Lemma init_mapping_eq : init_mapping name d next = list_to_map (zip init_uuids init_keys).
Proof. unfold init_mapping, init_columns, init_keys. f_equal. cols_eq. Qed.

Lemma init_lengths :
  length init_uuids = length (fr_cols d) ∧ length init_keys = length (fr_cols d).
Proof.
  unfold init_keys, init_uuids. rewrite length_zip_with, !length_fmap, length_seq. lia.
Qed.

Lemma init_uuids_nodup : NoDup init_uuids.
Proof.
  apply NoDup_fmap_2_strong; [|apply NoDup_seq]. intros x y _ _ ?. lia.
Qed.

Hypothesis Hbound : (next + N.of_nat (length (fr_cols d)) ≤ 2 ^ 128)%N.

Lemma init_keys_lookup i :
  init_keys !! i = (λ '(n, _), init_key n (next + N.of_nat i)%N) <$> fr_cols d !! i.
Proof. unfold init_keys. rewrite lookup_zip_with, list_lookup_fmap, init_uuids_lookup.
  by destruct (fr_cols d !! i) as [[n dt]|]. Qed.

Lemma init_key_inj n n' u u' :
  (u < 2 ^ 128)%N → (u' < 2 ^ 128)%N → init_key n u = init_key n' u' → u = u'.
Proof.
  intros Hu Hu' H. unfold init_key in H. rewrite !string_app_assoc in H.
  apply string_app_inj_tail in H as [H _]; [by apply uuid_to_str_inj|].
  unfold uuid_to_str. by rewrite !hex_digits_length.
Qed.

Lemma init_keys_nodup : NoDup init_keys.
Proof.
  apply NoDup_alt. intros i j k. rewrite !init_keys_lookup.
  destruct (fr_cols d !! i) as [[n dt]|] eqn:Hi, (fr_cols d !! j) as [[n' dt']|] eqn:Hj;
    simpl; try done.
  apply lookup_lt_Some in Hi, Hj. intros [= <-] [= Heq].
  apply init_key_inj in Heq; lia.
Qed.

Lemma init_mapping_lookup i n dt :
  fr_cols d !! i = Some (n, dt) →
  init_mapping name d next !! (next + N.of_nat i)%N = Some (init_key n (next + N.of_nat i)%N).
Proof.
  intros Hi. rewrite init_mapping_eq. apply elem_of_list_to_map_1.
  - assert (Hl : length init_uuids = length init_keys) by (destruct init_lengths; lia).
    rewrite fst_zip; [apply init_uuids_nodup|lia].
  - apply list_elem_of_lookup. exists i.
    by rewrite lookup_zip_with, init_uuids_lookup, init_keys_lookup, Hi.
Qed.

Lemma init_rename :
  (λ '(n, c), (n, default "" (init_mapping name d next !! col_uuid c))) <$> init_columns name d next =
  zip (fr_cols d).*1 init_keys.
Proof.
  apply list_eq. intros i. unfold init_columns.
  rewrite list_lookup_fmap, list_lookup_imap, lookup_zip_with, list_lookup_fmap, init_keys_lookup.
  destruct (fr_cols d !! i) as [[n dt]|] eqn:Hi; [|done]. simpl.
  by rewrite (init_mapping_lookup i n dt Hi).

Qed.

Hypothesis Hwf : frame_wf d.

Lemma init_len_names : length (fr_cols d).*1 = length (fr_cols d).
Proof. apply length_fmap. Qed.

Lemma init_df :
  df (PandasTableImpl_init name d next).1 = mkFrame (zip init_keys (fr_cols d).*2) (fr_rows d).
Proof.
  destruct Hwf as [Hnd _]. destruct init_lengths as [Hu Hk]. unfold PandasTableImpl_init. simpl.
  rewrite init_rename. unfold df_rename. f_equal.
  pose proof (rename_cols_zip (fr_cols d).*1 init_keys (fr_cols d).*2 Hnd) as H.
  rewrite zip_fst_snd in H. apply H; rewrite ?length_fmap; lia.
Qed.

Lemma init_selected :
  selected_cols (PandasTableImpl_init name d next).1 = Ok (zip (fr_cols d).*1 init_uuids).
Proof.
  destruct Hwf as [Hnd _]. destruct init_lengths as [Hu Hk].
  unfold selected_cols, named_col. simpl. rewrite init_names, init_named.
  apply mapM_result_Ok, Forall2_lookup. intros i.
  rewrite lookup_zip_with, list_lookup_fmap, init_uuids_lookup.
  destruct (fr_cols d !! i) as [[n dt]|] eqn:Hi; simpl; constructor.
  rewrite (dict_lookup_nodup _ i n (next + N.of_nat i)%N); [done| |].
  - rewrite fst_zip; [done|rewrite length_fmap; lia].
  - by rewrite lookup_zip_with, list_lookup_fmap, init_uuids_lookup, Hi.
Qed.

Lemma init_pairs :
  mapM (λ '(n, u), k ← dict_getitem (init_mapping name d next) u; Ok (k, n))
       (zip (fr_cols d).*1 init_uuids) = Ok (zip init_keys (fr_cols d).*1).
Proof.
  apply mapM_result_Ok, Forall2_lookup. intros i.
  rewrite !lookup_zip_with, list_lookup_fmap, init_uuids_lookup, init_keys_lookup.
  destruct (fr_cols d !! i) as [[n dt]|] eqn:Hi; simpl; constructor.
  unfold dict_getitem. by rewrite (init_mapping_lookup i n dt Hi).
Qed.

Lemma collect_init : collect (PandasTableImpl_init name d next).1 = Ok d.
Proof.
  destruct init_lengths as [Hu Hk]. pose proof init_keys_nodup as Hnd.
  unfold collect. rewrite init_selected, bind_Ok_l.
  change (df_name_mapping (PandasTableImpl_init name d next).1) with (init_mapping name d next).
  rewrite init_pairs, bind_Ok_l.
  rewrite dict_of_list_nodup by (rewrite fst_zip; [done|rewrite length_fmap; lia]).
  rewrite fst_zip by (rewrite length_fmap; lia).
  assert (Hwf' : frame_wf (mkFrame (zip init_keys (fr_cols d).*2) (fr_rows d))).
  { destruct Hwf as [_ Hrows]. split; simpl.
    - rewrite fst_zip; [done|rewrite length_fmap; lia].
    - eapply Forall_impl; [done|]. intros r ->. rewrite length_zip_with, length_fmap. lia. }
  pose proof (df_select_all _ Hwf') as Hs. unfold frame_keys in Hs. simpl in Hs.
  rewrite fst_zip in Hs by (rewrite length_fmap; lia).
  rewrite init_df, Hs, bind_Ok_l. rewrite df_rename_zip; [|done|rewrite length_fmap; lia|rewrite length_fmap; lia].
  rewrite zip_fst_snd. by destruct d.
Qed.
End roundtrip.


(** C14: [alias] keeps a table's data and display names: when the table
    collects to a well-formed frame and the counter has room for its
    columns' fresh identities, the alias collects to the same frame.  In
    particular a table built by [__init__] collects to the frame it was
    built from. *)
Theorem alias_collect t name next d :
  collect t = Ok d → frame_wf d →
  (next + N.of_nat (length (fr_cols d)) ≤ 2 ^ 128)%N →
  ∃ t', alias t name next = Ok (t', (next + N.of_nat (length (fr_cols d)))%N) ∧ collect t' = Ok d.
Proof.
  intros Hc Hwf Hb. unfold alias. rewrite Hc, bind_Ok_l.
  eexists. split; [|by apply collect_init].
  unfold PandasTableImpl_init, init_columns. by rewrite length_imap.
Qed.

Lemma ex_frame_wf : frame_wf ex_frame.
Proof. split; [apply (bool_decide_unpack _); vm_compute; exact I|repeat constructor]. Qed.

Lemma alias_collect_witness :
  collect ex_table = Ok ex_frame ∧
  ∃ t', alias ex_table "t2" 3%N = Ok (t', 6%N) ∧ collect t' = Ok ex_frame.
Proof.
  assert (Hc : collect ex_table = Ok ex_frame) by reflexivity.
  split; [exact Hc|].
  exact (alias_collect ex_table "t2" 3%N ex_frame Hc ex_frame_wf
           ltac:(vm_compute; congruence)).
Defined.

(** ** Fresh identities *)

Lemma init_uuids_elem d next u :
  u ∈ init_uuids d next ↔ (next ≤ u < next + N.of_nat (length (fr_cols d)))%N.
Proof.
  unfold init_uuids. rewrite list_elem_of_fmap. split.
  - intros (i & -> & Hi%elem_of_seq). lia.
  - intros Hu. exists (N.to_nat (u - next)). split; [lia|]. apply elem_of_seq. lia.
Qed.

(** The identities of a new table, and the counter it returns. *)
Lemma init_identity_range name d next u :
  (is_Some (df_name_mapping (PandasTableImpl_init name d next).1 !! u) ↔
     (next ≤ u < next + N.of_nat (length (fr_cols d)))%N) ∧
  (PandasTableImpl_init name d next).2 = (next + N.of_nat (length (fr_cols d)))%N.
Proof.
  split.
  - change (df_name_mapping _) with (init_mapping name d next).
    rewrite init_mapping_eq, <-not_eq_None_Some, <-not_elem_of_list_to_map.
    destruct (init_lengths name d next) as [Hu Hk].
    rewrite fst_zip by lia. rewrite <-init_uuids_elem.
    destruct (decide (u ∈ init_uuids d next)); tauto.
  - unfold PandasTableImpl_init, init_columns. simpl. by rewrite length_imap.
Qed.

(** [__init__] draws its identities from the counter: the identities
    of the new table are exactly [next], ..., [next + n - 1] for a frame of
    [n] columns, and the counter it returns is [next + n]. *)
Theorem init_identities name d next u :
  (is_Some (df_name_mapping (PandasTableImpl_init name d next).1 !! u) ↔
     (next ≤ u < next + N.of_nat (length (fr_cols d)))%N) ∧
  (PandasTableImpl_init name d next).2 = (next + N.of_nat (length (fr_cols d)))%N.
Proof. apply init_identity_range. Qed.
