(* ===== verification/PandasTable.v ===== *)
(** * The pandas backend ([eager/pandas_table.py])

    [PandasTableImpl]: a table over a pandas frame whose columns are stored
    under keys [f'..._' + uuid_to_str(u)] ([df_name_mapping]: column
    identity to storage key; collision-free for a sound [uuid_to_str],
    see [uuid_str_sound] in [Table]), its two translators ([ExpressionTranslator], [JoinTranslator]),
    and its verbs ([alias], [collect], [mutate], [join], [filter],
    [arrange]); the [str.strip] implementation it registers is in [Strip].

    A verb mutates the table in place and may raise: it is a [stres]
    computation over the table's state, so that an exception keeps the
    assignments made before it.  The state the verbs read that is kept by
    the parent classes ([EagerTableImpl], [AbstractTableImpl], not part of
    the sources) is modelled from the spec: the bound columns by name, the
    selected names, the column expressions and dtypes by identity. *)

From S2P Require Import Prelude Expr Registry Translator StableSort Frame FrameColumns Merge Strip Table.
From Stdlib Require Import Sorted Permutation.

(** ** [ExpressionTranslator._translate] *)

Section expression_translator.
Context (reg : OperatorRegistry PandasFn).
(** The backend's state the translator reads. *)
Context (df_name_mapping : gmap uuid string) (df : frame).

Definition ExpressionTranslator_translate (n : node (obj pval) (TypedValue pval))
    : result (TypedValue pval) :=
  match n with
  | NLeaf (OColumn c) =>
      df_col_name ← dict_getitem df_name_mapping (col_uuid c);
      df_col ← df_getitem df df_col_name;
      Ok (TypedValue2 (PSeries df_col) (col_dtype c))
  | NCall op args _ =>
      let arguments := tv_value <$> args in
      let signature := tv_dtype <$> args in
      implementation ← get_implementation reg op signature;
      v ← impl_fn (timpl implementation) arguments;
      Ok (TypedValue2 v (rtype implementation))
  | NLeaf (OTyped tv) => Ok tv
  (* [isinstance(expr, int)] holds for [bool] too *)
  | NLeaf (OInt z) => Ok (TypedValue2 (PScalar (CInt z)) "int")
  | NLeaf (OBool b) => Ok (TypedValue2 (PScalar (CBool b)) "int")
  | NLeaf (OStr s) => Ok (TypedValue2 (PScalar (CStr s)) "str")
  | NLeaf o => raise! NotImplementedError (obj_repr o +:+ ", " +:+ obj_type_name o)
  end.

(** [self.translator.translate(expr)] *)
Definition translate_expr (e : expr (obj pval)) : result (TypedValue pval) :=
  translate obj_repr ExpressionTranslator_translate e.
End expression_translator.

(** ** [JoinTranslator._translate] *)

(** What the join translator returns for a node: a [Column], or a tuple of
    (left, right) column pairs. *)
Inductive jval := JCol (c : column) | JPairs (ps : list (column * column)).

(** Iterating a join translator's value: a tuple of pairs yields them; a
    column is not iterable. *)
Definition iter_pairs (v : jval) : result (list (column * column)) :=
  match v with
  | JPairs ps => Ok ps
  | JCol _ => raise! TypeError "'Column' object is not iterable"
  end.

(** [tuple(itertools.chain( *args))] *)
Definition chain_pairs (args : list jval) : result (list (column * column)) :=
  mjoin <$> mapM iter_pairs args.

Definition JoinTranslator_translate (n : node (obj pval) jval) : result jval :=
  match n with
  | NLeaf (OColumn c) => Ok (JCol c)
  | NCall op args _ =>
      if bool_decide (op = "__eq__") then
        match args !! 0, args !! 1 with
        | Some (JCol c1), Some (JCol c2) => Ok (JPairs [(c1, c2)])
        | Some _, Some _ => raise! AssertionError ""
        | _, _ => raise! IndexError "tuple index out of range"
        end
      else if bool_decide (op = "__and__") then JPairs <$> chain_pairs args
      else raise! Exception ("Invalid ON clause element: " +:+ op +:+
             ". Only a conjunction of equalities is supported by pandas (ands of equals).")
  | NLeaf o => raise! Exception ("Invalid ON clause element: " +:+ obj_repr o +:+
             ". Only a conjunction of equalities is supported by pandas (ands of equals).")
  end.

Definition translate_join (on : expr (obj pval)) : result jval :=
  translate obj_repr JoinTranslator_translate on.

(** ** The verbs *)

Section verbs.
Context (reg : OperatorRegistry PandasFn).

Definition translator_of (t : PandasTableImpl) : expr (obj pval) → result (TypedValue pval) :=
  translate_expr reg (df_name_mapping t) (df t).

(** The storage key [mutate] gives an identity bound to [name]. *)
Definition mutate_key (t : PandasTableImpl) (name : string) (u : uuid) : string :=
  tbl_name t +:+ "_mutate_" +:+ name +:+ "_" +:+ uuid_to_str u.

(** The mapping [mutate] records before it translates anything. *)
Definition mutate_mapping (t : PandasTableImpl)
    (uk : list (uuid * (string * expr (obj pval)))) : gmap uuid string :=
  foldl (λ m '(u, (n, _)), <[u := mutate_key t n u]> m) (df_name_mapping t) uk.

(** [mutate(...)]: the storage keys are recorded first, then every
    expression is translated, then the frame gets the new columns and the
    identities their dtypes. *)
Definition mutate (kwargs : list (string * expr (obj pval))) : stres PandasTableImpl unit :=
  t ← st_get;
  uuid_kwargs ← st_lift (mapM (λ '(k, v), u ← named_col t k; Ok (u, (k, v))) kwargs);
  let mapping := mutate_mapping t uuid_kwargs in
  st_put (set_mapping mapping t);;
  t1 ← st_get;
  typed_cols ← st_lift (mapM (λ '(u, (_, e)), tv ← translator_of t1 e; Ok (u, tv)) uuid_kwargs);
  cols ← st_lift (mapM (λ '(u, tv), k ← dict_getitem (df_name_mapping t1) u; Ok (k, tv_value tv))
                       typed_cols);
  d ← st_lift (df_assign (df t1) cols);
  st_put (set_df d t1);;
  t2 ← st_get;
  st_put (set_col_dtype (foldl (λ m '(u, tv), <[u := tv_dtype tv]> m) (col_dtype_map t2) typed_cols) t2).

(** [for col1, col2 in self.join_translator.translate(on)]: each pair is
    oriented left-to-right by which table owns which column. *)
Definition orient_pair (t right : PandasTableImpl) (p : column * column)
    : result (column * column) :=
  let '(col1, col2) := p in
  if bool_decide (col_uuid col1 ∈ dom (col_expr t) ∧ col_uuid col2 ∈ dom (col_expr right))
  then Ok (col1, col2)
  else if bool_decide (col_uuid col2 ∈ dom (col_expr t) ∧ col_uuid col1 ∈ dom (col_expr right))
  then Ok (col2, col1)
  else raise! Exception "".

(** [join(right, on, how)] *)
Definition join (right : PandasTableImpl) (on : expr (obj pval)) (how : option string)
    : stres PandasTableImpl unit :=
  t ← st_get;
  pairs ← st_lift (v ← translate_join on; iter_pairs v);
  on_cols ← st_lift (mapM (orient_pair t right) pairs);
  how' ← st_lift (match how with
                  | None => raise! Exception "Must specify how argument"
                  | Some h => Ok h
                  end);
  st_lift (if on_cols is [] then raise! ValueError "not enough values to unpack (expected 2, got 0)"
           else Ok ());;
  left_on ← st_lift (mapM (λ c, dict_getitem (df_name_mapping t) (col_uuid c)) on_cols.*1);
  right_on ← st_lift (mapM (λ c, dict_getitem (df_name_mapping right) (col_uuid c)) on_cols.*2);
  st_put (set_mapping (df_name_mapping right ∪ df_name_mapping t) t);;
  t1 ← st_get;
  d ← st_lift (df_merge (df t1) (df right) how' left_on right_on);
  st_put (set_df d t1).

(** [functools.reduce(operator.and_, args)] *)
Definition conjoin (a : expr (obj pval)) (rest : list (expr (obj pval))) : expr (obj pval) :=
  foldl (λ acc b, FunctionCall "__and__" [acc; b] []) a rest.

(** [filter( *args)] *)
Definition filter (args : list (expr (obj pval))) : stres PandasTableImpl unit :=
  match args with
  | [] => mret ()
  | a :: rest =>
      t ← st_get;
      tv ← st_lift (translator_of t (conjoin a rest));
      let '(condition, cond_type) := TypedValue_iter tv in
      if bool_decide (cond_type = "bool")
      then d ← st_lift (df_loc_mask (df t) condition); st_put (set_df d t)
      else st_lift (raise! AssertionError "")
  end.

(** [arrange(ordering)]: [cols, ascending = zip( *ordering)] *)
Definition arrange (ordering : list (column * bool)) : stres PandasTableImpl unit :=
  t ← st_get;
  st_lift (if ordering is [] then raise! ValueError "not enough values to unpack (expected 2, got 0)"
           else Ok ());;
  cols ← st_lift (mapM (λ c, dict_getitem (df_name_mapping t) (col_uuid c)) ordering.*1);
  d ← st_lift (df_sort_values (df t) cols ordering.*2);
  st_put (set_df d t).
End verbs.

(** ** Storage keys are injective in the identity *)

(** A storage key ends with the separator and its identity's string. *)
Definition key_of (k : string) (u : uuid) : Prop := ∃ p, k = p +:+ String "_" (uuid_to_str u).

Lemma key_of_inj k u v :
  uuid_str_sound → (u < 2 ^ 128)%N → (v < 2 ^ 128)%N → key_of k u → key_of k v → u = v.
Proof.
  intros [Hinj Hsep] Hu Hv [p ->] [q Hq].
  apply string_app_sep_tail in Hq as [_ Hq]; [by apply Hinj|apply Hsep..].
Qed.

(** A key built as [prefix + '_' + uuid_to_str(u)]. *)
Lemma key_of_sep p u : key_of ((p +:+ "_") +:+ uuid_to_str u) u.
Proof. exists p. by rewrite <-string_app_assoc. Qed.

(** C15: the storage key [mutate] generates for a display name and a
    128-bit identity, [f'{self.name}_mutate_{name}_' + uuid_to_str(uuid)],
    determines both, for every [uuid_to_str] that is injective and writes
    no ['_']: two mutations binding distinct identities, or distinct
    names, never share a storage key. *)
Theorem mutate_key_inj t n n' u v :
  uuid_str_sound → (u < 2 ^ 128)%N → (v < 2 ^ 128)%N →
  mutate_key t n u = mutate_key t n' v → u = v ∧ n = n'.
Proof.
  intros [Hinj Hsep] Hu Hv H.
  assert (Hsh : ∀ m w, mutate_key t m w = (tbl_name t +:+ "_mutate_" +:+ m) +:+ String "_" (uuid_to_str w))
    by (intros; unfold mutate_key; by rewrite <-!string_app_assoc).
  rewrite !Hsh in H.
  apply string_app_sep_tail in H as [Hp Hs]; [|apply Hsep..].
  split; [by apply Hinj|]. by do 2 apply string_app_inj_l in Hp.
Qed.

(** ** [ExpressionTranslator] is a delegating translator *)

Section pandas_delegating.
Context (reg : OperatorRegistry PandasFn) (m : gmap uuid string) (d : frame).

Definition pandas_translate_col (c : column) : result (TypedValue pval) :=
  df_col_name ← dict_getitem m (col_uuid c);
  df_col ← df_getitem d df_col_name;
  Ok (TypedValue2 (PSeries df_col) (col_dtype c)).

Definition pandas_translate_function (op : string) (args : list (TypedValue pval))
    (kwargs : list (string * TypedValue pval)) (arguments : list pval)
    (implementation : TypedOperatorImpl PandasFn) : result (TypedValue pval) :=
  v ← impl_fn (timpl implementation) arguments; Ok (TypedValue2 v (rtype implementation)).

Definition pandas_translate_literal (o : obj pval) : result (option (TypedValue pval)) :=
  match o with
  | OTyped tv => Ok (Some tv)
  | OInt z => Ok (Some (TypedValue2 (PScalar (CInt z)) "int"))
  | OBool b => Ok (Some (TypedValue2 (PScalar (CBool b)) "int"))
  | OStr s => Ok (Some (TypedValue2 (PScalar (CStr s)) "str"))
  | _ => Ok None
  end.

#[local] Instance pandas_delegating : DelegatingTranslator pval PandasFn := {|
  operator_registry := reg;
  _translate_col := pandas_translate_col;
  _translate_function := pandas_translate_function;
  _translate_literal := pandas_translate_literal
|}.

(** The dtype a literal leaf translates to. *)
Definition pandas_lit_dtype (o : obj pval) : option string :=
  match o with
  | OTyped tv => Some (tv_dtype tv)
  | OInt _ | OBool _ => Some "int"
  | OStr _ => Some "str"
  | _ => None
  end.

#[local] Instance pandas_delegating_laws : DelegatingLaws pval PandasFn pandas_lit_dtype.
Proof.
  split; simpl.
  - unfold pandas_translate_col. intros c tv H. simpl_res. by subst.
  - intros [] tv' H; simpl in H; simplify_eq; done.
  - unfold pandas_translate_function. intros ?????? H. simpl_res. by subst.
Qed.

(** The pandas translator is the delegating translator with these hooks,
    up to the message of the exception raised for an untranslatable
    leaf. *)
Lemma ExpressionTranslator_delegating :
  pointwise_relation _ (≡) (ExpressionTranslator_translate reg m d) delegating_translate.
Proof. intros [[]|op args kwargs]; simpl; reflexivity. Qed.

Lemma translate_expr_infer e tv :
  translate_expr reg m d e = Ok tv → infer_dtype reg pandas_lit_dtype e = Some (tv_dtype tv).
Proof.
  intros H%translate_Ok.
  pose proof (bottom_up_replace_proper _ _ ExpressionTranslator_delegating e e eq_refl) as Heq.
  rewrite H in Heq. symmetry in Heq. apply result_equiv_Ok in Heq.
  exact (delegating_dtype_sound pandas_lit_dtype e tv Heq).
Qed.

(** C5: a translated expression has the dtype the registry infers for
    it: columns their declared dtype, [int] and [bool] literals [int],
    [str] literals [str], and each call the result dtype of the
    implementation resolved from its arguments' dtypes. *)
Theorem ExpressionTranslator_dtype e tv :
  translate_expr reg m d e = Ok tv → infer_dtype reg pandas_lit_dtype e = Some (tv_dtype tv).
Proof. apply translate_expr_infer. Qed.

(** C34: the function kind is not carried: every translated call has
    kind ['s'], whatever kind its implementation was registered with. *)
Theorem ExpressionTranslator_ftype op args kwargs tv :
  translate_expr reg m d (FunctionCall op args kwargs) = Ok tv → tv_ftype tv = FScalar.
Proof.
  intros H%translate_Ok. simpl in H. simpl_res. by subst.
Qed.
End pandas_delegating.

(** ** What the join translator accepts *)

(** A conjunction of column equalities and its column pairs, in order. *)
Fixpoint conj_pairs (e : expr (obj pval)) : option (list (column * column)) :=
  match e with
  | FunctionCall op args [] =>
      if bool_decide (op = "__eq__") then
        match args with
        | [Leaf (OColumn c1); Leaf (OColumn c2)] => Some [(c1, c2)]
        | _ => None
        end
      else if bool_decide (op = "__and__") then mjoin <$> mapM conj_pairs args
      else None
  | _ => None
  end.

Definition is_column_leaf (o : obj pval) : bool := if o is OColumn _ then true else false.
Definition is_join_op (op : string) : bool := bool_decide (op = "__eq__" ∨ op = "__and__").

Lemma chain_pairs_JPairs pss : chain_pairs (JPairs <$> pss) = Ok (mjoin pss).
Proof.
  unfold chain_pairs.
  enough (mapM iter_pairs (JPairs <$> pss) = Ok pss) as -> by done.
  induction pss as [|p pss IH]; [done|]. rewrite fmap_cons. cbn [mapM]. by rewrite IH.
Qed.

(** C30: the join translator turns a conjunction of column equalities into
    its column pairs, in the order they are written. *)
Theorem translate_join_conj on ps :
  conj_pairs on = Some ps → translate_join on = Ok (JPairs ps).
Proof.
  intros H. apply translate_Ok. revert ps H.
  induction on as [l|op args kwargs Hargs _] using expr_ind'; intros ps H; [done|].
  simpl in H. destruct kwargs; [|done].
  case_bool_decide as Heq; [subst op|case_bool_decide as Hand; [subst op|done]].
  - destruct args as [|[[c1| | | | | |]|] [|[[c2| | | | | |]|] []]]; try done.
    injection H as <-. done.
  - apply fmap_Some in H as (pss & Hpss & ->). simpl.
    assert (mapM (bottom_up_replace JoinTranslator_translate) args = Ok (JPairs <$> pss)) as ->.
    { clear -Hargs Hpss. revert pss Hpss. induction Hargs as [|a args Ha _ IH]; intros pss H.
      - by injection H as <-.
      - simpl in H. destruct (conj_pairs a) as [p|] eqn:Hp; [|done]. simpl in H.
        destruct (mapM conj_pairs args) as [qs|]; [|done]. injection H as <-. simpl.
        rewrite (Ha p eq_refl). simpl. by rewrite (IH qs eq_refl). }
    simpl. by rewrite chain_pairs_JPairs.
Qed.

(** C31: the join translator fails on any condition with a leaf that is not
    a column or an operator other than [__eq__] and [__and__], anywhere in
    the tree ([a + b == c] included). *)
Theorem translate_join_shape on v :
  translate_join on = Ok v → expr_all is_column_leaf is_join_op on = true.
Proof.
  intros H%translate_Ok. revert v H.
  induction on as [[]|op args kwargs Hargs Hkw] using expr_ind'; intros v H; try done.
  simpl in H |- *. simpl_res. rename a into rs, a0 into ks.
  apply andb_true_intro; split; [apply andb_true_intro; split|].
  - unfold is_join_op. apply bool_decide_eq_true_2. revert H.
    case_bool_decide; [by left|]. case_bool_decide; [by right|]. by intros [=].
  - apply forallb_forall. intros e He%list_elem_of_In.
    apply mapM_result_Ok in Ha. destruct (Forall2_in_l _ _ _ e Ha He) as [r Hr].
    rewrite Forall_forall in Hargs. by apply (Hargs e He r).
  - apply forallb_forall. intros [k e] Hke%list_elem_of_In.
    apply mapM_result_Ok in Ha0. destruct (Forall2_in_l _ _ _ _ Ha0 Hke) as [r Hr].
    simpl in Hr. simpl_res. rewrite Forall_forall in Hkw. by apply (Hkw (k, e) Hke a).
Qed.

(** ** The verbs' behaviour *)

Section verb_props.
Context (reg : OperatorRegistry PandasFn).

(** C27: [filter] either does nothing (no condition), or replaces the
    frame by the rows where the conjunction of the conditions, translated
    to a boolean series, holds; when it raises, the table is unchanged. *)
Theorem filter_spec args t :
  match filter reg args t with
  | (Ok (), t') =>
      (args = [] ∧ t' = t) ∨
      ∃ a rest tv d, args = a :: rest ∧ translator_of reg t (conjoin a rest) = Ok tv ∧
        tv_dtype tv = "bool" ∧ df_loc_mask (df t) (tv_value tv) = Ok d ∧ t' = set_df d t
  | (Err _, t') => t' = t
  end.
Proof.
  destruct args as [|a rest]; [by left|]. unfold filter. run_st.
  destruct (translator_of reg t (conjoin a rest)) as [tv|e] eqn:Htr; run_st; [|done].
  case_bool_decide as Hb; run_st; [|done].
  destruct (df_loc_mask (df t) (tv_value tv)) as [d|e] eqn:Hm; run_st; [|done].
  right. by exists a, rest, tv, d.
Qed.

(** C33: a condition whose translated dtype is not [bool] makes [filter]
    raise [AssertionError] (the spec asks for [TypeError]) and leaves the
    table unchanged. *)
Theorem filter_not_bool a rest t tv :
  translator_of reg t (conjoin a rest) = Ok tv → tv_dtype tv ≠ "bool" →
  filter reg (a :: rest) t = (Err (PyExc AssertionError "" None), t).
Proof.
  intros Htr Hb. unfold filter. run_st. rewrite Htr. run_st.
  by rewrite bool_decide_eq_false_2.
Qed.
(** C28: [arrange] replaces the frame by its rows sorted on the columns
    storing the ordering's identities, each ascending or descending as
    asked: a permutation of the rows, sorted, in which rows with equal
    sort cells keep their order (a stable sort); when it raises, the table
    is unchanged. *)
Theorem arrange_spec ordering t :
  match arrange ordering t with
  | (Ok (), t') =>
      ∃ cols keys d,
        mapM (λ c, dict_getitem (df_name_mapping t) (col_uuid c)) ordering.*1 = Ok cols ∧
        sort_keys (df t) cols ordering.*2 = Ok keys ∧ t' = set_df d t ∧
        fr_cols d = fr_cols (df t) ∧ Permutation (fr_rows d) (fr_rows (df t)) ∧
        Sorted (λ r1 r2, row_compare keys r1 r2 ≠ Gt) (fr_rows d) ∧
        ∀ r, List.filter (λ r', bool_decide (key_proj keys r' = key_proj keys r)) (fr_rows d) =
             List.filter (λ r', bool_decide (key_proj keys r' = key_proj keys r)) (fr_rows (df t))
  | (Err _, t') => t' = t
  end.
Proof.
  unfold arrange. run_st.
  destruct (mapM _ _) as [cols|e] eqn:Hcols;
    destruct ordering as [|o ordering']; run_st; try done.
  destruct (df_sort_values _ _ _) as [d|e] eqn:Hd; run_st; [|done].
  destruct (df_sort_values_spec _ _ _ _ Hd) as (keys & Hkeys & Hrest).
  exists cols, keys, d. naive_solver.
Qed.

Lemma orient_pair_spec t right p q :
  orient_pair t right p = Ok q →
  (q = p ∨ q = (p.2, p.1)) ∧
  col_uuid q.1 ∈ dom (col_expr t) ∧ col_uuid q.2 ∈ dom (col_expr right).
Proof.
  destruct p as [c1 c2]. unfold orient_pair.
  case_bool_decide as H1; [intros [= <-]; naive_solver|].
  case_bool_decide as H2; [intros [= <-]; naive_solver|]. done.
Qed.

Definition joined_mapping (t right : PandasTableImpl) : gmap uuid string :=
  df_name_mapping right ∪ df_name_mapping t.

(** C29: a successful [join] parsed [on] into column pairs, oriented
    each pair so that its first column belongs to this table and its
    second to [right] (either order of the equality is accepted), took
    the right table's storage keys into its mapping and merged the frames
    on the pairs' storage keys.  When it raises, the table is unchanged
    or has already taken the right table's storage keys. *)
Theorem join_spec right on how t :
  match join right on how t with
  | (Ok (), t') =>
      ∃ pairs on_cols h lk rk d,
        translate_join on = Ok (JPairs pairs) ∧
        Forall2 (λ p q, q = p ∨ q = (p.2, p.1)) pairs on_cols ∧
        Forall (λ q, col_uuid q.1 ∈ dom (col_expr t) ∧ col_uuid q.2 ∈ dom (col_expr right))
               on_cols ∧
        how = Some h ∧ on_cols ≠ [] ∧
        mapM (λ c, dict_getitem (df_name_mapping t) (col_uuid c)) on_cols.*1 = Ok lk ∧
        mapM (λ c, dict_getitem (df_name_mapping right) (col_uuid c)) on_cols.*2 = Ok rk ∧
        df_merge (df t) (df right) h lk rk = Ok d ∧
        t' = set_df d (set_mapping (joined_mapping t right) t)
  | (Err _, t') => t' = t ∨ t' = set_mapping (joined_mapping t right) t
  end.
Proof.
  unfold join. run_st.
  destruct (translate_join on ≫= iter_pairs) as [pairs|e] eqn:Hp; run_st; [|by left].
  destruct (mapM (orient_pair t right) pairs) as [on_cols|e] eqn:Ho; run_st; [|by left].
  destruct how as [h|]; run_st; [|by left].
  destruct (mapM _ on_cols.*1) as [lk|e] eqn:Hlk;
    [destruct (mapM _ on_cols.*2) as [rk|e] eqn:Hrk|];
    destruct on_cols as [|q on_cols']; run_st; try by left.
  destruct (df_merge _ _ _ _ _) as [d|e] eqn:Hd; run_st; [|by right].
  apply bind_Ok in Hp as (v & Hv & Hit). destruct v as [c|ps]; [done|].
  injection Hit as ->. apply mapM_result_Ok in Ho.
  exists pairs, (q :: on_cols'), h, lk, rk, d.
  split; [done|]. split.
  { eapply Forall2_impl; [done|]. intros p q' ?%orient_pair_spec. naive_solver. }
  split.
  { apply Forall_forall. intros q' Hq'.
    apply list_elem_of_lookup in Hq' as [i Hi].
    destruct (Forall2_lookup_r _ _ _ i q' Ho Hi) as (p & _ & Hpq).
    apply orient_pair_spec in Hpq. naive_solver. }
  naive_solver.
Qed.
End verb_props.

(** ** The storage-key invariant

    Every identity in [df_name_mapping] is a 128-bit number stored under a
    key ending in its own hexadecimal string, and every named identity is a
    128-bit number.  Under it, distinct identities have distinct storage
    keys. *)

Definition keys_wf (m : gmap uuid string) : Prop :=
  map_Forall (λ u k, (u < 2 ^ 128)%N ∧ key_of k u) m.

Definition table_wf (t : PandasTableImpl) : Prop :=
  keys_wf (df_name_mapping t) ∧ Forall (λ p, (p.2 < 2 ^ 128)%N) (named_cols t).

Lemma keys_wf_inj m u v k :
  uuid_str_sound → keys_wf m → m !! u = Some k → m !! v = Some k → u = v.
Proof. intros Hs Hm Hu Hv. destruct (Hm _ _ Hu), (Hm _ _ Hv). by eapply key_of_inj. Qed.

Lemma mutate_key_of t n u : key_of (mutate_key t n u) u.
Proof. unfold mutate_key. rewrite !string_app_assoc. apply key_of_sep. Qed.

Lemma dict_lookup_elem {K V} `{EqDecision K} (d : list (K * V)) k v :
  dict_lookup d k = Some v → (k, v) ∈ d.
Proof.
  unfold dict_lookup. intros ([i [k' v']] & Hf & ->)%fmap_Some.
  apply list_find_Some in Hf as (Hi & Hk & _). simpl in *. subst.
  by eapply list_elem_of_lookup_2.
Qed.

Lemma named_col_bound (n : N) t k u :
  Forall (λ p, (p.2 < n)%N) (named_cols t) → named_col t k = Ok u → (u < n)%N.
Proof.
  unfold named_col. intros Hall. destruct (dict_lookup _ _) as [u'|] eqn:Hl; [|done].
  intros [= <-]. apply dict_lookup_elem in Hl. by apply (proj1 (Forall_forall _ _) Hall _ Hl).
Qed.

Lemma keys_wf_mutate_fold t (uk : list (uuid * (string * expr (obj pval)))) m :
  keys_wf m → Forall (λ x, (x.1 < 2 ^ 128)%N) uk →
  keys_wf (foldl (λ m '(u, (n, _)), <[u := mutate_key t n u]> m) m uk).
Proof.
  revert m. induction uk as [|[u [n e]] uk IH]; intros m Hm Hall; simpl; [done|].
  apply Forall_cons in Hall as [Hu Hall]. apply IH; [|done].
  apply map_Forall_insert_2; [|done]. split; [done|apply mutate_key_of].
Qed.

Lemma named_kwargs_bound (n : N) t (kw : list (string * expr (obj pval))) uk :
  Forall (λ p, (p.2 < n)%N) (named_cols t) →
  mapM (λ '(k, v), u ← named_col t k; Ok (u, (k, v))) kw = Ok uk →
  Forall (λ x, (x.1 < n)%N) uk.
Proof.
  intros Hall Huk%mapM_result_Ok. induction Huk as [|[k v] x kw uk Hx _ IH]; constructor; [|done].
  apply bind_Ok in Hx as (u & Hu & [= <-]). by eapply named_col_bound.
Qed.

Lemma init_columns_elem name d next n c :
  (n, c) ∈ init_columns name d next →
  ∃ i, i < length (fr_cols d) ∧ col_uuid c = (next + N.of_nat i)%N.
Proof.
  intros [j Hj]%list_elem_of_lookup. apply list_lookup_imap_Some in Hj as ([n' dt] & Hl & Heq).
  injection Heq as -> ->. exists j. split; [by eapply lookup_lt_Some|done].
Qed.

(** [__init__] establishes the invariant when the counter does not run past
    128 bits. *)
Lemma init_table_wf name d next :
  (next + N.of_nat (length (fr_cols d)) ≤ 2 ^ 128)%N →
  table_wf (PandasTableImpl_init name d next).1.
Proof.
  intros Hb. split; simpl.
  - intros u k Hk. apply elem_of_list_to_map_2, list_elem_of_fmap in Hk as ([n c] & Heq & Hc).
    injection Heq as -> ->. apply init_columns_elem in Hc as (i & Hi & Hu).
    split; [lia|]. rewrite !string_app_assoc. apply key_of_sep.
  - apply Forall_fmap, Forall_forall. intros [n c] Hc.
    apply init_columns_elem in Hc as (i & Hi & Hu). simpl. lia.
Qed.

Ltac table_wf_step :=
  let Hm := fresh "Hm" in let Hn := fresh "Hn" in
  intros [Hm Hn]; split; cbn [df_name_mapping named_cols set_df set_mapping set_col_dtype];
  eauto using keys_wf_mutate_fold, named_kwargs_bound, map_Forall_union_2.

Lemma filter_table_wf reg args t : table_wf t → table_wf (filter reg args t).2.
Proof. unfold filter. run_st_cases; table_wf_step. Qed.

Lemma arrange_table_wf ordering t : table_wf t → table_wf (arrange ordering t).2.
Proof. unfold arrange. run_st_cases; table_wf_step. Qed.

Lemma mutate_table_wf reg kw t : table_wf t → table_wf (mutate reg kw t).2.
Proof. unfold mutate. run_st_cases; table_wf_step. Qed.

Lemma join_table_wf right on how t :
  table_wf right → table_wf t → table_wf (join right on how t).2.
Proof.
  intros [Hr _]. unfold join. run_st_cases; table_wf_step; by apply map_Forall_union_2.
Qed.

(** The tables a program builds: created by [__init__] (directly or through
    [alias]) from a counter that stays within 128 bits, and transformed by
    the verbs, whether the verb returns or raises. *)
Inductive reachable (reg : OperatorRegistry PandasFn) : PandasTableImpl → Prop :=
  | reach_init name d next :
      (next + N.of_nat (length (fr_cols d)) ≤ 2 ^ 128)%N →
      reachable reg (PandasTableImpl_init name d next).1
  | reach_alias t name next t' next' :
      reachable reg t → alias t name next = Ok (t', next') → (next' ≤ 2 ^ 128)%N →
      reachable reg t'
  | reach_mutate kw t : reachable reg t → reachable reg (mutate reg kw t).2
  | reach_filter args t : reachable reg t → reachable reg (filter reg args t).2
  | reach_arrange ordering t : reachable reg t → reachable reg (arrange ordering t).2
  | reach_join right on how t :
      reachable reg right → reachable reg t → reachable reg (join right on how t).2.

Lemma alias_table_wf t name next t' next' :
  alias t name next = Ok (t', next') → (next' ≤ 2 ^ 128)%N → table_wf t'.
Proof.
  unfold alias. intros (d & _ & [= <- <-])%bind_Ok Hb. apply init_table_wf.
  unfold init_columns in Hb. by rewrite length_imap in Hb.
Qed.

Lemma reachable_table_wf reg t : reachable reg t → table_wf t.
Proof.
  induction 1; eauto using init_table_wf, alias_table_wf, mutate_table_wf,
    filter_table_wf, arrange_table_wf, join_table_wf.
Qed.

(** In every table a program builds, distinct column identities are
    stored under distinct frame columns, for a sound [uuid_to_str]. *)
Lemma reachable_keys_inj reg t u v k :
  uuid_str_sound → reachable reg t →
  df_name_mapping t !! u = Some k → df_name_mapping t !! v = Some k → u = v.
Proof. intros Hs Hr%reachable_table_wf. apply keys_wf_inj, Hr. done. Qed.

(** The translated columns keep their identities, in order. *)
Lemma translated_fst (f : expr (obj pval) → result (TypedValue pval))
    (uk : list (uuid * (string * expr (obj pval)))) (tvs : list (uuid * TypedValue pval)) :
  mapM (λ '(u, (_, ex)), tv ← f ex; Ok (u, tv)) uk = Ok tvs → tvs.*1 = uk.*1.
Proof.
  intros H%mapM_result_Ok. induction H as [|[u [n ex]] [u' tv] uk tvs Hb _ IH]; [done|].
  apply bind_Ok in Hb as (tv' & _ & Hb). injection Hb as -> _. by rewrite !fmap_cons, IH.
Qed.

Section mutate_props.
Context (reg : OperatorRegistry PandasFn).

(** C32: [mutate] records the new storage keys in [df_name_mapping]
    before translating the expressions, so an expression that fails to
    translate leaves the table with keys for columns the frame never
    receives, and the error is the translator's. *)
Theorem mutate_translate_error kw t uk e :
  mapM (λ '(k, v), u ← named_col t k; Ok (u, (k, v))) kw = Ok uk →
  mapM (λ '(u, (_, ex)), tv ← translator_of reg (set_mapping (mutate_mapping t uk) t) ex;
                         Ok (u, tv)) uk = Err e →
  mutate reg kw t = (Err e, set_mapping (mutate_mapping t uk) t).
Proof. intros Huk Htr. unfold mutate. run_st. rewrite Huk. run_st. by rewrite Htr. Qed.

(** C13: a successful [mutate] records for each named identity the dtype
    the registry infers for its expression (the last one, when the
    identity is named twice), and keeps the recorded dtype of every other
    identity. *)
Theorem mutate_dtypes kw t t' :
  mutate reg kw t = (Ok (), t') →
  ∃ uk, mapM (λ '(k, v), u ← named_col t k; Ok (u, (k, v))) kw = Ok uk ∧
    ∀ v, (v ∉ uk.*1 → col_dtype_map t' !! v = col_dtype_map t !! v) ∧
         (∀ pre n e post, uk = pre ++ (v, (n, e)) :: post → v ∉ post.*1 →
            col_dtype_map t' !! v = infer_dtype reg pandas_lit_dtype e).
Proof.
  unfold mutate. run_st.
  destruct (mapM _ kw) as [uk|e] eqn:Huk; run_st; [|done].
  destruct (mapM _ uk) as [tvs|e] eqn:Htvs; run_st; [|done].
  destruct (mapM _ tvs) as [cols|e]; run_st; [|done].
  destruct (df_assign _ cols) as [d|e]; run_st; [|done].
  intros [= <-]. exists uk. split; [done|]. intros v. simpl.
  rewrite (lookup_foldl_insert _ fst (λ b, tv_dtype b.2)) by (by intros ? []).
  pose proof (translated_fst _ _ _ Htvs) as Hfst. split.
  - intros Hv. apply foldl_select_miss, Forall_forall. intros b Hb ->.
    apply Hv. rewrite <-Hfst. by apply list_elem_of_fmap_2.
  - intros pre n e post -> Hpost. apply mapM_result_Ok, Forall2_app_inv_l in Htvs
      as (pre' & tvs' & _ & Hrest & ->).
    apply Forall2_cons_inv_l in Hrest as ([u tv] & post' & Hb & Hpost' & ->).
    apply bind_Ok in Hb as (tv' & Htr & [= <- <-]).
    rewrite foldl_select_last; [|done|].
    + symmetry. by eapply translate_expr_infer.
    + apply Forall_forall. intros b Hb ->. apply Hpost.
      rewrite <-(translated_fst (translator_of reg (set_mapping (mutate_mapping t
        (pre ++ (b.1, (n, e)) :: post)) t)) post post'); [by apply list_elem_of_fmap_2|].
      by apply mapM_result_Ok.
Qed.
End mutate_props.

(** ** [__init__] and the verbs keep the frame well formed *)

Lemma init_frame_wf name d next :
  frame_wf d → (next + N.of_nat (length (fr_cols d)) ≤ 2 ^ 128)%N →
  frame_wf (df (PandasTableImpl_init name d next).1).
Proof.
  intros Hwf Hb. rewrite init_df by done. destruct (init_lengths name d next) as [_ Hk].
  destruct Hwf as [_ Hrows]. split; simpl.
  - rewrite fst_zip; [by apply init_keys_nodup|rewrite length_fmap; lia].
  - eapply Forall_impl; [done|]. intros r ->. rewrite length_zip_with, length_fmap. lia.
Qed.

Ltac frame_wf_step :=
  try discriminate; cbn [df set_df set_mapping set_col_dtype];
  eauto using df_assign_wf, df_loc_mask_wf, df_sort_values_wf, df_merge_wf.

Lemma mutate_frame_wf reg kw t : frame_wf (df t) → frame_wf (df (mutate reg kw t).2).
Proof. intros Hwf. unfold mutate. run_st_cases; frame_wf_step. Qed.

Lemma filter_frame_wf reg args t : frame_wf (df t) → frame_wf (df (filter reg args t).2).
Proof. intros Hwf. unfold filter. run_st_cases; frame_wf_step. Qed.

Lemma arrange_frame_wf ordering t : frame_wf (df t) → frame_wf (df (arrange ordering t).2).
Proof. intros Hwf. unfold arrange. run_st_cases; frame_wf_step. Qed.

Lemma join_frame_wf right on how t :
  frame_wf (df t) → frame_wf (df right) → frame_wf (df (join right on how t).2).
Proof. intros Hwf Hr. unfold join. run_st_cases; frame_wf_step. Qed.

(** every frame a table holds is well formed (distinct column names,
    every row as wide as the header): [__init__] makes one from a
    well-formed frame when the counter has room for the fresh identities,
    and [mutate], [filter], [arrange] and [join] keep it so, whether they
    return or raise. *)
Theorem frame_wf_invariant reg name d next t right kw args ordering on how :
  (frame_wf d → (next + N.of_nat (length (fr_cols d)) ≤ 2 ^ 128)%N →
   frame_wf (df (PandasTableImpl_init name d next).1)) ∧
  (frame_wf (df t) → frame_wf (df right) →
   frame_wf (df (mutate reg kw t).2) ∧ frame_wf (df (filter reg args t).2) ∧
   frame_wf (df (arrange ordering t).2) ∧ frame_wf (df (join right on how t).2)).
Proof.
  split; [apply init_frame_wf|]. intros Ht Hr.
  split; [by apply mutate_frame_wf|]. split; [by apply filter_frame_wf|].
  split; [by apply arrange_frame_wf|by apply join_frame_wf].
Qed.

(** Tables created from the counter one after the other own disjoint
    identities, so a [join] of two of them takes the right table's storage
    keys without overwriting any of the left table's. *)
Theorem init_disjoint name1 d1 next1 name2 d2 :
  let t1 := (PandasTableImpl_init name1 d1 next1).1 in
  let next2 := (PandasTableImpl_init name1 d1 next1).2 in
  df_name_mapping t1 ##ₘ df_name_mapping (PandasTableImpl_init name2 d2 next2).1 ∧
  ∀ u k, df_name_mapping t1 !! u = Some k →
    joined_mapping t1 (PandasTableImpl_init name2 d2 next2).1 !! u = Some k.
Proof.
  intros t1 next2.
  assert (Hdis : df_name_mapping t1 ##ₘ df_name_mapping (PandasTableImpl_init name2 d2 next2).1).
  { apply map_disjoint_spec. intros u k1 k2 H1 H2.
    destruct (init_identity_range name1 d1 next1 u) as [[Hr1 _] Hn].
    destruct (init_identity_range name2 d2 next2 u) as [[Hr2 _] _].
    specialize (Hr1 (mk_is_Some _ _ H1)). specialize (Hr2 (mk_is_Some _ _ H2)).
    unfold next2 in Hr2. rewrite Hn in Hr2. lia. }
  split; [done|]. intros u k Hk. unfold joined_mapping.
  rewrite lookup_union_r; [done|]. eapply map_disjoint_Some_l; [|done]. by symmetry.
Qed.

(** ** Concrete tables

    A second table, built by [__init__] from a two-column frame with
    identities 3-4, columns of both tables, and a registry holding
    [str.strip]. *)

Definition ex_right : PandasTableImpl :=
  (PandasTableImpl_init "u" (mkFrame [("c", np_int64); ("d", np_bool)] [[CInt 1; CBool true]]) 3%N).1.

Definition pt_a : column := Column "a" "t" "int" 0%N.
Definition pt_b : column := Column "b" "t" "bool" 1%N.
Definition pt_s : column := Column "s" "t" "object" 2%N.
Definition pt_c : column := Column "c" "u" "int" 3%N.
Definition pt_d : column := Column "d" "u" "bool" 4%N.

Definition ex_registry : OperatorRegistry PandasFn :=
  match register_str_strip ∅ with Ok r => r | Err _ => ∅ end.

Definition ex_strip : expr (obj pval) := FunctionCall "str.strip" [Leaf (OColumn pt_s)] [].
Definition ex_on : expr (obj pval) :=
  FunctionCall "__and__" [FunctionCall "__eq__" [Leaf (OColumn pt_a); Leaf (OColumn pt_c)] [];
                          FunctionCall "__eq__" [Leaf (OColumn pt_d); Leaf (OColumn pt_b)] []] [].

Lemma ex_strip_translates :
  translate_expr ex_registry (df_name_mapping ex_table) (df ex_table) ex_strip =
  Ok (TypedValue2 (PSeries (mkSeries np_object [CStr "x"; CStr "y"])) "object").
Proof. reflexivity. Qed.

Lemma ExpressionTranslator_dtype_witness :
  infer_dtype ex_registry pandas_lit_dtype ex_strip = Some "object".
Proof.
  exact (ExpressionTranslator_dtype ex_registry _ _ ex_strip _ ex_strip_translates).
Defined.

Lemma ExpressionTranslator_ftype_witness :
  tv_ftype (TypedValue2 (PSeries (mkSeries np_object [CStr "x"; CStr "y"])) "object") = FScalar.
Proof. exact (ExpressionTranslator_ftype ex_registry _ _ _ _ _ _ ex_strip_translates). Defined.

Lemma translate_join_conj_witness :
  conj_pairs ex_on = Some [(pt_a, pt_c); (pt_d, pt_b)] ∧
  translate_join ex_on = Ok (JPairs [(pt_a, pt_c); (pt_d, pt_b)]).
Proof.
  assert (H : conj_pairs ex_on = Some [(pt_a, pt_c); (pt_d, pt_b)]) by reflexivity.
  split; [exact H|]. exact (translate_join_conj _ _ H).
Defined.

Lemma translate_join_shape_witness : expr_all is_column_leaf is_join_op ex_on = true.
Proof.
  assert (H : translate_join ex_on = Ok (JPairs [(pt_a, pt_c); (pt_d, pt_b)])) by reflexivity.
  exact (translate_join_shape _ _ H).
Defined.

Lemma filter_not_bool_witness :
  translator_of ex_registry ex_table (conjoin (Leaf (OColumn pt_a)) []) =
    Ok (TypedValue2 (PSeries (mkSeries np_int64 [CInt 2; CInt 1])) "int") ∧
  filter ex_registry [Leaf (OColumn pt_a)] ex_table =
    (Err (PyExc AssertionError "" None), ex_table).
Proof.
  assert (H : translator_of ex_registry ex_table (conjoin (Leaf (OColumn pt_a)) []) =
    Ok (TypedValue2 (PSeries (mkSeries np_int64 [CInt 2; CInt 1])) "int")) by reflexivity.
  split; [exact H|]. apply (filter_not_bool _ _ _ _ _ H). done.
Defined.

Lemma mutate_translate_error_witness :
  ∃ e, mutate ex_registry [("a", Leaf (OOther "NoneType"))] ex_table =
         (Err e, set_mapping (mutate_mapping ex_table [(0%N, ("a", Leaf (OOther "NoneType")))])
                             ex_table) ∧
       mutate_mapping ex_table [(0%N, ("a", Leaf (OOther "NoneType")))] !! 0%N =
         Some ("t_mutate_a_" +:+ uuid_to_str 0%N).
Proof.
  eexists. split; [|reflexivity]. apply (mutate_translate_error ex_registry); reflexivity.
Defined.

Lemma mutate_key_inj_witness :
  mutate_key ex_table "x" 1%N = "t_mutate_x_00000000000000000000000000000001" ∧
  (1 = 1 ∧ "x" = "x")%N.
Proof.
  assert (H : mutate_key ex_table "x" 1%N = "t_mutate_x_00000000000000000000000000000001")
    by reflexivity.
  split; [exact H|].
  apply (mutate_key_inj ex_table "x" "x" 1 1); [exact uuid_to_str_sound|reflexivity|reflexivity|done].
Defined.

Lemma mutate_dtypes_witness :
  ∃ t', mutate ex_registry [("a", Leaf (OInt 5))] ex_table = (Ok (), t') ∧
  ∃ uk, mapM (λ '(k, v), u ← named_col ex_table k; Ok (u, (k, v))) [("a", Leaf (OInt 5))] = Ok uk ∧
    ∀ v, (v ∉ uk.*1 → col_dtype_map t' !! v = col_dtype_map ex_table !! v) ∧
         (∀ pre n e post, uk = pre ++ (v, (n, e)) :: post → v ∉ post.*1 →
            col_dtype_map t' !! v = infer_dtype ex_registry pandas_lit_dtype e).
Proof.
  exists (mutate ex_registry [("a", Leaf (OInt 5))] ex_table).2.
  assert (H : mutate ex_registry [("a", Leaf (OInt 5))] ex_table =
              (Ok (), (mutate ex_registry [("a", Leaf (OInt 5))] ex_table).2))
    by (vm_compute; reflexivity).
  split; [exact H|]. exact (mutate_dtypes ex_registry _ _ _ H).
Defined.
