(* ===== verification/Contract.v ===== *)
(** * The table contract and its refinement by the pandas table

    The spec (section 4.4) describes what a backend table promises in terms
    of column identities: the table owns a mapping from each identity to
    its data, [filter] restricts every column to the rows where the
    condition holds, [arrange] reorders the rows (a stable sort on the
    ordering's keys) alike in every column, [join] pairs the rows of two
    tables whose key cells agree, and [mutate] gives each named
    identity the data of its translated expression, leaving the other
    identities' data alone.

    [abs t] is that abstract state for a pandas table: each identity in
    [df_name_mapping] mapped to the cells [df[key]] returns for its storage
    key.  [abs_filter], [abs_arrange], [abs_join], [abs_join_left] and
    [abs_mutate] are the contract's operations on it, with
    [abs_join_right] and [abs_join_outer] for the other two kinds of
    join; the theorems show that the pandas verbs refine them, [join]
    for every [how] pandas accepts. *)

From Stdlib Require Import Permutation.
From S2P Require Import Prelude Expr Registry Translator StableSort Frame Merge FrameColumns Strip Table PandasTable.

(** ** The abstract table and its operations *)

(** The data of each column identity. *)
Abbreviation abs_table := (gmap uuid (list cell)).

Definition abs_filter (m : list bool) (a : abs_table) : abs_table := (λ cs, mask_rows cs m) <$> a.

(** Every identity's cells reordered alike: the cells at positions [σ]. *)
Definition abs_arrange (σ : list nat) (a : abs_table) : abs_table := (λ cs, omap (λ i, cs !! i) σ) <$> a.

(** The inner join of two abstract tables along row pairs [P]: each
    identity of the right table takes its cells at the right positions of
    the pairs, each identity of the left table its cells at the left
    positions (the right table's identities first, as [dict.update]). *)
Definition abs_join (P : list (nat * nat)) (a b : abs_table) : abs_table :=
  ((λ cs, omap (λ p, cs !! p.2) P) <$> b) ∪ ((λ cs, omap (λ p, cs !! p.1) P) <$> a).

(** The left join along row pairs [P] whose right position may be
    missing: there the right table's identities hold a missing value. *)
Definition abs_join_left (P : list (nat * option nat)) (a b : abs_table) : abs_table :=
  ((λ cs, omap (λ p, match p.2 with Some j => cs !! j | None => Some CNull end) P) <$> b) ∪
  ((λ cs, omap (λ p, cs !! p.1) P) <$> a).

(** The right join along row pairs [P] whose left position may be
    missing: there the left table's identities hold a missing value. *)
Definition abs_join_right (P : list (option nat * nat)) (a b : abs_table) : abs_table :=
  ((λ cs, omap (λ p, cs !! p.2) P) <$> b) ∪
  ((λ cs, omap (λ p, match p.1 with Some i => cs !! i | None => Some CNull end) P) <$> a).

(** The outer join along row pairs [P] either of whose positions may be
    missing: there that table's identities hold a missing value. *)
Definition abs_join_outer (P : list (option nat * option nat)) (a b : abs_table) : abs_table :=
  ((λ cs, omap (λ p, match p.2 with Some j => cs !! j | None => Some CNull end) P) <$> b) ∪
  ((λ cs, omap (λ p, match p.1 with Some i => cs !! i | None => Some CNull end) P) <$> a).

(** Each update gives an identity its new data; a later update of the same
    identity wins. *)
Definition abs_mutate (a : abs_table) (upd : list (uuid * list cell)) : abs_table :=
  foldl (λ a b, <[b.1 := b.2]> a) a upd.

(** ** The abstraction of a pandas table *)

(** What a [Column] of identity [u] evaluates to in the table: the cells
    under the storage key [df_name_mapping[u]]. *)
Definition abs (t : PandasTableImpl) : abs_table := omap (frame_column (df t)) (df_name_mapping t).

Lemma abs_lookup t u : abs t !! u = df_name_mapping t !! u ≫= frame_column (df t).
Proof. apply lookup_omap. Qed.

(** The abstraction is what the pandas translator gives a column leaf. *)
Lemma abs_translate_col t c :
  abs t !! col_uuid c =
  (λ tv, match tv_value tv with PSeries s => ser_data s | PScalar _ => [] end) <$>
    result_to_option (pandas_translate_col (df_name_mapping t) (df t) c).
Proof.
  rewrite abs_lookup. unfold pandas_translate_col, dict_getitem.
  destruct (df_name_mapping t !! col_uuid c) as [k|]; simpl; [|done].
  rewrite <-df_getitem_frame_column. by destruct (df_getitem (df t) k).
Qed.

Section refinement.
Context (reg : OperatorRegistry PandasFn).

(** C7: [filter] refines the contract's filter: when it returns, either
    there was no condition and nothing changed, or the conjunction of the
    conditions translated to a boolean series as long as the frame and
    every identity's data is masked by its cells; when it raises, the
    abstract table is unchanged. *)
Theorem filter_refines args t :
  frame_wf (df t) →
  match filter reg args t with
  | (Ok (), t') =>
      (args = [] ∧ abs t' = abs t) ∨
      ∃ a rest s ft m, args = a :: rest ∧
        translator_of reg t (conjoin a rest) = Ok (mkTypedValue (PSeries s) "bool" ft) ∧
        bool_cells (ser_data s) = Some m ∧ length m = length (fr_rows (df t)) ∧
        abs t' = abs_filter m (abs t)
  | (Err _, t') => abs t' = abs t
  end.
Proof.
  intros Hwf. unfold filter. destruct args as [|a rest]; run_st; [by left|].
  destruct (translator_of reg t _) as [[v dt ft]|e] eqn:Htr; run_st; [|done].
  case_bool_decide as Hdt; run_st; [|done]. simpl in Hdt. subst dt.
  destruct (df_loc_mask (df t) _) as [d|e] eqn:Hd; run_st; [|done].
  right. destruct (df_loc_mask_column _ _ _ Hwf Hd) as (s & m & -> & Hb & Hm & Hcol).
  exists a, rest, s, ft, m. do 4 (split; [done|]). apply map_eq. intros u.
  unfold abs_filter. rewrite lookup_fmap, !abs_lookup. simpl.
  destruct (df_name_mapping t !! u) as [k|]; simpl; [|done]. apply Hcol.
Qed.

(** C8: [arrange] refines the contract's arrange: when it returns, the
    ordering's columns were found under their storage keys and every
    identity's cells are reordered alike, by the stable sort of the row
    positions on the ordering's key cells, a permutation of the rows; when
    it raises, the abstract table is unchanged. *)
Theorem arrange_refines ordering t :
  frame_wf (df t) →
  match arrange ordering t with
  | (Ok (), t') =>
      ∃ cols keys, mapM (λ c, dict_getitem (df_name_mapping t) (col_uuid c)) ordering.*1 = Ok cols ∧
        sort_keys (df t) cols ordering.*2 = Ok keys ∧
        Permutation (sort_perm keys (fr_rows (df t))) (seq 0 (length (fr_rows (df t)))) ∧
        abs t' = abs_arrange (sort_perm keys (fr_rows (df t))) (abs t)
  | (Err _, t') => abs t' = abs t
  end.
Proof.
  intros Hwf. unfold arrange. run_st.
  destruct (mapM _ _) as [cols|e] eqn:Hcols; destruct ordering as [|o ordering']; run_st; try done.
  destruct (df_sort_values _ _ _) as [d|e] eqn:Hd; run_st; [|done].
  destruct (df_sort_values_column _ _ _ _ Hwf Hd) as (keys & Hkeys & Hcol).
  exists cols, keys. do 2 (split; [done|]). split; [apply sort_perm_perm|].
  apply map_eq. intros u. unfold abs_arrange. rewrite lookup_fmap, !abs_lookup. simpl.
  destruct (df_name_mapping t !! u) as [k|]; simpl; [|done]. apply Hcol.
Qed.

Lemma mutate_mapping_lookup t uk v :
  mutate_mapping t uk !! v =
  foldl (select_step (λ b, v = b.1) (λ b, mutate_key t b.2.1 b.1)) (df_name_mapping t !! v) uk.
Proof. apply lookup_foldl_insert. by intros m [u [n e]]. Qed.

Lemma abs_mutate_lookup a upd v : abs_mutate a upd !! v = foldl (select_step (λ b, v = b.1) snd) (a !! v) upd.
Proof. by apply lookup_foldl_insert. Qed.

(** The columns handed to [assign]: each identity's storage key, with the
    translated value. *)
Lemma assigned_keys (M : gmap uuid string) (tvs : list (uuid * TypedValue pval)) cols :
  mapM (λ '(u, tv), k ← dict_getitem M u; Ok (k, tv_value tv)) tvs = Ok cols →
  Forall2 (λ b kv, M !! b.1 = Some kv.1 ∧ kv.2 = tv_value b.2) tvs cols.
Proof.
  intros H%mapM_result_Ok. eapply Forall2_impl; [done|]. intros [u tv] [k v] Hb.
  apply bind_Ok in Hb as (k' & Hk & [= <- <-]). unfold dict_getitem in Hk.
  destruct (M !! u) eqn:Hu; [|done]. injection Hk as ->. done.
Qed.

(** The abstract table after a successful [mutate]. *)
Lemma mutate_abs kw t t' :
  uuid_str_sound → table_wf t → frame_wf (df t) → mutate reg kw t = (Ok (), t') →
  ∃ uk tvs, mapM (λ '(k, v), u ← named_col t k; Ok (u, (k, v))) kw = Ok uk ∧
    mapM (λ '(u, (_, ex)), tv ← translator_of reg (set_mapping (mutate_mapping t uk) t) ex;
                           Ok (u, tv)) uk = Ok tvs ∧
    abs t' = abs_mutate (abs t)
               ((λ b, (b.1, value_cells (length (fr_rows (df t))) (tv_value b.2))) <$> tvs).
Proof.
  intros Hs [Hkeys Hnamed] Hwf. unfold mutate. run_st.
  destruct (mapM _ kw) as [uk|e] eqn:Huk; run_st; [|done].
  destruct (mapM _ uk) as [tvs|e] eqn:Htvs; run_st; [|done].
  destruct (mapM _ tvs) as [cols|e] eqn:Hcols; run_st; [|done].
  destruct (df_assign _ cols) as [d|e] eqn:Hd; run_st; [|done].
  intros [= <-]. exists uk, tvs. split; [done|]. split; [done|].
  set (n := length (fr_rows (df t))).
  set (upd := (λ b, (b.1, value_cells n (tv_value b.2))) <$> tvs).
  assert (HM : keys_wf (mutate_mapping t uk)).
  { apply keys_wf_mutate_fold; [done|]. by eapply named_kwargs_bound. }
  assert (Hfst : upd.*1 = uk.*1).
  { unfold upd. rewrite <-(translated_fst _ uk tvs Htvs), <-list_fmap_compose.
    by apply list_fmap_ext. }
  apply map_eq. intros v. rewrite abs_lookup, abs_mutate_lookup, abs_lookup. simpl.
  destruct (mutate_mapping t uk !! v) as [K|] eqn:HK; simpl.
  - rewrite (proj2 (df_assign_column _ _ _ K Hwf Hd)). unfold assigned_cells.
    assert (Hrel : Forall2 (λ kv b, mutate_mapping t uk !! b.1 = Some kv.1 ∧
                                    b.2 = value_cells n kv.2) cols upd).
    { unfold upd. apply Forall2_fmap_r, Forall2_flip. eapply Forall2_impl; [by apply assigned_keys|].
      intros [u tv] [k x] [Hk ->]. done. }
    rewrite (foldl_Forall2_ext _ _ (select_step (λ b, v = b.1) snd) _ _ _ Hrel).
    2:{ intros acc [k x] [u c] [Hu Hc]. unfold select_step. simpl in *. subst c.
        destruct (decide (K = k)) as [->|Hne], (decide (v = u)) as [->|Hne']; try done.
        - by destruct Hne'; apply (keys_wf_inj _ _ _ _ Hs HM HK Hu).
        - congruence. }
    destruct (decide (Exists (λ b, v = b.1) upd)) as [Hin|Hout].
    + by apply foldl_select_hit.
    + rewrite !foldl_select_none by done.
      rewrite mutate_mapping_lookup, foldl_select_none in HK; [by rewrite HK|].
      by rewrite Exists_fst_elem, <-Hfst, <-Exists_fst_elem.
  - assert (Hout : ¬ Exists (λ b, v = b.1) uk).
    { intros Hin. destruct (foldl_select_Some _ (λ b, mutate_key t b.2.1 b.1)
                             (df_name_mapping t !! v) uk Hin) as [k Hk].
      rewrite <-mutate_mapping_lookup in Hk. congruence. }
    rewrite mutate_mapping_lookup, foldl_select_none in HK by done.
    rewrite HK. simpl. rewrite foldl_select_none; [done|].
    by rewrite Exists_fst_elem, Hfst, <-Exists_fst_elem.
Qed.

Lemma mutate_upd_fst n (tvs : list (uuid * TypedValue pval)) :
  ((λ b, (b.1, value_cells n (tv_value b.2))) <$> tvs).*1 = tvs.*1.
Proof. rewrite <-list_fmap_compose. by apply list_fmap_ext. Qed.

(** A successful [mutate] leaves every identity it does not name alone,
    and gives each one it names some data. *)
Lemma mutate_abs_other kw t t' uk v :
  uuid_str_sound → table_wf t → frame_wf (df t) → mutate reg kw t = (Ok (), t') →
  mapM (λ '(k, v), u ← named_col t k; Ok (u, (k, v))) kw = Ok uk →
  (v ∉ uk.*1 → abs t' !! v = abs t !! v) ∧ (v ∈ uk.*1 → is_Some (abs t' !! v)).
Proof.
  intros Hs Hwf Hfwf Hm Huk. destruct (mutate_abs kw t t' Hs Hwf Hfwf Hm) as (uk' & tvs & Huk' & Htvs & ->).
  rewrite Huk in Huk'. injection Huk' as <-. rewrite abs_mutate_lookup, <-(translated_fst _ uk tvs Htvs).
  rewrite <-(mutate_upd_fst (length (fr_rows (df t)))), <-Exists_fst_elem. split.
  - intros Hv. by rewrite foldl_select_none.
  - apply foldl_select_Some.
Qed.

(** C6: [mutate] refines the contract's mutate: when it returns, the
    abstract table is the old one with each named identity given the cells
    of its translated expression (a later binding of one identity wins),
    and every other identity keeps its data.  For a [uuid_to_str] that is
    injective and writes no ['_'] ([uuid_str_sound]), distinct identities
    never share a storage key, so writing one column cannot disturb
    another. *)
Theorem mutate_refines kw t t' :
  uuid_str_sound → table_wf t → frame_wf (df t) → mutate reg kw t = (Ok (), t') →
  ∃ uk tvs, mapM (λ '(k, v), u ← named_col t k; Ok (u, (k, v))) kw = Ok uk ∧
    mapM (λ '(u, (_, ex)), tv ← translator_of reg (set_mapping (mutate_mapping t uk) t) ex;
                           Ok (u, tv)) uk = Ok tvs ∧
    abs t' = abs_mutate (abs t)
               ((λ b, (b.1, value_cells (length (fr_rows (df t))) (tv_value b.2))) <$> tvs).
Proof. apply mutate_abs. Qed.
(** A successful [join]: the parsed and oriented pairs, the storage keys,
    and the merged frame in the table with the right table's keys. *)
Lemma join_Ok right on how t t' :
  join right on how t = (Ok (), t') →
  ∃ pairs on_cols h lk rk d,
    translate_join on = Ok (JPairs pairs) ∧ Forall2 (λ p q, q = p ∨ q = (p.2, p.1)) pairs on_cols ∧
    how = Some h ∧
    mapM (λ c, dict_getitem (df_name_mapping t) (col_uuid c)) on_cols.*1 = Ok lk ∧
    mapM (λ c, dict_getitem (df_name_mapping right) (col_uuid c)) on_cols.*2 = Ok rk ∧
    df_merge (df t) (df right) h lk rk = Ok d ∧
    t' = set_df d (set_mapping (df_name_mapping right ∪ df_name_mapping t) t).
Proof.
  unfold join. run_st.
  destruct (translate_join on ≫= iter_pairs) as [pairs|e] eqn:Hp; run_st; [|done].
  destruct (mapM (orient_pair t right) pairs) as [on_cols|e] eqn:Ho; run_st; [|done].
  destruct how as [h|]; run_st; [|done].
  destruct (mapM _ on_cols.*1) as [lk|e] eqn:Hlk; [destruct (mapM _ on_cols.*2) as [rk|e] eqn:Hrk|];
    destruct on_cols as [|q on_cols']; run_st; try done.
  destruct (df_merge _ _ _ _ _) as [d|e] eqn:Hd; run_st; [|done]. intros [= <-].
  apply bind_Ok in Hp as ([c|ps] & Hv & Hit); [done|]. injection Hit as ->.
  exists pairs, (q :: on_cols'), h, lk, rk, d. split; [done|]. split; [|naive_solver].
  apply mapM_result_Ok in Ho. eapply Forall2_impl; [done|]. intros p q' ?%orient_pair_spec. naive_solver.
Qed.

(** The abstraction of a merged table: the right table's identities read
    the merged frame's right columns, the left table's its left columns. *)
Lemma abs_merged t right d fa fb :
  df_name_mapping t ##ₘ df_name_mapping right →
  map_Forall (λ _ k, k ∈ frame_keys (df t)) (df_name_mapping t) →
  map_Forall (λ _ k, k ∈ frame_keys (df right)) (df_name_mapping right) →
  (∀ k, k ∈ frame_keys (df t) → k ∉ frame_keys (df right)) →
  (∀ k, frame_column d k = match frame_column (df t) k with
                           | Some cs => Some (fa cs)
                           | None => fb <$> frame_column (df right) k
                           end) →
  abs (set_df d (set_mapping (df_name_mapping right ∪ df_name_mapping t) t)) =
  (fb <$> abs right) ∪ (fa <$> abs t).
Proof.
  intros Hdis Hkl Hkr Hov Hcol. apply map_eq. intros u.
  rewrite abs_lookup, lookup_union, !lookup_fmap, !abs_lookup. simpl. rewrite lookup_union.
  destruct (df_name_mapping right !! u) as [k'|] eqn:Hu', (df_name_mapping t !! u) as [k|] eqn:Hu;
    simpl; try done.
  - by rewrite (map_disjoint_Some_l _ _ _ _ Hdis Hu) in Hu'.
  - rewrite Hcol, frame_column_None; [by destruct (frame_column (df right) k')|].
    intros Hk'. by apply (Hov k'), (Hkr u k').
  - rewrite Hcol. by destruct (frame_column_Some (df t) k (Hkl u k Hu)) as [cs ->].
Qed.

(** C9: an inner [join] refines the contract's join: when it returns, the
    condition was parsed into column pairs oriented left to right, their
    storage keys located in the two frames, and the abstract table is the
    join of the two abstract tables along the pairs of row positions whose
    cells under those keys agree, left-major.  This needs the two tables
    to own disjoint identities (as tables created from the counter do) and
    every storage key of a table to name a column of its frame. *)
Theorem join_refines right on t t' :
  frame_wf (df t) → frame_wf (df right) → df_name_mapping t ##ₘ df_name_mapping right →
  map_Forall (λ _ k, k ∈ frame_keys (df t)) (df_name_mapping t) →
  map_Forall (λ _ k, k ∈ frame_keys (df right)) (df_name_mapping right) →
  join right on (Some "inner") t = (Ok (), t') →
  ∃ pairs on_cols lk rk lidx ridx,
    translate_join on = Ok (JPairs pairs) ∧ Forall2 (λ p q, q = p ∨ q = (p.2, p.1)) pairs on_cols ∧
    mapM (λ c, dict_getitem (df_name_mapping t) (col_uuid c)) on_cols.*1 = Ok lk ∧
    mapM (λ c, dict_getitem (df_name_mapping right) (col_uuid c)) on_cols.*2 = Ok rk ∧
    key_positions (df t) lk = Ok lidx ∧ key_positions (df right) rk = Ok ridx ∧
    abs t' = abs_join (inner_pairs lidx ridx (fr_rows (df t)) (fr_rows (df right))) (abs t) (abs right).
Proof.
  intros Hwl Hwr Hdis Hkl Hkr (pairs & on_cols & h & lk & rk & d & Hp & Ho & [= <-] & Hlk & Hrk & Hd & ->)%join_Ok.
  pose proof Hd as (_ & _ & _ & _ & _ & Hov & _)%df_merge_Ok.
  destruct (df_merge_inner_column _ _ _ _ _ Hwl Hwr Hd) as (lidx & ridx & Hl & Hr & Hcol).
  exists pairs, on_cols, lk, rk, lidx, ridx. do 6 (split; [done|]). by apply abs_merged.
Qed.

(** C10: a left [join] refines the contract's left join: as for an inner
    join, except that a left row without a match is kept once, with the
    right table's identities missing there. *)
Theorem join_left_refines right on t t' :
  frame_wf (df t) → frame_wf (df right) → df_name_mapping t ##ₘ df_name_mapping right →
  map_Forall (λ _ k, k ∈ frame_keys (df t)) (df_name_mapping t) →
  map_Forall (λ _ k, k ∈ frame_keys (df right)) (df_name_mapping right) →
  join right on (Some "left") t = (Ok (), t') →
  ∃ pairs on_cols lk rk lidx ridx,
    translate_join on = Ok (JPairs pairs) ∧ Forall2 (λ p q, q = p ∨ q = (p.2, p.1)) pairs on_cols ∧
    mapM (λ c, dict_getitem (df_name_mapping t) (col_uuid c)) on_cols.*1 = Ok lk ∧
    mapM (λ c, dict_getitem (df_name_mapping right) (col_uuid c)) on_cols.*2 = Ok rk ∧
    key_positions (df t) lk = Ok lidx ∧ key_positions (df right) rk = Ok ridx ∧
    abs t' = abs_join_left (left_pairs lidx ridx (fr_rows (df t)) (fr_rows (df right))) (abs t) (abs right).
Proof.
  intros Hwl Hwr Hdis Hkl Hkr (pairs & on_cols & h & lk & rk & d & Hp & Ho & [= <-] & Hlk & Hrk & Hd & ->)%join_Ok.
  pose proof Hd as (_ & _ & _ & _ & _ & Hov & _)%df_merge_Ok.
  destruct (df_merge_left_column _ _ _ _ _ Hwl Hwr Hd) as (lidx & ridx & Hl & Hr & Hcol).
  exists pairs, on_cols, lk, rk, lidx, ridx. do 6 (split; [done|]). by apply abs_merged.
Qed.
(** C11: a right [join] refines the contract's right join: as for an inner
    join, except that the pairs are right-major and a right row without a
    match is kept once, with the left table's identities missing there. *)
Theorem join_right_refines right on t t' :
  frame_wf (df t) → frame_wf (df right) → df_name_mapping t ##ₘ df_name_mapping right →
  map_Forall (λ _ k, k ∈ frame_keys (df t)) (df_name_mapping t) →
  map_Forall (λ _ k, k ∈ frame_keys (df right)) (df_name_mapping right) →
  join right on (Some "right") t = (Ok (), t') →
  ∃ pairs on_cols lk rk lidx ridx,
    translate_join on = Ok (JPairs pairs) ∧ Forall2 (λ p q, q = p ∨ q = (p.2, p.1)) pairs on_cols ∧
    mapM (λ c, dict_getitem (df_name_mapping t) (col_uuid c)) on_cols.*1 = Ok lk ∧
    mapM (λ c, dict_getitem (df_name_mapping right) (col_uuid c)) on_cols.*2 = Ok rk ∧
    key_positions (df t) lk = Ok lidx ∧ key_positions (df right) rk = Ok ridx ∧
    abs t' = abs_join_right (right_pairs lidx ridx (fr_rows (df t)) (fr_rows (df right))) (abs t) (abs right).
Proof.
  intros Hwl Hwr Hdis Hkl Hkr (pairs & on_cols & h & lk & rk & d & Hp & Ho & [= <-] & Hlk & Hrk & Hd & ->)%join_Ok.
  pose proof Hd as (_ & _ & _ & _ & _ & Hov & _)%df_merge_Ok.
  destruct (df_merge_right_column _ _ _ _ _ Hwl Hwr Hd) as (lidx & ridx & Hl & Hr & Hcol).
  exists pairs, on_cols, lk, rk, lidx, ridx. do 6 (split; [done|]). by apply abs_merged.
Qed.
(** C12: an outer [join] refines the contract's outer join: the row pairs
    are those of the left join followed by the right rows without a match,
    sorted by the join key (a permutation of them); each identity's cells
    follow the pairs, missing where the pair has no row of its table. *)
Theorem join_outer_refines right on t t' :
  frame_wf (df t) → frame_wf (df right) → df_name_mapping t ##ₘ df_name_mapping right →
  map_Forall (λ _ k, k ∈ frame_keys (df t)) (df_name_mapping t) →
  map_Forall (λ _ k, k ∈ frame_keys (df right)) (df_name_mapping right) →
  join right on (Some "outer") t = (Ok (), t') →
  ∃ pairs on_cols lk rk lidx ridx,
    translate_join on = Ok (JPairs pairs) ∧ Forall2 (λ p q, q = p ∨ q = (p.2, p.1)) pairs on_cols ∧
    mapM (λ c, dict_getitem (df_name_mapping t) (col_uuid c)) on_cols.*1 = Ok lk ∧
    mapM (λ c, dict_getitem (df_name_mapping right) (col_uuid c)) on_cols.*2 = Ok rk ∧
    key_positions (df t) lk = Ok lidx ∧ key_positions (df right) rk = Ok ridx ∧
    abs t' = abs_join_outer (outer_pairs lidx ridx (fr_rows (df t)) (fr_rows (df right))
                               (length (fr_cols (df t))) (length (fr_cols (df right))))
                            (abs t) (abs right).
Proof.
  intros Hwl Hwr Hdis Hkl Hkr (pairs & on_cols & h & lk & rk & d & Hp & Ho & [= <-] & Hlk & Hrk & Hd & ->)%join_Ok.
  pose proof Hd as (_ & _ & _ & _ & _ & Hov & _)%df_merge_Ok.
  destruct (df_merge_outer_column _ _ _ _ _ Hwl Hwr Hd) as (lidx & ridx & Hl & Hr & Hcol).
  exists pairs, on_cols, lk, rk, lidx, ridx. do 6 (split; [done|]). by apply abs_merged.
Qed.
End refinement.

(** ** On the concrete table *)

(** The join condition [t.a == u.c]. *)
Definition ex_on_a_c : expr (obj pval) := FunctionCall "__eq__" [Leaf (OColumn pt_a); Leaf (OColumn pt_c)] [].


Lemma ex_table_wf : frame_wf (df ex_table).
Proof. split; [apply (bool_decide_unpack _); vm_compute; exact I|repeat constructor]. Qed.

Lemma filter_refines_witness :
  frame_wf (df ex_table) ∧
  match filter ex_registry [Leaf (OColumn pt_b)] ex_table with
  | (Ok (), t') =>
      ([Leaf (OColumn (V:=pval) pt_b)] = [] ∧ abs t' = abs ex_table) ∨
      ∃ a rest s ft m, [Leaf (OColumn (V:=pval) pt_b)] = a :: rest ∧
        translator_of ex_registry ex_table (conjoin a rest) = Ok (mkTypedValue (PSeries s) "bool" ft) ∧
        bool_cells (ser_data s) = Some m ∧ length m = length (fr_rows (df ex_table)) ∧
        abs t' = abs_filter m (abs ex_table)
  | (Err _, t') => abs t' = abs ex_table
  end.
Proof. split; [exact ex_table_wf|]. exact (filter_refines ex_registry [Leaf (OColumn pt_b)] ex_table ex_table_wf). Defined.

Lemma arrange_refines_witness :
  frame_wf (df ex_table) ∧
  match arrange [(pt_a, true)] ex_table with
  | (Ok (), t') =>
      ∃ cols keys, mapM (λ c, dict_getitem (df_name_mapping ex_table) (col_uuid c)) [(pt_a, true)].*1 = Ok cols ∧
        sort_keys (df ex_table) cols [(pt_a, true)].*2 = Ok keys ∧
        Permutation (sort_perm keys (fr_rows (df ex_table))) (seq 0 (length (fr_rows (df ex_table)))) ∧
        abs t' = abs_arrange (sort_perm keys (fr_rows (df ex_table))) (abs ex_table)
  | (Err _, t') => abs t' = abs ex_table
  end.
Proof. split; [exact ex_table_wf|]. exact (arrange_refines [(pt_a, true)] ex_table ex_table_wf). Defined.

(** Sorting [ex_table] on [a] swaps its two rows in every column. *)
Lemma ex_arranged_abs :
  abs (arrange [(pt_a, true)] ex_table).2 = abs_arrange [1; 0] (abs ex_table).
Proof. vm_compute. reflexivity. Qed.

Lemma ex_right_wf : frame_wf (df ex_right).
Proof. split; [apply (bool_decide_unpack _); vm_compute; exact I|repeat constructor]. Qed.

Lemma ex_join_disjoint : df_name_mapping ex_table ##ₘ df_name_mapping ex_right.
Proof. apply map_disjoint_dom. apply (bool_decide_unpack _). vm_compute. exact I. Qed.

Lemma join_refines_witness :
  ∃ t', join ex_right ex_on_a_c (Some "inner") ex_table = (Ok (), t') ∧
  ∃ pairs on_cols lk rk lidx ridx,
    translate_join ex_on_a_c = Ok (JPairs pairs) ∧ Forall2 (λ p q, q = p ∨ q = (p.2, p.1)) pairs on_cols ∧
    mapM (λ c, dict_getitem (df_name_mapping ex_table) (col_uuid c)) on_cols.*1 = Ok lk ∧
    mapM (λ c, dict_getitem (df_name_mapping ex_right) (col_uuid c)) on_cols.*2 = Ok rk ∧
    key_positions (df ex_table) lk = Ok lidx ∧ key_positions (df ex_right) rk = Ok ridx ∧
    abs t' = abs_join (inner_pairs lidx ridx (fr_rows (df ex_table)) (fr_rows (df ex_right)))
                      (abs ex_table) (abs ex_right).
Proof.
  exists (join ex_right ex_on_a_c (Some "inner") ex_table).2.
  assert (H : join ex_right ex_on_a_c (Some "inner") ex_table =
              (Ok (), (join ex_right ex_on_a_c (Some "inner") ex_table).2)) by (vm_compute; reflexivity).
  split; [exact H|].
  exact (join_refines ex_right ex_on_a_c ex_table _ ex_table_wf ex_right_wf ex_join_disjoint
           ltac:(apply (bool_decide_unpack _); vm_compute; exact I)
           ltac:(apply (bool_decide_unpack _); vm_compute; exact I) H).
Defined.

Lemma join_left_refines_witness :
  ∃ t', join ex_right ex_on_a_c (Some "left") ex_table = (Ok (), t') ∧
  ∃ pairs on_cols lk rk lidx ridx,
    translate_join ex_on_a_c = Ok (JPairs pairs) ∧ Forall2 (λ p q, q = p ∨ q = (p.2, p.1)) pairs on_cols ∧
    mapM (λ c, dict_getitem (df_name_mapping ex_table) (col_uuid c)) on_cols.*1 = Ok lk ∧
    mapM (λ c, dict_getitem (df_name_mapping ex_right) (col_uuid c)) on_cols.*2 = Ok rk ∧
    key_positions (df ex_table) lk = Ok lidx ∧ key_positions (df ex_right) rk = Ok ridx ∧
    abs t' = abs_join_left (left_pairs lidx ridx (fr_rows (df ex_table)) (fr_rows (df ex_right)))
                           (abs ex_table) (abs ex_right).
Proof.
  exists (join ex_right ex_on_a_c (Some "left") ex_table).2.
  assert (H : join ex_right ex_on_a_c (Some "left") ex_table =
              (Ok (), (join ex_right ex_on_a_c (Some "left") ex_table).2)) by (vm_compute; reflexivity).
  split; [exact H|].
  exact (join_left_refines ex_right ex_on_a_c ex_table _ ex_table_wf ex_right_wf ex_join_disjoint
           ltac:(apply (bool_decide_unpack _); vm_compute; exact I)
           ltac:(apply (bool_decide_unpack _); vm_compute; exact I) H).
Defined.

Lemma join_right_refines_witness :
  ∃ t', join ex_right ex_on_a_c (Some "right") ex_table = (Ok (), t') ∧
  ∃ pairs on_cols lk rk lidx ridx,
    translate_join ex_on_a_c = Ok (JPairs pairs) ∧ Forall2 (λ p q, q = p ∨ q = (p.2, p.1)) pairs on_cols ∧
    mapM (λ c, dict_getitem (df_name_mapping ex_table) (col_uuid c)) on_cols.*1 = Ok lk ∧
    mapM (λ c, dict_getitem (df_name_mapping ex_right) (col_uuid c)) on_cols.*2 = Ok rk ∧
    key_positions (df ex_table) lk = Ok lidx ∧ key_positions (df ex_right) rk = Ok ridx ∧
    abs t' = abs_join_right (right_pairs lidx ridx (fr_rows (df ex_table)) (fr_rows (df ex_right)))
                            (abs ex_table) (abs ex_right).
Proof.
  exists (join ex_right ex_on_a_c (Some "right") ex_table).2.
  assert (H : join ex_right ex_on_a_c (Some "right") ex_table =
              (Ok (), (join ex_right ex_on_a_c (Some "right") ex_table).2)) by (vm_compute; reflexivity).
  split; [exact H|].
  exact (join_right_refines ex_right ex_on_a_c ex_table _ ex_table_wf ex_right_wf ex_join_disjoint
           ltac:(apply (bool_decide_unpack _); vm_compute; exact I)
           ltac:(apply (bool_decide_unpack _); vm_compute; exact I) H).
Defined.

Lemma join_outer_refines_witness :
  ∃ t', join ex_right ex_on_a_c (Some "outer") ex_table = (Ok (), t') ∧
  ∃ pairs on_cols lk rk lidx ridx,
    translate_join ex_on_a_c = Ok (JPairs pairs) ∧ Forall2 (λ p q, q = p ∨ q = (p.2, p.1)) pairs on_cols ∧
    mapM (λ c, dict_getitem (df_name_mapping ex_table) (col_uuid c)) on_cols.*1 = Ok lk ∧
    mapM (λ c, dict_getitem (df_name_mapping ex_right) (col_uuid c)) on_cols.*2 = Ok rk ∧
    key_positions (df ex_table) lk = Ok lidx ∧ key_positions (df ex_right) rk = Ok ridx ∧
    abs t' = abs_join_outer (outer_pairs lidx ridx (fr_rows (df ex_table)) (fr_rows (df ex_right))
                               (length (fr_cols (df ex_table))) (length (fr_cols (df ex_right))))
                            (abs ex_table) (abs ex_right).
Proof.
  exists (join ex_right ex_on_a_c (Some "outer") ex_table).2.
  assert (H : join ex_right ex_on_a_c (Some "outer") ex_table =
              (Ok (), (join ex_right ex_on_a_c (Some "outer") ex_table).2)) by (vm_compute; reflexivity).
  split; [exact H|].
  exact (join_outer_refines ex_right ex_on_a_c ex_table _ ex_table_wf ex_right_wf ex_join_disjoint
           ltac:(apply (bool_decide_unpack _); vm_compute; exact I)
           ltac:(apply (bool_decide_unpack _); vm_compute; exact I) H).
Defined.

(** The outer join on [a = c] sorts the rows by the key: the row with
    [a = 1] and its match first, then the row with [a = 2], where
    [ex_right]'s [d] is missing. *)
Lemma ex_outer_joined_abs :
  let t' := (join ex_right ex_on_a_c (Some "outer") ex_table).2 in
  outer_pairs [0] [0] (fr_rows (df ex_table)) (fr_rows (df ex_right)) 3 2 = [(Some 1, Some 0); (Some 0, None)] ∧
  abs t' !! 0%N = Some [CInt 1; CInt 2] ∧ abs t' !! 4%N = Some [CBool true; CNull].
Proof. repeat split; vm_compute; reflexivity. Qed.

(** The right join on [a = c] keeps the one row of [ex_right] with its
    match, the second row of [ex_table] (the one with [a = 1]). *)
Lemma ex_right_joined_abs :
  let t' := (join ex_right ex_on_a_c (Some "right") ex_table).2 in
  right_pairs [0] [0] (fr_rows (df ex_table)) (fr_rows (df ex_right)) = [(Some 1, 0)] ∧
  abs t' !! 0%N = Some [CInt 1] ∧ abs t' !! 4%N = Some [CBool true].
Proof. repeat split; vm_compute; reflexivity. Qed.

(** The left join on [a = c] keeps both rows of [ex_table]; the row with
    [a = 2] has no match, so [ex_right]'s [d] is missing there. *)
Lemma ex_left_joined_abs :
  let t' := (join ex_right ex_on_a_c (Some "left") ex_table).2 in
  abs t' !! 0%N = Some [CInt 2; CInt 1] ∧ abs t' !! 4%N = Some [CNull; CBool true].
Proof. split; vm_compute; reflexivity. Qed.

(** Joining on [a = c] keeps the second row of [ex_table], the one with
    [a = 1], beside the row of [ex_right]. *)
Lemma ex_joined_abs :
  let t' := (join ex_right ex_on_a_c (Some "inner") ex_table).2 in
  abs t' !! 0%N = Some [CInt 1] ∧ abs t' !! 2%N = Some [CStr "y"] ∧ abs t' !! 4%N = Some [CBool true].
Proof. split; [|split]; vm_compute; reflexivity. Qed.

Definition ex_mutated : PandasTableImpl := (mutate ex_registry [("a", Leaf (OInt 5))] ex_table).2.

Lemma mutate_refines_witness :
  ∃ t', mutate ex_registry [("a", Leaf (OInt 5))] ex_table = (Ok (), t') ∧
  ∃ uk tvs, mapM (λ '(k, v), u ← named_col ex_table k; Ok (u, (k, v))) [("a", Leaf (OInt 5))] = Ok uk ∧
    mapM (λ '(u, (_, ex)), tv ← translator_of ex_registry
                                  (set_mapping (mutate_mapping ex_table uk) ex_table) ex;
                           Ok (u, tv)) uk = Ok tvs ∧
    abs t' = abs_mutate (abs ex_table)
               ((λ b, (b.1, value_cells (length (fr_rows (df ex_table))) (tv_value b.2))) <$> tvs).
Proof.
  exists ex_mutated.
  assert (H : mutate ex_registry [("a", Leaf (OInt 5))] ex_table = (Ok (), ex_mutated))
    by (vm_compute; reflexivity).
  split; [exact H|]. exact (mutate_refines ex_registry _ ex_table _ uuid_to_str_sound (init_table_wf "t" ex_frame 0%N
    ltac:(vm_compute; congruence)) ex_table_wf H).
Defined.

(** The mutated identity holds the broadcast literal; the others are as
    before. *)
Lemma ex_mutated_abs :
  abs ex_mutated !! 0%N = Some [CInt 5; CInt 5] ∧ abs ex_mutated !! 1%N = abs ex_table !! 1%N ∧
  abs ex_mutated !! 2%N = Some [CStr " x "; CStr "y"].
Proof. split; [|split]; vm_compute; reflexivity. Qed.
