(* ===== verification/Verbs.v ===== *)
(** * The verb wrappers and the identity counter

    The pandas verbs of [pandas_table.py] are called through the generic
    table layer ([EagerTableImpl] / [AbstractTableImpl], outside [src/]),
    which the spec describes (section 4.4): [mutate(name -> expr)] gives
    each name a fresh column identity and binds the name to it before the
    backend translates anything, [select] changes which bound names are
    selected, [rename] changes a display name and keeps its identity, and
    [alias] makes a new table from the collected frame.  These wrappers
    are modelled from the spec.  A [session] is the current table with the
    counter fresh identities are drawn from; the backend verbs run on its
    table through [on_table].

    The theorems: every session a program reaches from [__init__] keeps
    the storage-key invariant, the frame well formed and every identity it
    knows below the counter ([session_invariant]); [verb_mutate] binds
    each name to a fresh identity holding data and leaves the data of
    every older identity alone ([verb_mutate_fresh]); two successive
    mutates of the same name give two identities stored under two keys,
    the first one's data kept ([mutate_twice_distinct], spec section 8);
    [rename] and [select] keep identities and data
    ([rename_keeps_identity]); [alias] gives every name a new identity, so
    a column of the old table no longer translates against the new one
    ([alias_forgets_columns]); a table created from the session's counter
    can be joined without overwriting any storage key, and the session
    goes on with the invariant ([session_join_fresh]). *)

From S2P Require Import Prelude Expr Registry Translator Frame FrameColumns Strip Table PandasTable Contract.

(** ** Sessions and the wrappers *)

Record session := mkSession { s_table : PandasTableImpl; s_next : uuid }.

Definition init_session (name : string) (d : frame) (next : uuid) : session :=
  let '(t, next') := PandasTableImpl_init name d next in mkSession t next'.

(** A backend verb run on the session's table. *)
Definition on_table {A} (v : stres PandasTableImpl A) : stres session A :=
  λ s, let '(r, t') := v (s_table s) in (r, mkSession t' (s_next s)).

Definition set_names (nc : list (string * uuid)) (sel : list string) (t : PandasTableImpl)
    : PandasTableImpl :=
  mkTable (tbl_name t) (df t) (df_name_mapping t) nc sel (col_expr t) (col_dtype_map t).

(** [named_cols.fwd[name] = uuid], and [name] appended to the selection
    when it is new. *)
Definition bind_name (t : PandasTableImpl) (b : string * uuid) : PandasTableImpl :=
  set_names (dict_insert (named_cols t) b.1 b.2)
    (if bool_decide (b.1 ∈ selects t) then selects t else selects t ++ [b.1]) t.

(** One fresh identity per keyword argument, in order. *)
Definition fresh_bindings (next : uuid) (kw : list (string * expr (obj pval))) : list (string * uuid) :=
  imap (λ i '(n, _), (n, (next + N.of_nat i)%N)) kw.

(** [mutate(...)]: bind every name to a fresh identity, then run the
    backend's [mutate]; the counter has moved on even if that raises. *)
Definition verb_mutate (reg : OperatorRegistry PandasFn) (kw : list (string * expr (obj pval)))
    : stres session unit :=
  s ← st_get;
  st_put (mkSession (foldl bind_name (s_table s) (fresh_bindings (s_next s) kw))
                    (s_next s + N.of_nat (length kw)));;
  on_table (mutate reg kw).

(** [select(names)]: every name must be bound. *)
Definition verb_select (names : list string) : stres PandasTableImpl unit :=
  t ← st_get;
  _ ← st_lift (mapM (named_col t) names);
  st_put (set_names (named_cols t) names t).

Definition rename_key (old new k : string) : string := if bool_decide (k = old) then new else k.

Definition rename_cols (old new : string) (d : list (string * uuid)) : list (string * uuid) :=
  (λ '(k, u), (rename_key old new k, u)) <$> d.

(** [rename({old: new})]: the identity moves to the new display name; a
    name that is already bound cannot be taken. *)
Definition verb_rename (old new : string) : stres PandasTableImpl unit :=
  t ← st_get;
  _ ← st_lift (named_col t old);
  if bool_decide (new ≠ old ∧ new ∈ (named_cols t).*1)
  then st_lift (raise! ValueError ("duplicate column name " +:+ new))
  else st_put (set_names (rename_cols old new (named_cols t))
                         (rename_key old new <$> selects t) t).

(** [alias(name)]: the session continues with the new table. *)
Definition verb_alias (name : string) : stres session unit :=
  s ← st_get;
  tn ← st_lift (alias (s_table s) name (s_next s));
  st_put (mkSession tn.1 tn.2).

(** ** The session invariant *)

(** Every identity the table stores or names was drawn below [n]. *)
Definition live_below (n : uuid) (t : PandasTableImpl) : Prop :=
  map_Forall (λ u _, (u < n)%N) (df_name_mapping t) ∧ Forall (λ p, (p.2 < n)%N) (named_cols t).

Definition session_wf (s : session) : Prop :=
  keys_wf (df_name_mapping (s_table s)) ∧ frame_wf (df (s_table s)) ∧
  live_below (s_next s) (s_table s) ∧ (s_next s ≤ 2 ^ 128)%N.

(** What a program does with a session: the verbs, each under the
    condition that the counter has room for the identities it draws; a
    joined table has identities from the same counter. *)
Inductive session_step (reg : OperatorRegistry PandasFn) : session → session → Prop :=
  | ss_mutate kw s :
      (s_next s + N.of_nat (length kw) ≤ 2 ^ 128)%N →
      session_step reg s (verb_mutate reg kw s).2
  | ss_filter args s : session_step reg s (on_table (filter reg args) s).2
  | ss_arrange ordering s : session_step reg s (on_table (arrange ordering) s).2
  | ss_select names s : session_step reg s (on_table (verb_select names) s).2
  | ss_rename old new s : session_step reg s (on_table (verb_rename old new) s).2
  | ss_join right on how s :
      table_wf right → frame_wf (df right) → live_below (s_next s) right →
      session_step reg s (on_table (join right on how) s).2
  | ss_alias name s :
      (∀ d, collect (s_table s) = Ok d →
            frame_wf d ∧ (s_next s + N.of_nat (length (fr_cols d)) ≤ 2 ^ 128)%N) →
      session_step reg s (verb_alias name s).2.

(** ** Binding names *)

Lemma elem_of_dict_insert {K V} `{EqDecision K} (d : list (K * V)) k v k' v' :
  (k', v') ∈ dict_insert d k v → (k' = k ∧ v' = v) ∨ (k' ≠ k ∧ (k', v') ∈ d).
Proof.
  unfold dict_insert. case_bool_decide as Hk.
  - intros ([k0 v0] & Heq & Hin)%list_elem_of_fmap. case_bool_decide; simplify_eq; [by left|by right].
  - intros [Hin|Hs%list_elem_of_singleton]%elem_of_app; [|simplify_eq; by left]. right. split; [|done].
    intros ->. apply Hk, list_elem_of_fmap. by exists (k, v').
Qed.

Lemma set_names_fields nc sel t :
  df (set_names nc sel t) = df t ∧ df_name_mapping (set_names nc sel t) = df_name_mapping t.
Proof. done. Qed.

Lemma bind_fold_fields t binds :
  df (foldl bind_name t binds) = df t ∧ df_name_mapping (foldl bind_name t binds) = df_name_mapping t.
Proof. revert t. induction binds as [|b bs IH]; intros t; [done|]. apply (IH (bind_name t b)). Qed.

(** After binding, a name is bound to its last binding, or, if it was not
    bound again, to what it was bound to before. *)
Lemma bind_fold_elem t binds n u :
  (n, u) ∈ named_cols (foldl bind_name t binds) →
  (n, u) ∈ binds ∨ ((n ∉ binds.*1) ∧ (n, u) ∈ named_cols t).
Proof.
  revert t. induction binds as [|[k v] bs IH]; intros t Hin; [by right; split; [apply not_elem_of_nil|]|].
  destruct (IH _ Hin) as [Hb|[Hn Hb]]; [by left; apply elem_of_cons; right|].
  apply elem_of_dict_insert in Hb as [[-> ->]|[Hk Hb]]; [by left; apply elem_of_cons; left|].
  right. split; [|done]. simpl. rewrite elem_of_cons. intros [->|?]; done.
Qed.

Lemma fresh_bindings_fst next kw : (fresh_bindings next kw).*1 = kw.*1.
Proof.
  unfold fresh_bindings. apply list_eq. intros i. rewrite !list_lookup_fmap, list_lookup_imap.
  by destruct (kw !! i) as [[]|].
Qed.

Lemma fresh_bindings_elem next kw n u :
  (n, u) ∈ fresh_bindings next kw → (next ≤ u < next + N.of_nat (length kw))%N.
Proof.
  intros [i Hi]%list_elem_of_lookup. unfold fresh_bindings in Hi.
  apply list_lookup_imap_Some in Hi as ([n' e] & Hl & [= -> ->]). apply lookup_lt_Some in Hl. lia.
Qed.

(** A name bound by [verb_mutate] resolves to one of its fresh identities. *)
Lemma bound_fresh t next kw n u :
  n ∈ kw.*1 → named_col (foldl bind_name t (fresh_bindings next kw)) n = Ok u →
  (next ≤ u < next + N.of_nat (length kw))%N.
Proof.
  intros Hn Hu. unfold named_col in Hu. destruct (dict_lookup _ _) eqn:Hl; [|done].
  injection Hu as ->. apply dict_lookup_elem, bind_fold_elem in Hl as [Hb|[Hb _]].
  - by eapply fresh_bindings_elem.
  - by rewrite fresh_bindings_fst in Hb.
Qed.

(** Binding fresh names keeps every identity below the moved counter. *)
Lemma bind_fold_below t next kw :
  Forall (λ p, (p.2 < next)%N) (named_cols t) →
  Forall (λ p, (p.2 < next + N.of_nat (length kw))%N)
    (named_cols (foldl bind_name t (fresh_bindings next kw))).
Proof.
  intros Hall. apply Forall_forall. intros [n u] [Hb|[_ Hb]]%bind_fold_elem; simpl.
  - apply fresh_bindings_elem in Hb. lia.
  - apply (proj1 (Forall_forall _ _) Hall) in Hb. simpl in Hb. lia.
Qed.

(** ** The verbs keep identities below the counter *)

Lemma below_mutate_fold n t (uk : list (uuid * (string * expr (obj pval)))) (m : gmap uuid string) :
  map_Forall (λ u _, (u < n)%N) m → Forall (λ x, (x.1 < n)%N) uk →
  map_Forall (λ u _, (u < n)%N) (foldl (λ m '(u, (k, _)), <[u := mutate_key t k u]> m) m uk).
Proof.
  revert m. induction uk as [|[u [k e]] uk IH]; intros m Hm Hall; simpl; [done|].
  apply Forall_cons in Hall as [Hu Hall]. apply IH; [|done]. by apply map_Forall_insert_2.
Qed.

Lemma live_below_mono n n' t : (n ≤ n')%N → live_below n t → live_below n' t.
Proof.
  intros Hn [Hm Hc]. split.
  - eapply map_Forall_impl; [done|]. simpl. lia.
  - eapply Forall_impl; [done|]. simpl. lia.
Qed.

Ltac live_step :=
  let Hm := fresh "Hm" in let Hn := fresh "Hn" in
  intros [Hm Hn]; split; cbn [df_name_mapping named_cols set_df set_mapping set_col_dtype set_names];
  eauto using below_mutate_fold, named_kwargs_bound, map_Forall_union_2.

Lemma mutate_live n reg kw t : live_below n t → live_below n (mutate reg kw t).2.
Proof. unfold mutate. run_st_cases; live_step. Qed.

Lemma filter_live n reg args t : live_below n t → live_below n (filter reg args t).2.
Proof. unfold filter. run_st_cases; live_step. Qed.

Lemma arrange_live n ordering t : live_below n t → live_below n (arrange ordering t).2.
Proof. unfold arrange. run_st_cases; live_step. Qed.

Lemma join_live n right on how t :
  live_below n right → live_below n t → live_below n (join right on how t).2.
Proof. intros [Hr _]. unfold join. run_st_cases; live_step; by apply map_Forall_union_2. Qed.

Lemma init_live name d next :
  live_below (PandasTableImpl_init name d next).2 (PandasTableImpl_init name d next).1.
Proof.
  destruct (init_identity_range name d next 0) as [_ ->]. split.
  - intros u k Hk. apply (init_identity_range name d next u). by eexists.
  - apply Forall_fmap, Forall_forall. intros [n c] Hc.
    apply init_columns_elem in Hc as (i & Hi & Hu). simpl. lia.
Qed.

(** [select] and [rename] only touch the names. *)
Lemma select_fields names t :
  df (verb_select names t).2 = df t ∧ df_name_mapping (verb_select names t).2 = df_name_mapping t.
Proof. unfold verb_select. by run_st_cases. Qed.

Lemma rename_fields old new t :
  df (verb_rename old new t).2 = df t ∧ df_name_mapping (verb_rename old new t).2 = df_name_mapping t.
Proof. unfold verb_rename. by run_st_cases. Qed.

Lemma select_live n names t : live_below n t → live_below n (verb_select names t).2.
Proof. unfold verb_select. run_st_cases; live_step. Qed.

Lemma rename_live n old new t : live_below n t → live_below n (verb_rename old new t).2.
Proof.
  unfold verb_rename. run_st_cases; live_step.
  unfold rename_cols. apply Forall_fmap. eapply Forall_impl; [done|]. by intros [k u].
Qed.

(** ** Sessions keep the invariant *)

Lemma session_table_wf s : session_wf s → table_wf (s_table s).
Proof.
  intros (Hk & _ & [_ Hn] & Hb). split; [done|]. eapply Forall_impl; [done|]. simpl. lia.
Qed.

Lemma on_table_run {A} (v : stres PandasTableImpl A) s :
  on_table v s = ((v (s_table s)).1, mkSession (v (s_table s)).2 (s_next s)).
Proof. unfold on_table. by destruct (v (s_table s)). Qed.

(** A backend verb that keeps the table's invariants keeps the session's. *)
Lemma on_table_wf (v : stres PandasTableImpl unit) s :
  (table_wf (s_table s) → table_wf (v (s_table s)).2) →
  (frame_wf (df (s_table s)) → frame_wf (df (v (s_table s)).2)) →
  (live_below (s_next s) (s_table s) → live_below (s_next s) (v (s_table s)).2) →
  session_wf s → session_wf (on_table v s).2.
Proof.
  intros Ht Hf Hl Hs. pose proof (session_table_wf s Hs) as [Hk _]%Ht.
  destruct Hs as (_ & Hd & Hlive & Hb). rewrite on_table_run. split; [done|]. simpl. auto.
Qed.

Lemma verb_mutate_unfold reg kw s :
  verb_mutate reg kw s =
  on_table (mutate reg kw) (mkSession (foldl bind_name (s_table s) (fresh_bindings (s_next s) kw))
                                      (s_next s + N.of_nat (length kw))).
Proof. done. Qed.

(** Binding the fresh names keeps the invariant for the moved counter. *)
Lemma bind_session_wf s kw :
  session_wf s → (s_next s + N.of_nat (length kw) ≤ 2 ^ 128)%N →
  session_wf (mkSession (foldl bind_name (s_table s) (fresh_bindings (s_next s) kw))
                        (s_next s + N.of_nat (length kw))).
Proof.
  intros (Hk & Hd & Hl & _) Hb. destruct (bind_fold_fields (s_table s) (fresh_bindings (s_next s) kw))
    as [Hdf Hmap]. unfold session_wf; simpl. rewrite Hdf, Hmap. split; [done|]. split; [done|]. split; [|done].
  split; [rewrite Hmap; eapply map_Forall_impl; [apply Hl|]; simpl; lia|].
  apply bind_fold_below, Hl.
Qed.

Lemma verb_mutate_wf reg kw s :
  session_wf s → (s_next s + N.of_nat (length kw) ≤ 2 ^ 128)%N → session_wf (verb_mutate reg kw s).2.
Proof.
  intros Hs Hb. rewrite verb_mutate_unfold. apply on_table_wf; [apply mutate_table_wf|
    apply mutate_frame_wf|apply mutate_live|by apply bind_session_wf].
Qed.

Lemma init_session_wf name d next :
  frame_wf d → (next + N.of_nat (length (fr_cols d)) ≤ 2 ^ 128)%N →
  session_wf (init_session name d next).
Proof.
  intros Hd Hb. unfold init_session. destruct (PandasTableImpl_init name d next) as [t n'] eqn:Hi.
  pose proof (init_table_wf name d next Hb) as [Hk _]. pose proof (init_frame_wf name d next Hd Hb).
  pose proof (init_live name d next). destruct (init_identity_range name d next 0) as [_ Hn].
  rewrite Hi in *. simpl in *. subst n'. unfold session_wf; simpl; auto.
Qed.

Lemma verb_alias_Ok name s d :
  collect (s_table s) = Ok d → verb_alias name s = (Ok (), init_session name d (s_next s)).
Proof.
  intros Hd. unfold verb_alias, alias, init_session. rewrite st_get_bind, st_lift_bind, Hd. cbn -[PandasTableImpl_init]. by destruct (PandasTableImpl_init name d (s_next s)).
Qed.

Lemma verb_alias_wf name s :
  (∀ d, collect (s_table s) = Ok d →
        frame_wf d ∧ (s_next s + N.of_nat (length (fr_cols d)) ≤ 2 ^ 128)%N) →
  session_wf s → session_wf (verb_alias name s).2.
Proof.
  intros Hc Hs. destruct (collect (s_table s)) as [d|e] eqn:Hd.
  - rewrite (verb_alias_Ok name s d Hd). destruct (Hc d eq_refl). by apply init_session_wf.
  - unfold verb_alias, alias. by rewrite st_get_bind, st_lift_bind, Hd.
Qed.

Lemma session_step_wf reg s s' : session_step reg s s' → session_wf s → session_wf s'.
Proof.
  destruct 1 as [kw s Hb|args s|ordering s|names s|old new s|right on how s Hr Hrd Hrl|name s Hc];
    intros Hs.
  - by apply verb_mutate_wf.
  - apply on_table_wf; [apply filter_table_wf|apply filter_frame_wf|apply filter_live|done].
  - apply on_table_wf; [apply arrange_table_wf|apply arrange_frame_wf|apply arrange_live|done].
  - apply on_table_wf; [|by rewrite (proj1 (select_fields _ _))|apply select_live|done].
    intros [Hk Hn]. split; [by rewrite (proj2 (select_fields _ _))|].
    apply (select_live (2 ^ 128) names (s_table s)). split; [|done].
    intros u k Hu. by destruct (Hk u k Hu).
  - apply on_table_wf; [|by rewrite (proj1 (rename_fields _ _ _))|apply rename_live|done].
    intros [Hk Hn]. split; [by rewrite (proj2 (rename_fields _ _ _))|].
    apply (rename_live (2 ^ 128) old new (s_table s)). split; [|done].
    intros u k Hu. by destruct (Hk u k Hu).
  - apply on_table_wf; [by apply join_table_wf|intros; by apply join_frame_wf|
      intros; by apply join_live|done].
  - by apply verb_alias_wf.
Qed.

Lemma session_reach_wf reg s s' : session_wf s → rtc (session_step reg) s s' → session_wf s'.
Proof. intros Hs Hr. induction Hr; eauto using session_step_wf. Qed.

(** ** What [verb_mutate] does to identities and data *)

Lemma mutate_named_cols reg kw t : named_cols (mutate reg kw t).2 = named_cols t.
Proof. unfold mutate. by run_st_cases. Qed.

Lemma named_col_cols t t' n : named_cols t' = named_cols t → named_col t' n = named_col t n.
Proof. unfold named_col. by intros ->. Qed.

Lemma named_kwargs_Forall2 t (kw : list (string * expr (obj pval))) uk :
  mapM (λ '(k, v), u ← named_col t k; Ok (u, (k, v))) kw = Ok uk →
  Forall2 (λ kv x, named_col t kv.1 = Ok x.1 ∧ x.2 = kv) kw uk.
Proof.
  intros H%mapM_result_Ok. eapply Forall2_impl; [done|].
  intros [k v] x (u & Hu & [= <-])%bind_Ok. done.
Qed.

(** The identities the backend's [mutate] writes are the fresh ones. *)
Lemma mutate_uk_fresh t next kw uk u :
  mapM (λ '(k, v), u ← named_col (foldl bind_name t (fresh_bindings next kw)) k; Ok (u, (k, v))) kw
    = Ok uk →
  u ∈ uk.*1 → (next ≤ u < next + N.of_nat (length kw))%N.
Proof.
  intros Huk%named_kwargs_Forall2 ([u' [n e]] & -> & Hx)%list_elem_of_fmap.
  apply list_elem_of_lookup in Hx as [i Hi].
  destruct (Forall2_lookup_r _ _ _ _ _ Huk Hi) as ([k v] & Hk & Hn & [= -> ->]).
  simpl in Hn. eapply bound_fresh; [|done]. apply list_elem_of_fmap. exists (k, v). split; [done|].
  by eapply list_elem_of_lookup_2.
Qed.

Lemma mutate_uk_named t (kw : list (string * expr (obj pval))) uk n :
  mapM (λ '(k, v), u ← named_col t k; Ok (u, (k, v))) kw = Ok uk → n ∈ kw.*1 →
  ∃ u, named_col t n = Ok u ∧ u ∈ uk.*1.
Proof.
  intros Huk%named_kwargs_Forall2 ([n' e] & -> & Hx)%list_elem_of_fmap.
  apply list_elem_of_lookup in Hx as [i Hi].
  destruct (Forall2_lookup_l _ _ _ _ _ Huk Hi) as (x & Hx & Hn & _).
  exists x.1. split; [done|]. apply list_elem_of_fmap. exists x. split; [done|].
  by eapply list_elem_of_lookup_2.
Qed.

(** A successful [verb_mutate] moves the counter past the names' new
    identities, binds each name to one of them, holding data, and leaves
    every older identity's data alone. *)
Lemma verb_mutate_spec reg kw s s' :
  uuid_str_sound → session_wf s → (s_next s + N.of_nat (length kw) ≤ 2 ^ 128)%N →
  verb_mutate reg kw s = (Ok (), s') →
  s_next s' = (s_next s + N.of_nat (length kw))%N ∧
  (∀ n, n ∈ kw.*1 → ∃ u, named_col (s_table s') n = Ok u ∧ (s_next s ≤ u < s_next s')%N ∧
                        is_Some (abs (s_table s') !! u)) ∧
  (∀ v, (v < s_next s)%N → abs (s_table s') !! v = abs (s_table s) !! v).
Proof.
  intros Hsound Hs Hb. pose proof (bind_session_wf s kw Hs Hb) as Hs1.
  rewrite verb_mutate_unfold, on_table_run. simpl.
  set (t1 := foldl bind_name (s_table s) (fresh_bindings (s_next s) kw)) in *.
  destruct (mutate reg kw t1) as [r t'] eqn:Hm. simpl. intros [= -> <-]. simpl.
  destruct (bind_fold_fields (s_table s) (fresh_bindings (s_next s) kw)) as [Hdf Hmap].
  assert (Habs1 : abs t1 = abs (s_table s)) by (unfold abs; fold t1 in Hdf, Hmap; by rewrite Hdf, Hmap).
  pose proof (session_table_wf _ Hs1) as Hwf1. pose proof (proj1 (proj2 Hs1)) as Hfwf1. simpl in *.
  destruct (mutate_abs reg kw t1 t' Hsound Hwf1 Hfwf1 Hm) as (uk & _ & Huk & _).
  split; [done|]. split.
  - intros n Hn. destruct (mutate_uk_named _ _ _ n Huk Hn) as (u & Hu & Hin). exists u.
    rewrite (named_col_cols t1), Hu by (rewrite <-(mutate_named_cols reg kw t1), Hm; done).
    split; [done|]. split; [by eapply mutate_uk_fresh|].
    by apply (mutate_abs_other reg kw t1 t' uk u Hsound Hwf1 Hfwf1 Hm Huk).
  - intros v Hv. rewrite <-Habs1. apply (mutate_abs_other reg kw t1 t' uk v Hsound Hwf1 Hfwf1 Hm Huk).
    intros Hin. apply (mutate_uk_fresh _ _ _ _ _ Huk) in Hin. lia.
Qed.

(** ** Renaming *)

Lemma dict_lookup_cons {K V} `{EqDecision K} (k' : K) (v' : V) d k :
  dict_lookup ((k', v') :: d) k = if decide (k' = k) then Some v' else dict_lookup d k.
Proof.
  unfold dict_lookup. simpl. case_decide; [done|].
  by destruct (list_find _ d) as [[]|].
Qed.

Lemma rename_key_old old new : rename_key old new old = new.
Proof. unfold rename_key. by case_bool_decide. Qed.

Lemma rename_key_ne old new k : k ≠ old → rename_key old new k = k.
Proof. unfold rename_key. by case_bool_decide. Qed.

(** The new name finds the old name's identity, when it was free. *)
Lemma dict_lookup_rename_new old new d :
  new ∉ d.*1 ∨ new = old → dict_lookup (rename_cols old new d) new = dict_lookup d old.
Proof.
  induction d as [|[k u] d IH]; intros Hfree; [done|]. unfold rename_cols in *.
  rewrite fmap_cons. rewrite !dict_lookup_cons.
  destruct (decide (k = old)) as [->|Hk]; [by rewrite rename_key_old, decide_True|].
  rewrite rename_key_ne by done. case_decide as Hkn.
  - subst. destruct Hfree as [Hf| ->]; [|done]. destruct Hf. by left.
  - apply IH. destruct Hfree as [Hf|?]; [|by right]. left. by intros ?; apply Hf; right.
Qed.

(** Every other name keeps its identity, and the old one is gone. *)
Lemma dict_lookup_rename_other old new d n :
  n ≠ new → dict_lookup (rename_cols old new d) n = if bool_decide (n = old) then None else dict_lookup d n.
Proof.
  intros Hn. induction d as [|[k u] d IH]; [by case_bool_decide|]. unfold rename_cols in *.
  rewrite fmap_cons, !dict_lookup_cons, IH.
  destruct (decide (k = old)) as [->|Hk].
  - rewrite rename_key_old, decide_False by congruence.
    case_bool_decide; [done|]. by rewrite decide_False by congruence.
  - rewrite rename_key_ne by done. repeat case_decide; repeat case_bool_decide; congruence.
Qed.

(** ** [alias] starts from new identities *)

Lemma init_named_range name d next n v :
  named_col (PandasTableImpl_init name d next).1 n = Ok v → (next ≤ v)%N.
Proof.
  unfold named_col. destruct (dict_lookup _ _) eqn:Hl; [|done]. intros [= <-].
  apply dict_lookup_elem, list_elem_of_fmap in Hl as ([n' c] & [= -> ->] & Hc).
  apply init_columns_elem in Hc as (i & _ & ->). lia.
Qed.

Lemma abs_Some_mapping t u : is_Some (abs t !! u) → ∃ k, df_name_mapping t !! u = Some k.
Proof. rewrite abs_lookup. destruct (df_name_mapping t !! u); [by eexists|by intros []]. Qed.

(** ** Joining a table created from the session's counter *)

(** [join] leaves the mapping as it was, or takes the right table's keys
    with [dict.update]. *)
Lemma join_mapping_cases right on how t :
  df_name_mapping (join right on how t).2 = df_name_mapping t ∨
  df_name_mapping (join right on how t).2 = joined_mapping t right.
Proof. unfold join. run_st_cases; first [by left|by right]. Qed.

(** A table [__init__] creates from the counter owns no identity of a
    session's table. *)
Lemma fresh_table_disjoint s name d :
  live_below (s_next s) (s_table s) →
  df_name_mapping (s_table s) ##ₘ df_name_mapping (PandasTableImpl_init name d (s_next s)).1.
Proof.
  intros [Hlive _]. apply map_disjoint_spec. intros u k1 k2 H1 H2.
  pose proof (Hlive _ _ H1) as Hu. simpl in Hu.
  destruct (init_identity_range name d (s_next s) u) as [[Hr _] _].
  specialize (Hr (mk_is_Some _ _ H2)). lia.
Qed.

(** ** Theorems *)

(** every session a program reaches from [__init__] of a well-formed
    frame, by any sequence of verbs that stays within the 128-bit counter,
    keeps the storage keys well formed (each identity's key ends in
    ['_' + uuid_to_str(u)]), the frame well formed, and every identity it
    stores or names below the counter, so the identities drawn next are
    fresh; for a sound [uuid_to_str] the storage keys are injective. *)
Theorem session_invariant reg name d next s :
  frame_wf d → (next + N.of_nat (length (fr_cols d)) ≤ 2 ^ 128)%N →
  rtc (session_step reg) (init_session name d next) s →
  session_wf s ∧
  (uuid_str_sound → ∀ u v k, df_name_mapping (s_table s) !! u = Some k →
                            df_name_mapping (s_table s) !! v = Some k → u = v).
Proof.
  intros Hd Hb Hr. pose proof (session_reach_wf reg _ s (init_session_wf name d next Hd Hb) Hr) as Hs.
  split; [done|]. intros Hsound u v k. apply keys_wf_inj, Hs. done.
Qed.

(** C18: [mutate] through the table layer binds every name it is given to
    a fresh identity (at or above the counter it started from, below the
    counter it leaves) that holds data, and leaves the data of every older
    identity as it was, for a sound [uuid_to_str] (distinct identities,
    distinct storage keys). *)
Theorem verb_mutate_fresh reg kw s s' :
  uuid_str_sound → session_wf s → (s_next s + N.of_nat (length kw) ≤ 2 ^ 128)%N →
  verb_mutate reg kw s = (Ok (), s') →
  (∀ n, n ∈ kw.*1 → ∃ u, named_col (s_table s') n = Ok u ∧ (s_next s ≤ u < s_next s')%N ∧
                        is_Some (abs (s_table s') !! u)) ∧
  (∀ v, (v < s_next s)%N → abs (s_table s') !! v = abs (s_table s) !! v).
Proof. intros Hsound Hs Hb Hm. by destruct (verb_mutate_spec reg kw s s' Hsound Hs Hb Hm) as (_ & ? & ?). Qed.

(** C17: two successive mutates that assign the same display name give
    two distinct identities, stored under two distinct storage keys, and
    the first identity keeps its data (spec, section 8), for a
    [uuid_to_str] that is injective and writes no ['_']. *)
Theorem mutate_twice_distinct reg n e1 e2 s s1 s2 :
  uuid_str_sound → session_wf s → (s_next s + 2 ≤ 2 ^ 128)%N →
  verb_mutate reg [(n, e1)] s = (Ok (), s1) → verb_mutate reg [(n, e2)] s1 = (Ok (), s2) →
  ∃ u1 u2 k1 k2, named_col (s_table s1) n = Ok u1 ∧ named_col (s_table s2) n = Ok u2 ∧ u1 ≠ u2 ∧
    df_name_mapping (s_table s2) !! u1 = Some k1 ∧ df_name_mapping (s_table s2) !! u2 = Some k2 ∧
    k1 ≠ k2 ∧ is_Some (abs (s_table s1) !! u1) ∧ abs (s_table s2) !! u1 = abs (s_table s1) !! u1.
Proof.
  intros Hsound Hs Hb H1 H2. assert (Hb1 : (s_next s + N.of_nat (length [(n, e1)]) ≤ 2 ^ 128)%N) by (simpl; lia).
  destruct (verb_mutate_spec reg _ s s1 Hsound Hs Hb1 H1) as (Hn1 & Hnamed1 & _).
  pose proof (verb_mutate_wf reg _ s Hs Hb1) as Hs1. rewrite H1 in Hs1.
  assert (Hb2 : (s_next s1 + N.of_nat (length [(n, e2)]) ≤ 2 ^ 128)%N) by (simpl in *; lia).
  destruct (verb_mutate_spec reg _ s1 s2 Hsound Hs1 Hb2 H2) as (Hn2 & Hnamed2 & Hkeep).
  pose proof (verb_mutate_wf reg _ s1 Hs1 Hb2) as Hs2. rewrite H2 in Hs2.
  destruct (Hnamed1 n ltac:(by constructor)) as (u1 & Hu1 & Hr1 & Hd1).
  destruct (Hnamed2 n ltac:(by constructor)) as (u2 & Hu2 & Hr2 & Hd2).
  rewrite <-(Hkeep u1) in Hd1 by lia.
  destruct (abs_Some_mapping _ _ Hd1) as [k1 Hk1], (abs_Some_mapping _ _ Hd2) as [k2 Hk2].
  exists u1, u2, k1, k2. do 2 (split; [done|]). split; [lia|]. do 2 (split; [done|]).
  split; [intros <-; pose proof (keys_wf_inj _ _ _ _ Hsound (proj1 Hs2) Hk1 Hk2); lia|].
  split; [by rewrite <-(Hkeep u1) by lia|apply Hkeep; lia].
Qed.

(** C20: [rename] keeps identities: the new name resolves to the identity
    the old name had, every other name to the same identity as before, the
    old name no longer resolves, and every identity keeps its data. *)
Theorem rename_keeps_identity old new t t' :
  verb_rename old new t = (Ok (), t') →
  named_col t' new = named_col t old ∧
  (∀ n, n ≠ new → n ≠ old → named_col t' n = named_col t n) ∧
  (new ≠ old → named_col t' old = raise! KeyError old) ∧
  abs t' = abs t.
Proof.
  unfold verb_rename. rewrite st_get_bind, st_lift_bind.
  destruct (named_col t old) as [u|e] eqn:Hold; [|done]. case_bool_decide as Hfree; [done|].
  intros [= <-]. unfold named_col in *. cbn [named_cols set_names]. split; [|split; [|split]].
  - rewrite dict_lookup_rename_new; [by destruct (dict_lookup (named_cols t) old)|]. destruct (decide (new = old)); [by right|].
    left. naive_solver.
  - intros n Hn Ho. by rewrite dict_lookup_rename_other, bool_decide_false.
  - intros Hn. by rewrite dict_lookup_rename_other, bool_decide_true.
  - done.
Qed.

(** C21: a table created by [__init__] from the session's counter, after
    any sequence of verbs on the session's table, owns none of that
    table's identities; joining it keeps every storage key of the
    session's table (whether the join returns or raises), and the session
    continuing with the joined table and the moved counter keeps the
    session invariant. *)
Theorem session_join_fresh s name d on how :
  session_wf s → frame_wf d → (s_next s + N.of_nat (length (fr_cols d)) ≤ 2 ^ 128)%N →
  let right := (PandasTableImpl_init name d (s_next s)).1 in
  let next' := (PandasTableImpl_init name d (s_next s)).2 in
  df_name_mapping (s_table s) ##ₘ df_name_mapping right ∧
  (∀ u k, df_name_mapping (s_table s) !! u = Some k →
          df_name_mapping (join right on how (s_table s)).2 !! u = Some k) ∧
  session_wf (mkSession (join right on how (s_table s)).2 next').
Proof.
  intros Hs Hd Hb right next'. pose proof Hs as (Hk & Hf & Hl & _).
  pose proof (fresh_table_disjoint s name d Hl) as Hdis.
  destruct (init_identity_range name d (s_next s) 0) as [_ Hn].
  split; [done|]. split.
  - intros u k Hu. destruct (join_mapping_cases right on how (s_table s)) as [->| ->]; [done|].
    unfold joined_mapping. rewrite lookup_union_r; [done|].
    eapply map_disjoint_Some_l; [|done]. by symmetry.
  - assert (Hnext : next' = (s_next s + N.of_nat (length (fr_cols d)))%N) by apply Hn.
    split; [apply join_table_wf; [by apply init_table_wf|by apply session_table_wf]|].
    split; [by apply join_frame_wf, init_frame_wf|]. cbn [s_table s_next]. split; [|lia].
    apply join_live; [exact (init_live name d (s_next s))|].
    apply (live_below_mono (s_next s)); [lia|done].
Qed.

(** C19: [alias] does not keep identities (the spec says it does): the
    new table draws new identities from the counter, so an identity of the
    old table has no storage key in the new one, a column of the old table
    fails to translate against it, and no name of the new table resolves
    to an old identity. *)
Theorem alias_forgets_columns name s s' c :
  session_wf s → verb_alias name s = (Ok (), s') → is_Some (df_name_mapping (s_table s) !! col_uuid c) →
  df_name_mapping (s_table s') !! col_uuid c = None ∧
  (∃ e, pandas_translate_col (df_name_mapping (s_table s')) (df (s_table s')) c = Err e) ∧
  (∀ n v, named_col (s_table s') n = Ok v → v ≠ col_uuid c).
Proof.
  intros (_ & _ & [Hlive _] & _) Ha [k Hk]. pose proof (Hlive _ _ Hk) as Hu. simpl in Hu.
  destruct (collect (s_table s)) as [d|e] eqn:Hd;
    [|unfold verb_alias, alias in Ha; by rewrite st_get_bind, st_lift_bind, Hd in Ha].
  rewrite (verb_alias_Ok name s d Hd) in Ha. injection Ha as <-. unfold init_session.
  pose proof (init_identity_range name d (s_next s) (col_uuid c)) as [Hr _].
  pose proof (init_named_range name d (s_next s)) as Hn.
  destruct (PandasTableImpl_init name d (s_next s)) as [t' n'] eqn:Hi. simpl in *.
  assert (Hnone : df_name_mapping t' !! col_uuid c = None).
  { apply eq_None_not_Some. rewrite Hr. lia. }
  split; [done|]. split.
  - unfold pandas_translate_col, dict_getitem. rewrite Hnone. by eexists.
  - intros n v Hv ->. apply Hn in Hv. lia.
Qed.

(** ** Examples *)

(** The example table of [Table.v] as a session, and a mutate of a new
    name [z], of [a] twice, a rename and an alias. *)
Definition ex_session : session := init_session "t" ex_frame 0.
Definition ex_mutate_z : list (string * expr (obj pval)) := [("z", Leaf (OInt 5))].
Definition ex_session_z : session := (verb_mutate ex_registry ex_mutate_z ex_session).2.
Definition ex_session_a1 : session := (verb_mutate ex_registry [("a", Leaf (OInt 5))] ex_session).2.
Definition ex_session_a2 : session := (verb_mutate ex_registry [("a", Leaf (OInt 7))] ex_session_a1).2.
Definition ex_aliased : session := (verb_alias "u" ex_session).2.

Lemma ex_session_wf : session_wf ex_session.
Proof. apply init_session_wf; [apply ex_frame_wf|simpl; lia]. Qed.

Lemma ex_session_z_run : verb_mutate ex_registry ex_mutate_z ex_session = (Ok (), ex_session_z).
Proof. vm_compute. reflexivity. Qed.

Lemma session_invariant_witness :
  session_wf ex_session_z ∧
  (uuid_str_sound → ∀ u v k, df_name_mapping (s_table ex_session_z) !! u = Some k →
            df_name_mapping (s_table ex_session_z) !! v = Some k → u = v).
Proof.
  apply (session_invariant ex_registry "t" ex_frame 0 ex_session_z ex_frame_wf ltac:(simpl; lia)).
  apply rtc_once, ss_mutate. simpl. lia.
Defined.

Lemma verb_mutate_fresh_witness :
  (∀ n, n ∈ ex_mutate_z.*1 → ∃ u, named_col (s_table ex_session_z) n = Ok u ∧
          (s_next ex_session ≤ u < s_next ex_session_z)%N ∧ is_Some (abs (s_table ex_session_z) !! u)) ∧
  (∀ v, (v < s_next ex_session)%N → abs (s_table ex_session_z) !! v = abs (s_table ex_session) !! v).
Proof. exact (verb_mutate_fresh ex_registry ex_mutate_z ex_session ex_session_z uuid_to_str_sound ex_session_wf
                ltac:(simpl; lia) ex_session_z_run). Defined.

Lemma mutate_twice_distinct_witness :
  ∃ u1 u2 k1 k2, named_col (s_table ex_session_a1) "a" = Ok u1 ∧
    named_col (s_table ex_session_a2) "a" = Ok u2 ∧ u1 ≠ u2 ∧
    df_name_mapping (s_table ex_session_a2) !! u1 = Some k1 ∧
    df_name_mapping (s_table ex_session_a2) !! u2 = Some k2 ∧ k1 ≠ k2 ∧
    is_Some (abs (s_table ex_session_a1) !! u1) ∧
    abs (s_table ex_session_a2) !! u1 = abs (s_table ex_session_a1) !! u1.
Proof.
  apply (mutate_twice_distinct ex_registry "a" (Leaf (OInt 5)) (Leaf (OInt 7)) ex_session
           ex_session_a1 ex_session_a2 uuid_to_str_sound ex_session_wf ltac:(simpl; lia));
    vm_compute; reflexivity.
Defined.

(** The second mutate stores [a] under a new key, and the first value
    stays under the old one. *)
Lemma ex_twice_keys :
  named_col (s_table ex_session_a2) "a" = Ok 4%N ∧
  df_name_mapping (s_table ex_session_a2) !! 3%N = Some ("t_mutate_a_" +:+ uuid_to_str 3) ∧
  abs (s_table ex_session_a2) !! 3%N = Some [CInt 5; CInt 5] ∧
  abs (s_table ex_session_a2) !! 4%N = Some [CInt 7; CInt 7].
Proof. repeat split; vm_compute; reflexivity. Qed.

Lemma rename_keeps_identity_witness :
  let t' := (verb_rename "a" "x" ex_table).2 in
  named_col t' "x" = named_col ex_table "a" ∧
  (∀ n, n ≠ "x" → n ≠ "a" → named_col t' n = named_col ex_table n) ∧
  ("x" ≠ "a" → named_col t' "a" = raise! KeyError "a") ∧ abs t' = abs ex_table.
Proof. apply rename_keeps_identity. vm_compute. reflexivity. Defined.

Lemma alias_forgets_columns_witness :
  df_name_mapping (s_table ex_aliased) !! col_uuid pt_a = None ∧
  (∃ e, pandas_translate_col (df_name_mapping (s_table ex_aliased)) (df (s_table ex_aliased)) pt_a = Err e) ∧
  (∀ n v, named_col (s_table ex_aliased) n = Ok v → v ≠ col_uuid pt_a).
Proof.
  apply (alias_forgets_columns "u" ex_session ex_aliased pt_a ex_session_wf);
    [vm_compute; reflexivity|vm_compute; by eexists].
Defined.

(** The frame of [Table.v]'s second example table, created from the
    session's counter (identities 3 and 4), and joined on [a = c]. *)
Definition ex_frame_u : frame := mkFrame [("c", np_int64); ("d", np_bool)] [[CInt 1; CBool true]].

Lemma ex_frame_u_wf : frame_wf ex_frame_u.
Proof. split; [apply (bool_decide_unpack _); vm_compute; exact I|repeat constructor]. Qed.

Lemma session_join_fresh_witness :
  let right := (PandasTableImpl_init "u" ex_frame_u (s_next ex_session)).1 in
  let next' := (PandasTableImpl_init "u" ex_frame_u (s_next ex_session)).2 in
  df_name_mapping (s_table ex_session) ##ₘ df_name_mapping right ∧
  (∀ u k, df_name_mapping (s_table ex_session) !! u = Some k →
          df_name_mapping (join right ex_on_a_c (Some "inner") (s_table ex_session)).2 !! u = Some k) ∧
  session_wf (mkSession (join right ex_on_a_c (Some "inner") (s_table ex_session)).2 next').
Proof. exact (session_join_fresh ex_session "u" ex_frame_u ex_on_a_c (Some "inner") ex_session_wf
                ex_frame_u_wf ltac:(simpl; lia)). Defined.

(** That join returns, and pairs the row with [a = 1] with the new row. *)
Lemma ex_session_joined :
  let right := (PandasTableImpl_init "u" ex_frame_u (s_next ex_session)).1 in
  (join right ex_on_a_c (Some "inner") (s_table ex_session)).1 = Ok () ∧
  abs (join right ex_on_a_c (Some "inner") (s_table ex_session)).2 !! 4%N = Some [CBool true].
Proof. split; vm_compute; reflexivity. Qed.
