(* ===== verification/Program.v ===== *)
(** * A program of several tables

    A pdtransform program names several tables, created from frames and
    transformed by the table layer's verbs, all drawing their column
    identities from one counter ([Column.generate_col_uuid]).  A
    [program] maps the program's variables to their tables and carries
    the counter; [create_table] is [x = PandasTableImpl(name, df)],
    [on_named x v] runs a verb of [Verbs] on the table of [x], and
    [join_named x y] joins the table of [y] into that of [x].  The step
    relation [prog_step] is what a program may do next; the theorem
    [program_invariant] shows that every table of every program it
    reaches keeps the session invariant of [Verbs] with the program's
    counter: every storage key ending in ['_' + uuid_to_str] of its
    identity, a well-formed frame, and every identity below the counter,
    whatever tables were joined; for a sound [uuid_to_str] the storage
    keys are injective. *)

From S2P Require Import Prelude Expr Registry Translator Frame FrameColumns Strip Table PandasTable Contract Verbs.

Record program := mkProgram { p_tables : gmap string PandasTableImpl; p_next : uuid }.

(** [x = PandasTableImpl(name, df)] *)
Definition create_table (x name : string) (d : frame) (p : program) : program :=
  let '(t, next') := PandasTableImpl_init name d (p_next p) in
  mkProgram (<[x := t]> (p_tables p)) next'.

(** A verb of the table layer on the table of [x], with the program's
    counter; an unknown variable raises [NameError]. *)
Definition on_named {A} (x : string) (v : stres session A) : stres program A :=
  λ p, match p_tables p !! x with
       | None => (raise! NameError x, p)
       | Some t =>
           let '(r, s') := v (mkSession t (p_next p)) in
           (r, mkProgram (<[x := s_table s']> (p_tables p)) (s_next s'))
       end.

(** [x.join(y, on, how)]: the table of [y] joined into that of [x]. *)
Definition join_named (x y : string) (on : expr (obj pval)) (how : option string)
    : stres program unit :=
  λ p, match p_tables p !! y with
       | None => (raise! NameError y, p)
       | Some r => on_named x (on_table (join r on how)) p
       end.

(** What a program may do next: create a table while the counter has room
    for its identities, run a verb step of [Verbs] on one of its tables,
    or join two of its tables. *)
Inductive prog_step (reg : OperatorRegistry PandasFn) : program → program → Prop :=
  | ps_create x name d p :
      frame_wf d → (p_next p + N.of_nat (length (fr_cols d)) ≤ 2 ^ 128)%N →
      prog_step reg p (create_table x name d p)
  | ps_verb x t s' p :
      p_tables p !! x = Some t → session_step reg (mkSession t (p_next p)) s' →
      prog_step reg p (mkProgram (<[x := s_table s']> (p_tables p)) (s_next s'))
  | ps_join x y on how p : prog_step reg p (join_named x y on how p).2.

(** Every table of the program keeps the session invariant with the
    program's counter. *)
Definition prog_wf (p : program) : Prop :=
  (p_next p ≤ 2 ^ 128)%N ∧ map_Forall (λ _ t, session_wf (mkSession t (p_next p))) (p_tables p).

(** ** The counter only moves forward *)

Lemma session_wf_mono t n n' :
  session_wf (mkSession t n) → (n ≤ n' ≤ 2 ^ 128)%N → session_wf (mkSession t n').
Proof.
  intros (Hk & Hf & Hl & _) Hn. split; [done|]. split; [done|]. split; [|simpl; lia].
  apply (live_below_mono n); [simpl; lia|done].
Qed.

Lemma init_next name d next :
  (PandasTableImpl_init name d next).2 = (next + N.of_nat (length (fr_cols d)))%N.
Proof. apply (init_identity_range name d next 0). Qed.

Lemma session_step_next reg s s' : session_step reg s s' → (s_next s ≤ s_next s')%N.
Proof.
  destruct 1 as [kw s Hb|args s|ordering s|names s|old new s|right on how s _ _ _|name s _];
    rewrite ?verb_mutate_unfold, ?on_table_run; simpl; try lia.
  destruct (collect (s_table s)) as [d|e] eqn:Hd.
  - rewrite (verb_alias_Ok name s d Hd). unfold init_session.
    pose proof (init_next name d (s_next s)) as Hn.
    destruct (PandasTableImpl_init name d (s_next s)). simpl in *. lia.
  - unfold verb_alias, alias. rewrite st_get_bind, st_lift_bind, Hd. simpl. lia.
Qed.

(** ** Programs keep the invariant *)

Lemma on_named_run {A} x (v : stres session A) p t :
  p_tables p !! x = Some t →
  (on_named x v p).2 = mkProgram (<[x := s_table (v (mkSession t (p_next p))).2]> (p_tables p))
                                 (s_next (v (mkSession t (p_next p))).2).
Proof. intros Hx. unfold on_named. rewrite Hx. by destruct (v _). Qed.

(** Replacing one table by a session that keeps the invariant, with a
    counter that has only moved forward, keeps the program's. *)
Lemma prog_wf_update p x s' :
  prog_wf p → session_wf s' → (p_next p ≤ s_next s')%N →
  prog_wf (mkProgram (<[x := s_table s']> (p_tables p)) (s_next s')).
Proof.
  intros [_ Hall] Hs' Hn. pose proof Hs' as (_ & _ & _ & Hb). split; [done|]. simpl.
  apply map_Forall_insert_2; [by destruct s'|].
  eapply map_Forall_impl; [done|]. intros y t Ht. apply (session_wf_mono _ (p_next p)); [done|lia].
Qed.

Lemma create_table_wf p x name d :
  prog_wf p → frame_wf d → (p_next p + N.of_nat (length (fr_cols d)) ≤ 2 ^ 128)%N →
  prog_wf (create_table x name d p).
Proof.
  intros Hp Hd Hb. pose proof (init_session_wf name d (p_next p) Hd Hb) as Hs.
  pose proof (init_next name d (p_next p)) as Hn.
  unfold create_table, init_session in *. destruct (PandasTableImpl_init name d (p_next p)) as [t n'].
  simpl in Hn. subst n'. apply (prog_wf_update p x (mkSession t (p_next p + N.of_nat (length (fr_cols d))))); [done|done|simpl; lia].
Qed.

(** Joining two tables of the program is a verb step of the session of the
    left one: the right table keeps the invariant with the same counter. *)
Lemma join_named_step reg p x y on how :
  prog_wf p →
  (join_named x y on how p).2 = p ∨
  ∃ t s', p_tables p !! x = Some t ∧ session_step reg (mkSession t (p_next p)) s' ∧
          (join_named x y on how p).2 = mkProgram (<[x := s_table s']> (p_tables p)) (s_next s').
Proof.
  intros [_ Hall]. unfold join_named. destruct (p_tables p !! y) as [r|] eqn:Hy; [|by left].
  destruct (p_tables p !! x) as [t|] eqn:Hx; [|left; unfold on_named; by rewrite Hx].
  right. exists t, (on_table (join r on how) (mkSession t (p_next p))).2.
  split; [done|]. split; [|by apply on_named_run].
  pose proof (Hall y r Hy) as Hr. simpl in Hr.
  apply ss_join; [by apply (session_table_wf (mkSession r (p_next p)))|apply Hr|apply Hr].
Qed.

Lemma prog_step_wf reg p p' : prog_step reg p p' → prog_wf p → prog_wf p'.
Proof.
  destruct 1 as [x name d p Hd Hb|x t s' p Hx Hst|x y on how p]; intros Hp.
  - by apply create_table_wf.
  - apply prog_wf_update; [done|by eapply session_step_wf, (proj2 Hp)|by apply (session_step_next reg _ _ Hst)].
  - destruct (join_named_step reg p x y on how Hp) as [->|(t & s' & Hx & Hst & ->)]; [done|].
    apply prog_wf_update; [done|by eapply session_step_wf, (proj2 Hp)|by apply (session_step_next reg _ _ Hst)].
Qed.

Lemma prog_reach_wf reg p p' : prog_wf p → rtc (prog_step reg) p p' → prog_wf p'.
Proof. intros Hp Hr. induction Hr; eauto using prog_step_wf. Qed.

(** ** Theorems *)

(** C16: in every program that starts without tables from a counter
    within 128 bits and creates tables, runs verbs on them and joins
    them in any order, every table keeps the session invariant with the
    program's counter (well-formed storage keys, a well-formed frame,
    every identity below the counter, each storage key ending in
    ['_' + uuid_to_str] of its identity), so for a [uuid_to_str] that is
    injective and writes no ['_'] distinct identities of a table never
    share a storage key, whatever tables were joined into it. *)
Theorem program_invariant reg next p :
  (next ≤ 2 ^ 128)%N → rtc (prog_step reg) (mkProgram ∅ next) p →
  prog_wf p ∧
  (uuid_str_sound → ∀ x t u v k, p_tables p !! x = Some t →
    df_name_mapping t !! u = Some k → df_name_mapping t !! v = Some k → u = v).
Proof.
  intros Hb Hr. assert (Hp : prog_wf p) by (apply (prog_reach_wf reg (mkProgram ∅ next)); [split; [exact Hb|apply map_Forall_empty]|done]).
  split; [done|]. intros Hs x t u v k Hx. by apply keys_wf_inj, (proj1 (proj2 Hp x t Hx)).
Qed.

(** ** Examples *)

(** Two tables created from one counter, then the second joined into the
    first on [t.a == u.c]. *)
Definition ex_program0 : program := mkProgram ∅ 0.
Definition ex_program1 : program := create_table "t" "t" ex_frame ex_program0.
Definition ex_program2 : program := create_table "u" "u" ex_frame_u ex_program1.
Definition ex_program3 : program := (join_named "t" "u" ex_on_a_c (Some "inner") ex_program2).2.

Lemma program_invariant_witness :
  prog_wf ex_program3 ∧
  (∀ x t u v k, p_tables ex_program3 !! x = Some t →
    df_name_mapping t !! u = Some k → df_name_mapping t !! v = Some k → u = v).
Proof.
  assert (Hr : rtc (prog_step ex_registry) (mkProgram ∅ 0) ex_program3).
  { eapply rtc_l; [apply ps_create; [apply ex_frame_wf|simpl; lia]|].
    eapply rtc_l; [apply ps_create; [apply ex_frame_u_wf|simpl; lia]|].
    apply rtc_once, ps_join. }
  destruct (program_invariant ex_registry 0 ex_program3 ltac:(lia) Hr) as [Hp Hinj].
  split; [exact Hp|exact (Hinj uuid_to_str_sound)].
Defined.

(** After the join, the table of [t] holds [u]'s column [d] beside its own
    columns, and the table of [u] is as created. *)
Lemma ex_program_joined :
  (join_named "t" "u" ex_on_a_c (Some "inner") ex_program2).1 = Ok () ∧
  ((λ t, abs t !! 4%N) <$> p_tables ex_program3 !! "t") = Some (Some [CBool true]) ∧
  ((λ t, abs t !! 4%N) <$> p_tables ex_program3 !! "u") = Some (Some [CBool true]) ∧
  p_next ex_program3 = 5%N.
Proof. repeat split; vm_compute; reflexivity. Qed.

(** A column made by [mutate] cannot take part in a later join: the
    backend's [join] orients the condition by [col_expr], which neither
    the backend nor the modelled table layer extends with the new
    identity. *)
Definition ex_program_z : program :=
  create_table "u" "u" ex_frame_u
    (on_named "t" (verb_mutate ex_registry [("z", Leaf (OInt 5))]) ex_program1).2.

Definition ex_on_z_c : expr (obj pval) :=
  FunctionCall "__eq__" [Leaf (OColumn (Column "z" "t" "int" 3%N)); Leaf (OColumn (Column "c" "u" "int" 4%N))] [].

Lemma ex_join_mutated_raises :
  ((λ t, named_col t "z") <$> p_tables ex_program_z !! "t") = Some (Ok 3%N) ∧
  ((λ t, named_col t "c") <$> p_tables ex_program_z !! "u") = Some (Ok 4%N) ∧
  (join_named "t" "u" ex_on_z_c (Some "inner") ex_program_z).1 = raise! Exception "".
Proof. repeat split; vm_compute; reflexivity. Qed.
